(** * tarat_parses: the download core of [main.py]

    A shallow embedding of the text helpers ([sanitize_filename],
    [build_expected_filepath]), of the response helper
    ([safe_get_content_length]), of the download worker ([download_track],
    [download_cover], [write_id3_tags]) and of the result loop of [main],
    followed by the properties of the specification that were checked
    against them.

    Strings are lists of code points.  A worker is a tree of calls to the
    world outside it (disk, session, semaphore, cover lock, progress bars,
    log, tag library); what the calls answer is given by the state of the
    world and by an environment that decides the failures and the answers
    of the server.  The pool runs the workers one call at a time, in the
    order of a schedule.  Exceptions are instances of [Exception]; task
    cancellation and keyboard interrupts are outside the model, and so are
    the discovery of the tracks and the cache file. *)

From Stdlib Require Import Strings.Ascii Strings.String Strings.Byte.
From Stdlib Require Import Decimal DecimalString DecimalNat DecimalFacts.
From stdpp Require Import base numbers list strings gmap sorting.

(* ================================================================== *)
(** * Part I: definitions *)
(* ================================================================== *)

(** ** Python strings

    A Python [str] is a sequence of Unicode code points; the en dash of
    [sanitize_filename] is not a byte, so a string is a list of code
    points. *)

Abbreviation pystr := (list N).

(** An ASCII literal as a Python string. *)
Fixpoint lit (s : string) : pystr :=
  match s with
  | EmptyString => []
  | String a s' => N_of_ascii a :: lit s'
  end.

(** [str.isspace] on one character: U+0009..U+000D, U+001C..U+0020, U+0085,
    U+00A0, U+1680, U+2000..U+200A, U+2028, U+2029, U+202F, U+205F,
    U+3000.  [str.strip()] and [str.split()] without argument use it. *)
Definition is_space (c : N) : bool :=
  ((9 <=? c) && (c <=? 13) || (28 <=? c) && (c <=? 32) || (c =? 133)
   || (c =? 160) || (c =? 5760) || (8192 <=? c) && (c <=? 8202)
   || (c =? 8232) || (c =? 8233) || (c =? 8239) || (c =? 8287)
   || (c =? 12288))%N.

Definition SPACE : N := 32%N.
Definition HYPHEN : N := 45%N.
Definition EN_DASH : N := 8211%N.
Definition SLASH : N := 47%N.

Fixpoint lstrip (s : pystr) : pystr :=
  match s with
  | c :: s' => if is_space c then lstrip s' else s
  | [] => []
  end.

Definition rstrip (s : pystr) : pystr := rev (lstrip (rev s)).

(** [s.strip()] *)
Definition strip (s : pystr) : pystr := rstrip (lstrip s).

(** [s.split()]: the maximal runs of non-whitespace characters. *)
Fixpoint split (s : pystr) : list pystr :=
  match s with
  | [] => []
  | c :: s' =>
      if is_space c then split s'
      else
        match s' with
        | [] => [[c]]
        | d :: _ =>
            if is_space d then [c] :: split s'
            else
              match split s' with
              | w :: ws => (c :: w) :: ws
              | [] => [[c]]
              end
        end
  end.

(** [sep.join(ws)] *)
Fixpoint join (sep : pystr) (ws : list pystr) : pystr :=
  match ws with
  | [] => []
  | w :: ws' =>
      match ws' with
      | [] => w
      | _ :: _ => w ++ sep ++ join sep ws'
      end
  end.

Fixpoint starts_with (p s : pystr) : bool :=
  match p, s with
  | [], _ => true
  | a :: p', b :: s' => (a =? b)%N && starts_with p' s'
  | _ :: _, [] => false
  end.

(** [s.replace(old, new)] for a non-empty [old]: the occurrences are found
    from left to right and do not overlap.  [skip] counts the characters
    of a match that are still to be passed over. *)
Fixpoint replace_from (old new : pystr) (skip : nat) (s : pystr) : pystr :=
  match s with
  | [] => []
  | c :: s' =>
      match skip with
      | S k => replace_from old new k s'
      | O =>
          if starts_with old s
          then new ++ replace_from old new (length old - 1) s'
          else c :: replace_from old new 0 s'
      end
  end.

Definition replace (old new s : pystr) : pystr := replace_from old new 0 s.

(** ** [sanitize_filename] *)

(** The characters of the raw string literal in [sanitize_filename]:
    less-than, greater-than, colon, double quote, slash, backslash, bar,
    question mark, asterisk. *)
Definition reserved : pystr := [60; 62; 58; 34; 47; 92; 124; 63; 42]%N.

Definition sanitize_filename (name : pystr) : pystr :=
  let name := strip (filter (λ c, c ∉ reserved) name) in
  let name := join (lit " ") (split name) in
  replace [SPACE; EN_DASH; SPACE] (lit "-")
    (replace (lit " - ") (lit "-") name).

(** *** The word view of a sanitized name

    After [" ".join(name.split())] a name is a list of words separated by
    one space each; both [replace] calls of [sanitize_filename] then act on
    that list of words: a word that is exactly the dash, with a word on
    either side, disappears and glues its neighbours with a hyphen.  These
    notions only serve the proofs about [sanitize_filename]. *)

Definition word (w : pystr) : Prop :=
  w ≠ [] ∧ Forall (λ c, is_space c = false) w.

Definition unreserved (w : pystr) : Prop := Forall (λ c, c ∉ reserved) w.

(** What follows the first word in [" ".join(w :: rest)]. *)
Fixpoint spaced (rest : list pystr) : pystr :=
  match rest with
  | [] => []
  | x :: tl => SPACE :: x ++ spaced tl
  end.

(** [cur] is the word the scan of [replace] is at the end of, [rest] are
    the words still ahead. *)
Fixpoint merge_into (d : N) (cur : pystr) (rest : list pystr) : list pystr :=
  match rest with
  | [] => [cur]
  | x :: tl =>
      match tl with
      | y :: tl' =>
          if bool_decide (x = [d])
          then merge_into d (cur ++ HYPHEN :: y) tl'
          else cur :: merge_into d x tl
      | [] => cur :: merge_into d x tl
      end
  end.

Definition merge (d : N) (ws : list pystr) : list pystr :=
  match ws with
  | [] => []
  | w :: rest => merge_into d w rest
  end.

(** No word of [rest] but the last is the lone dash [d]. *)
Fixpoint nomid (d : N) (rest : list pystr) : Prop :=
  match rest with
  | [] => True
  | x :: tl =>
      match tl with
      | [] => True
      | _ :: _ => x ≠ [d] ∧ nomid d tl
      end
  end.

(** The words of a sanitized name: no reserved character, and no lone dash
    between two words. *)
Definition settled (ws : list pystr) : Prop :=
  Forall word ws ∧ Forall unreserved ws
  ∧ nomid HYPHEN (tail ws) ∧ nomid EN_DASH (tail ws).

(** ** Paths *)

Definition OUTPUT_DIR : pystr := lit "tarat_tracks".
Definition MAX_CONCURRENT_DOWNLOADS : nat := 6.

Definition ends_with_slash (p : pystr) : bool :=
  match last p with
  | Some c => (c =? SLASH)%N
  | None => false
  end.

(** [os.path.join(a, b)] of [posixpath]. *)
Definition path_join (a b : pystr) : pystr :=
  if starts_with [SLASH] b then b
  else if bool_decide (a = []) || ends_with_slash a then a ++ b
  else a ++ [SLASH] ++ b.

(** [os.path.basename(p)] of [posixpath]: what follows the last slash. *)
Fixpoint basename (p : pystr) : pystr :=
  match p with
  | [] => []
  | c :: p' =>
      if bool_decide (SLASH ∈ p') then basename p'
      else if (c =? SLASH)%N then p' else p
  end.

(** The folder and the path that [build_expected_filepath] computes; the
    function itself also creates the folder, see [build_expected_filepath]
    below. *)
Definition artist_folder (singer_name : pystr) : pystr :=
  path_join OUTPUT_DIR (sanitize_filename singer_name).

Definition expected_filepath (singer_name title : pystr) : pystr :=
  let singer_clean := sanitize_filename singer_name in
  let title_clean := sanitize_filename title in
  let filename := singer_clean ++ lit " - " ++ title_clean ++ lit ".mp3" in
  path_join (artist_folder singer_name) filename.

(** ** HTTP responses and [safe_get_content_length] *)

(** An instance of Python's [Exception] with its message.  The signals that
    are not instances of [Exception] (task cancellation, a keyboard
    interrupt) are not part of this model. *)
Inductive exn := PyException (text : pystr).

Inductive result (A : Type) : Type :=
| Ok (a : A)
| Raise (e : exn).
Arguments Ok {A} a.
Arguments Raise {A} e.

Abbreviation bytes := (list Byte.byte).

(** What the server sends back: the status line, the headers, and the body
    as the chunks that [iter_chunked] yields, possibly cut short by an error
    ([body_error], raised once the chunks are consumed). *)
Record response := Response {
  status : Z;
  headers : list (pystr * pystr);
  body : list bytes;
  body_error : option exn;
}.

Definition lower (c : N) : N :=
  if ((65 <=? c) && (c <=? 90))%N then (c + 32)%N else c.

(** [resp.headers.get(key)]: header names compare without case. *)
Fixpoint headers_get (hs : list (pystr * pystr)) (key : pystr) : option pystr :=
  match hs with
  | [] => None
  | (k, v) :: hs' =>
      if bool_decide (lower <$> k = lower <$> key) then Some v
      else headers_get hs' key
  end.

Definition digit_val (c : N) : option Z :=
  if ((48 <=? c) && (c <=? 57))%N then Some (Z.of_N (c - 48)) else None.

(** Decimal digits, single underscores allowed between two digits. *)
Fixpoint int_digits (acc : Z) (after_digit : bool) (s : pystr) : option Z :=
  match s with
  | [] => if after_digit then Some acc else None
  | c :: s' =>
      match digit_val c with
      | Some v => int_digits (10 * acc + v) true s'
      | None =>
          if (c =? 95)%N && after_digit then int_digits acc false s' else None
      end
  end.

(** [int(s)] on a string, [None] standing for [ValueError]: surrounding
    whitespace, an optional sign, ASCII decimal digits.  (Python also reads
    the decimal digits of other scripts; they are left out.) *)
Definition py_int (s : pystr) : option Z :=
  match strip s with
  | [] => None
  | c :: s' =>
      if (c =? 45)%N then Z.opp <$> int_digits 0 false s'
      else if (c =? 43)%N then int_digits 0 false s'
      else int_digits 0 false (c :: s')
  end.

(** Lines 98-102.  Without the header [get] returns its default, the
    integer 0, and [int(0)] is 0; a value that does not parse raises
    [ValueError], which the function turns into 0. *)
Definition safe_get_content_length (resp : response) : Z :=
  match headers_get (headers resp) (lit "content-length") with
  | None => 0
  | Some v =>
      match py_int v with
      | Some n => n
      | None => 0
      end
  end.

(** [a or b] on integers. *)
Definition py_or (a b : Z) : Z := if (a =? 0)%Z then b else a.

(** Lines 127-128: the total that [download_track] gives the progress bar
    of its slot, [total_size or 1]. *)
Definition progress_total (resp : response) : Z :=
  py_or (safe_get_content_length resp) 1.

(** ** The effects of the worker

    Every operation of the worker on the world outside it (the file
    system, the session, the semaphore, the cover lock, the registry of
    covers, the progress bars, the error log, the tag library) is a [call];
    [answer c] is what the call hands back.  A worker is a tree of calls
    ([prog]); the calls are also the points where a coroutine may be
    suspended. *)

(** The two requests of the source: the track body (line 122, timeout 45)
    and the cover (line 161, timeout 30). *)
Inductive resource := TrackBody | CoverArt.

Inductive frame :=
| TPE1 (text : pystr)
| TIT2 (text : pystr)
| TALB (text : pystr)
| COMM (lang text : pystr).

(** The entries of the error log, by the line that writes them. *)
Inductive logmsg :=
| LogHttpStatus (status : Z) (track_str : pystr)   (* line 124 *)
| LogDownloadError (track_str : pystr) (e : exn)   (* line 148 *)
| LogCoverError (singer_name : pystr) (e : exn)    (* line 167 *)
| LogTagError (file : pystr) (e : exn)             (* line 67 *)
| LogTaskException (e : exn).                      (* line 298 *)

Inductive call :=
| Makedirs (path : pystr)                 (* os.makedirs(path, exist_ok=True) *)
| PathExists (path : pystr)               (* os.path.exists(path) *)
| SemAcquire                              (* entering [async with semaphore] *)
| SemRelease                              (* leaving it *)
| CoverLockAcquire                        (* entering [async with cover_lock] *)
| CoverLockRelease
| CoversContains (singer_name : pystr)    (* singer_name in downloaded_covers *)
| PbarSetDescription (slot : nat) (desc : pystr)
| PbarReset (slot : nat)
| PbarSetTotal (slot : nat) (total : Z)
| PbarUpdate (slot : nat) (n : Z)
| SessionGet (what : resource) (url : pystr) (timeout : Z)
| ResponseRelease (what : resource)       (* leaving [async with session.get] *)
| ReadChunk                               (* one step of [iter_chunked] *)
| ReadAll                                 (* await resp.read() *)
| AioOpen (path : pystr)                  (* aiofiles.open(path, "wb") *)
| AioWrite (path : pystr) (data : bytes)
| AioClose (path : pystr)
| LogError (m : logmsg)                   (* logging.error *)
| Mp3Load (path : pystr)                  (* MP3(filepath, ID3=ID3) *)
| Mp3AddTags                              (* audio.add_tags() *)
| Mp3TagsAdd (f : frame)                  (* audio.tags.add(f) *)
| Mp3Save.                                (* audio.save() *)

Definition answer (c : call) : Type :=
  match c with
  | PathExists _ | CoversContains _ => bool
  | SessionGet _ _ _ => result response
  | Makedirs _ | AioOpen _ | AioWrite _ _
  | Mp3Load _ | Mp3AddTags | Mp3TagsAdd _ | Mp3Save => result unit
  | _ => unit
  end.

Inductive prog (R : Type) : Type :=
| Ret (r : R)
| Op (c : call) (k : answer c → prog R).
Arguments Ret {R} r.
Arguments Op {R} c k.

Definition call_ (c : call) : prog (answer c) := Op c Ret.

Fixpoint bind {A B} (p : prog A) (f : A → prog B) : prog B :=
  match p with
  | Ret a => f a
  | Op c k => Op c (λ x, bind (k x) f)
  end.

#[global] Instance prog_ret : MRet prog := @Ret.
#[global] Instance prog_bind : MBind prog := λ A B f p, bind p f.

(** Sequencing that stops at the first exception. *)
Definition and_then {A B} (p : prog (result A)) (f : A → prog (result B))
  : prog (result B) :=
  r ← p;
  match r with
  | Ok a => f a
  | Raise e => Ret (Raise e)
  end.

Notation "x ←? y ; z" := (and_then y (λ x : _, z))
  (at level 20, y at level 100, z at level 200, only parsing).
Notation "y ;;? z" := (and_then y (λ _, z))
  (at level 100, z at level 200, only parsing, right associativity).

(** [try: body  except Exception as e: handler(e)] *)
Definition try_except {A} (body : prog (result A)) (handler : exn → prog (result A))
  : prog (result A) :=
  r ← body;
  match r with
  | Ok a => Ret (Ok a)
  | Raise e => handler e
  end.

(** [async with semaphore: body] *)
Definition with_semaphore {A} (body : prog (result A)) : prog (result A) :=
  call_ SemAcquire;; r ← body; call_ SemRelease;; Ret r.

(** [async with cover_lock: body] *)
Definition with_cover_lock {A} (body : prog (result A)) : prog (result A) :=
  call_ CoverLockAcquire;; r ← body; call_ CoverLockRelease;; Ret r.

(** [async with session.get(url, headers=..., timeout=timeout) as resp: body] *)
Definition with_response {A} (what : resource) (url : pystr) (timeout : Z)
    (body : response → prog (result A)) : prog (result A) :=
  resp ←? call_ (SessionGet what url timeout);
  r ← body resp; call_ (ResponseRelease what);; Ret r.

(** [async with aiofiles.open(path, "wb") as f: body] *)
Definition with_file {A} (path : pystr) (body : prog (result A)) : prog (result A) :=
  call_ (AioOpen path);;?
  r ← body; call_ (AioClose path);; Ret r.

(** ** The worker: [write_id3_tags], [download_cover], [download_track] *)

(** A track record [(singer_name, title, mp3_url, cover_url)]; the cover
    URL is [None] for a JSON null. *)
Record track := Track {
  singer_name : pystr;
  title : pystr;
  mp3_url : pystr;
  cover_url : option pystr;
}.

(** Truth value of [cover_url]: neither [None] nor the empty string. *)
Definition truthy (u : option pystr) : bool :=
  match u with
  | Some (_ :: _) => true
  | _ => false
  end.

(** Lines 46-52. *)
Definition build_expected_filepath (singer_name title : pystr) : prog (result pystr) :=
  call_ (Makedirs (artist_folder singer_name));;?
  Ret (Ok (expected_filepath singer_name title)).

(** Lines 54-67.  The inner [try: audio.add_tags() except: pass] drops
    whatever [add_tags] raises. *)
Definition write_id3_tags (filepath artist title source_url : pystr)
  : prog (result unit) :=
  try_except
    (call_ (Mp3Load filepath);;?
     call_ Mp3AddTags;;
     call_ (Mp3TagsAdd (TPE1 artist));;?
     call_ (Mp3TagsAdd (TIT2 title));;?
     call_ (Mp3TagsAdd (TALB artist));;?
     call_ (Mp3TagsAdd (COMM (lit "rus") source_url));;?
     call_ Mp3Save)
    (λ e, call_ (LogError (LogTagError (basename filepath) e));; Ret (Ok tt)).

(** [await resp.read()] *)
Definition read_all (resp : response) : prog (result bytes) :=
  call_ ReadAll;;
  Ret (match body_error resp with
       | Some e => Raise e
       | None => Ok (mjoin (body resp))
       end).

(** Lines 151-167. *)
Definition download_cover (singer_name : pystr) (cover_url : option pystr)
  : prog (result unit) :=
  match cover_url with
  | Some (u :: rl) =>
      let singer_clean := sanitize_filename singer_name in
      let folder := path_join OUTPUT_DIR singer_clean in
      let cover_filename := singer_clean ++ lit "_cover.jpg" in
      let cover_path := path_join folder cover_filename in
      present ← call_ (PathExists cover_path);
      if present : bool then Ret (Ok tt)
      else
        try_except
          (with_response CoverArt (u :: rl) 30 (λ resp,
             if (status resp =? 200)%Z then
               call_ (Makedirs folder);;?
               with_file cover_path
                 (data ←? read_all resp;
                  call_ (AioWrite cover_path data))
             else Ret (Ok tt)))
          (λ e, call_ (LogError (LogCoverError singer_name e));; Ret (Ok tt))
  | _ => Ret (Ok tt)
  end.

(** Lines 111-113 and 140-142: the cover, under the cover lock. *)
Definition cover_step (tr : track) : prog (result unit) :=
  with_cover_lock
    (seen ← call_ (CoversContains (singer_name tr));
     if negb seen && truthy (cover_url tr)
     then download_cover (singer_name tr) (cover_url tr)
     else Ret (Ok tt)).

(** Lines 133-137: the chunks of the body go to the file one by one. *)
Fixpoint stream_chunks (filepath : pystr) (slot : nat)
    (chunks : list bytes) (err : option exn) : prog (result unit) :=
  match chunks with
  | [] =>
      call_ ReadChunk;;
      Ret (match err with Some e => Raise e | None => Ok tt end)
  | chunk :: rest =>
      call_ ReadChunk;;
      call_ (AioWrite filepath chunk);;?
      call_ (PbarUpdate slot (Z.of_nat (length chunk)));;
      stream_chunks filepath slot rest err
  end.

(** Lines 122-137, the block under [async with session.get(...)]: it either
    returns from [download_track] ([Some b]) or falls through to the code
    after it ([None]). *)
Definition fetch_body (tr : track) (filepath : pystr) (slot_index : nat)
  : prog (result (option bool)) :=
  let track_str := singer_name tr ++ lit " - " ++ title tr in
  with_response TrackBody (mp3_url tr) 45 (λ resp,
    if negb (status resp =? 200)%Z then
      call_ (LogError (LogHttpStatus (status resp) track_str));;
      Ret (Ok (Some false))
    else
      call_ (PbarSetTotal slot_index (progress_total resp));;
      with_file filepath
        (stream_chunks filepath slot_index (body resp) (body_error resp));;?
      Ret (Ok None)).

(** Lines 104-149. *)
Definition download_track (tr : track) (slot_index : nat) : prog (result bool) :=
  filepath ←? build_expected_filepath (singer_name tr) (title tr);
  let track_str := singer_name tr ++ lit " - " ++ title tr in
  present ← call_ (PathExists filepath);
  if present : bool then
    cover_step tr;;?
    Ret (Ok true)
  else
    with_semaphore
      (call_ (PbarSetDescription slot_index (take 50 track_str));;
       call_ (PbarReset slot_index);;
       try_except
         (returned ←? fetch_body tr filepath slot_index;
          match returned with
          | Some b => Ret (Ok b)
          | None =>
              cover_step tr;;?
              write_id3_tags filepath (singer_name tr) (title tr) (mp3_url tr);;?
              Ret (Ok true)
          end)
         (λ e, call_ (LogError (LogDownloadError track_str e));; Ret (Ok false))).

(** ** The world the workers share *)

(** One executed call: the task that made it, the call, and the exception
    it raised, if any. *)
Record event := Event {
  ev_task : nat;
  ev_call : call;
  ev_raised : option exn;
}.

Record world := World {
  files : gset pystr;             (* regular files on disk *)
  dirs : gset pystr;              (* directories on disk *)
  permits : nat;                  (* the counter of the semaphore *)
  cover_locked : bool;            (* [cover_lock] is held *)
  downloaded_covers : gset pystr; (* the global set of line 37 *)
  open_files : list pystr;        (* files opened and not yet closed *)
  errors_log : list logmsg;       (* errors.log *)
  trace : list event;             (* every call so far, oldest first *)
}.

(** The part of a run that the program does not decide: which calls fail,
    and what the server answers, both possibly depending on everything that
    happened before. *)
Record env := Env {
  fault : list event → nat → call → option exn;
  respond : list event → pystr → response;
}.

Definition set_files (f : gset pystr) (w : world) : world :=
  World f (dirs w) (permits w) (cover_locked w) (downloaded_covers w)
        (open_files w) (errors_log w) (trace w).
Definition set_dirs (d : gset pystr) (w : world) : world :=
  World (files w) d (permits w) (cover_locked w) (downloaded_covers w)
        (open_files w) (errors_log w) (trace w).
Definition set_permits (n : nat) (w : world) : world :=
  World (files w) (dirs w) n (cover_locked w) (downloaded_covers w)
        (open_files w) (errors_log w) (trace w).
Definition set_cover_locked (b : bool) (w : world) : world :=
  World (files w) (dirs w) (permits w) b (downloaded_covers w)
        (open_files w) (errors_log w) (trace w).
Definition set_open_files (l : list pystr) (w : world) : world :=
  World (files w) (dirs w) (permits w) (cover_locked w) (downloaded_covers w)
        l (errors_log w) (trace w).
Definition set_errors_log (l : list logmsg) (w : world) : world :=
  World (files w) (dirs w) (permits w) (cover_locked w) (downloaded_covers w)
        (open_files w) l (trace w).
Definition set_trace (t : list event) (w : world) : world :=
  World (files w) (dirs w) (permits w) (cover_locked w) (downloaded_covers w)
        (open_files w) (errors_log w) t.

Fixpoint remove_first (p : pystr) (l : list pystr) : list pystr :=
  match l with
  | [] => []
  | q :: l' => if bool_decide (p = q) then l' else q :: remove_first p l'
  end.

Definition result_exn {A} (r : result A) : option exn :=
  match r with
  | Ok _ => None
  | Raise e => Some e
  end.

Definition raised_of (c : call) : answer c → option exn :=
  match c with
  | SessionGet _ _ _ => result_exn
  | Makedirs _ | AioOpen _ | AioWrite _ _
  | Mp3Load _ | Mp3AddTags | Mp3TagsAdd _ | Mp3Save => result_exn
  | _ => λ _, None
  end.

(** A call that the environment may make fail; [w'] is the world after it
    when it succeeds. *)
Definition fallible (E : env) (tid : nat) (c : call) (w w' : world)
  : option (result unit * world) :=
  match fault E (trace w) tid c with
  | Some e => Some (Raise e, w)
  | None => Some (Ok tt, w')
  end.

(** What a call answers and how it changes the world; [None] when the
    caller has to wait (no permit left, cover lock held). *)
Definition react (E : env) (tid : nat) (c : call) (w : world)
  : option (answer c * world) :=
  match c return option (answer c * world) with
  | Makedirs p =>
      if bool_decide (p ∈ dirs w) then Some (Ok tt, w)
      else fallible E tid (Makedirs p) w (set_dirs ({[p]} ∪ dirs w) w)
  | PathExists p => Some (bool_decide (p ∈ files w ∨ p ∈ dirs w), w)
  | SemAcquire =>
      match permits w with
      | O => None
      | S n => Some (tt, set_permits n w)
      end
  | SemRelease => Some (tt, set_permits (S (permits w)) w)
  | CoverLockAcquire =>
      if cover_locked w then None else Some (tt, set_cover_locked true w)
  | CoverLockRelease => Some (tt, set_cover_locked false w)
  | CoversContains s => Some (bool_decide (s ∈ downloaded_covers w), w)
  | SessionGet what url timeout =>
      match fault E (trace w) tid (SessionGet what url timeout) with
      | Some e => Some (Raise e, w)
      | None => Some (Ok (respond E (trace w) url), w)
      end
  | AioOpen p =>
      fallible E tid (AioOpen p) w
        (set_open_files (p :: open_files w) (set_files ({[p]} ∪ files w) w))
  | AioWrite p data => fallible E tid (AioWrite p data) w w
  | AioClose p => Some (tt, set_open_files (remove_first p (open_files w)) w)
  | LogError m => Some (tt, set_errors_log (errors_log w ++ [m]) w)
  | Mp3Load p => fallible E tid (Mp3Load p) w w
  | Mp3AddTags => fallible E tid Mp3AddTags w w
  | Mp3TagsAdd f => fallible E tid (Mp3TagsAdd f) w w
  | Mp3Save => fallible E tid Mp3Save w w
  | PbarSetDescription _ _ | PbarReset _ | PbarSetTotal _ _ | PbarUpdate _ _
  | ResponseRelease _ | ReadChunk | ReadAll => Some (tt, w)
  end.

(** The world after one more event. *)
Definition note (ev : event) (w : world) : world :=
  set_trace (trace w ++ [ev]) w.

(** One call of task [tid], recorded in the trace. *)
Definition exec (E : env) (tid : nat) (c : call) (w : world)
  : option (answer c * world) :=
  match react E tid c w with
  | Some (a, w') => Some (a, note (Event tid c (raised_of c a)) w')
  | None => None
  end.

(** A worker run on its own, from its first call to its result; [None] when
    it comes to a call that has to wait. *)
Fixpoint run {R} (E : env) (tid : nat) (p : prog R) (w : world)
  : option (R * world) :=
  match p with
  | Ret r => Some (r, w)
  | Op c k =>
      match exec E tid c w with
      | Some (a, w') => run E tid (k a) w'
      | None => None
      end
  end.

(** ** The pool of workers

    [main] starts one task per track; the event loop runs one task at a
    time, from one call to the next.  A schedule is the list of the tasks
    it resumes, in order.  Next to its code each task carries an observer
    of its own calls: the permits it holds and whether its request for the
    track body is open. *)

Record ghost := Ghost {
  held : nat;
  fetching : bool;
}.

Record task := Task {
  code : prog (result bool);
  obs : ghost;
}.

Record system := System {
  shared : world;
  tasks : list task;
}.

Definition observe (c : call) : answer c → ghost → ghost :=
  match c with
  | SemAcquire => λ _ g, Ghost (S (held g)) (fetching g)
  | SemRelease => λ _ g, Ghost (pred (held g)) (fetching g)
  | SessionGet what _ _ => λ a g,
      match what, a with
      | TrackBody, Ok _ => Ghost (held g) true
      | _, _ => g
      end
  | ResponseRelease what => λ _ g,
      match what with
      | TrackBody => Ghost (held g) false
      | CoverArt => g
      end
  | _ => λ _ g, g
  end.

(** Resuming task [i] for one call; nothing happens when the task is
    finished, does not exist, or has to wait. *)
Definition sched_step (E : env) (i : nat) (s : system) : system :=
  match tasks s !! i with
  | Some t =>
      match code t with
      | Ret _ => s
      | Op c k =>
          match exec E i c (shared s) with
          | Some (a, w') =>
              System w' (<[i := Task (k a) (observe c a (obs t))]> (tasks s))
          | None => s
          end
      end
  | None => s
  end.

Definition run_schedule (E : env) (sched : list nat) (s : system) : system :=
  foldl (λ s i, sched_step E i s) s sched.

(** Lines 274-283: a fresh semaphore, lock and registry, and one task per
    track with its slot. *)
Definition fresh_world (files dirs : gset pystr) : world :=
  World files dirs MAX_CONCURRENT_DOWNLOADS false ∅ [] [] [].

Definition spawn (all_tracks : list track) : list task :=
  imap (λ i tr,
          Task (download_track tr (i `mod` MAX_CONCURRENT_DOWNLOADS)) (Ghost 0 false))
       all_tracks.

Definition start (files dirs : gset pystr) (all_tracks : list track) : system :=
  System (fresh_world files dirs) (spawn all_tracks).

Definition in_flight (s : system) : nat :=
  length (filter (λ t, fetching (obs t) = true) (tasks s)).

Definition permits_held (s : system) : nat :=
  sum_list (held ∘ obs <$> tasks s).

(** The result of each task that has finished. *)
Definition outcomes (s : system) : list (option (result bool)) :=
  (λ t, match code t with Ret r => Some r | Op _ _ => None end) <$> tasks s.

(** The results of the finished tasks, in the order of the tasks. *)
Definition results (s : system) : list (result bool) := omap id (outcomes s).

Definition is_cover_get (ev : event) : option pystr :=
  match ev_call ev with
  | SessionGet CoverArt url _ => Some url
  | _ => None
  end.

(** The URLs of the cover requests of a trace, in order. *)
Definition cover_gets (tr : list event) : list pystr := omap is_cover_get tr.

Definition is_body_get (c : call) : bool :=
  match c with
  | SessionGet TrackBody _ _ => true
  | _ => false
  end.

Definition is_open (c : call) : bool :=
  match c with
  | AioOpen _ => true
  | _ => false
  end.

(** ** The result loop of [main], lines 285-301 and 314 *)

Record tally := Tally {
  success_count : nat;
  pbar_main : nat;
  task_log : list logmsg;
}.

(** One turn of the loop over [asyncio.as_completed(tasks)]: awaiting the
    next finished task gives its result or raises its exception. *)
Definition collect_one (t : tally) (o : result bool) : tally :=
  let t' :=
    match o with
    | Ok true => Tally (S (success_count t)) (pbar_main t) (task_log t)
    | Ok false => t
    | Raise e =>
        Tally (success_count t) (pbar_main t) (task_log t ++ [LogTaskException e])
    end in
  Tally (success_count t') (S (pbar_main t')) (task_log t').

Definition collect (completed : list (result bool)) : tally :=
  foldl collect_one (Tally 0 0 []) completed.

(** The two numbers of the summary line, for [total] tracks. *)
Definition summary (total : nat) (completed : list (result bool)) : nat * nat :=
  (success_count (collect completed), total).

(** ** Notions for the statements about one worker *)

(** The run of [p] by task [tid] from [w] comes to a result, and the result
    and the world at that point satisfy [Q]. *)
Definition runs {R} (E : env) (tid : nat) (p : prog R) (w : world)
    (Q : R → world → Prop) : Prop :=
  ∃ r w', run E tid p w = Some (r, w') ∧ Q r w'.

(** The events between [w] and a later world [w']. *)
Definition new_events (w w' : world) : list event :=
  drop (length (trace w)) (trace w').

(** Between [w] and [w'] the permits, the cover lock, the open files and
    the registry of covers are back to what they were. *)
Definition same_state (w w' : world) : Prop :=
  permits w' = permits w ∧ cover_locked w' = cover_locked w
  ∧ open_files w' = open_files w
  ∧ downloaded_covers w' = downloaded_covers w.

(** Between [w] and [w'] there were only events that satisfy [P]. *)
Definition calls_since (P : event → Prop) (w w' : world) : Prop :=
  ∃ evs, trace w' = trace w ++ evs ∧ Forall P evs.

(** The calls of [cover_step] and [download_cover]. *)
Definition cover_call (c : call) : bool :=
  match c with
  | CoverLockAcquire | CoverLockRelease | CoversContains _ | PathExists _
  | SessionGet CoverArt _ _ | ResponseRelease CoverArt | Makedirs _
  | AioOpen _ | ReadAll | AioWrite _ _ | AioClose _
  | LogError (LogCoverError _ _) => true
  | _ => false
  end.

(** The calls of [write_id3_tags] whose failure reaches its handler. *)
Definition tag_write (c : call) : bool :=
  match c with
  | Mp3Load _ | Mp3TagsAdd _ | Mp3Save => true
  | _ => false
  end.

(** An event of task [tid] that is a call of the cover step. *)
Definition cover_event (tid : nat) (ev : event) : Prop :=
  ev_task ev = tid ∧ cover_call (ev_call ev) = true.

(** An event of task [tid] that is not a call of the tag writer. *)
Definition quiet_event (tid : nat) (ev : event) : Prop :=
  ev_task ev = tid ∧ tag_write (ev_call ev) = false.

(** An event of task [tid] that neither requests a track body nor takes a
    permit. *)
Definition no_body_request (tid : nat) (ev : event) : Prop :=
  ev_task ev = tid ∧ is_body_get (ev_call ev) = false
  ∧ ev_call ev ≠ SemAcquire.

(** An event whose failure, if it is one of writing the tags, is in the
    log [L]. *)
Definition tag_logged (filepath : pystr) (L : list logmsg) (ev : event) : Prop :=
  ∀ e, tag_write (ev_call ev) = true → ev_raised ev = Some e →
       LogTagError (basename filepath) e ∈ L.

(** The four frames of [write_id3_tags]: artist, title, album (the artist
    again) and a comment with the source URL. *)
Definition id3_frames (artist title source_url : pystr) : list frame :=
  [TPE1 artist; TIT2 title; TALB artist; COMM (lit "rus") source_url].

(** An event that, if it adds a frame, adds one of [frames]. *)
Definition tag_framed (frames : list frame) (ev : event) : Prop :=
  ∀ f, ev_call ev = Mp3TagsAdd f → f ∈ frames.

(** ** Notions for the statements about the pool *)

(** What a task must hold before a call: it gives back a permit, or asks
    for a track body, only while it holds a permit and has no request for a
    body open. *)
Definition allowed (c : call) (g : ghost) : Prop :=
  match c with
  | SemRelease | SessionGet TrackBody _ _ => 1 ≤ held g ∧ fetching g = false
  | _ => True
  end.

(** On every path of [p], whatever the calls answer, each call is allowed
    when it is made, and the result and the observer at the end satisfy
    [Q]. *)
Fixpoint obeys {R} (p : prog R) (g : ghost) (Q : R → ghost → Prop) : Prop :=
  match p with
  | Ret r => Q r g
  | Op c k => allowed c g ∧ ∀ a, obeys (k a) (observe c a g) Q
  end.

Definition idle (g : ghost) : Prop := held g = 0 ∧ fetching g = false.

(** An open request for a track body is covered by a permit. *)
Definition covered (g : ghost) : Prop := fetching g = true → 1 ≤ held g.

Definition task_ok (t : task) : Prop :=
  covered (obs t) ∧ obeys (code t) (obs t) (λ _ g, idle g).

(** The permits left and the permits held add up to the capacity, and every
    task keeps to the protocol from where it is. *)
Definition balanced (s : system) : Prop :=
  permits (shared s) + permits_held s = MAX_CONCURRENT_DOWNLOADS
  ∧ Forall task_ok (tasks s).

(** ** Notions for the skipped track in the pool *)

(** On every path of [p] on which the answers satisfy [A], every call
    satisfies [ok] and the result satisfies [Q]. *)
Fixpoint along {R} (A : ∀ c, answer c → Prop) (ok : call → Prop)
    (Q : R → Prop) (p : prog R) : Prop :=
  match p with
  | Ret r => Q r
  | Op c k => ok c ∧ ∀ a, A c a → along A ok Q (k a)
  end.

(** The answers of a disk that has the file [fp] in the folder [folder]. *)
Definition on_disk (fp folder : pystr) (c : call) : answer c → Prop :=
  match c with
  | Makedirs p => λ a, p = folder → a = Ok tt
  | PathExists p => λ a, p = fp → a = true
  | _ => λ _, True
  end.

(** A call that neither requests a track body nor takes a permit. *)
Definition skips (c : call) : Prop := is_body_get c = false ∧ c ≠ SemAcquire.

(** Task [i] of the pool is on its way to [True] without a request for the
    body of its track, whose file [fp] is on disk. *)
Definition skipping (i : nat) (fp folder : pystr) (s : system) : Prop :=
  fp ∈ files (shared s) ∧ folder ∈ dirs (shared s)
  ∧ (∃ t, tasks s !! i = Some t
          ∧ along (on_disk fp folder) skips (λ r, r = Ok true) (code t))
  ∧ Forall (λ ev, ev_task ev = i → skips (ev_call ev)) (trace (shared s)).

(** ** Notions for the statements about the result loop *)

Definition is_success (o : result bool) : bool :=
  match o with
  | Ok true => true
  | _ => false
  end.

(** The number of workers that returned [True]. *)
Definition successes (os : list (result bool)) : nat :=
  length (filter (λ o, is_success o = true) os).

(** The exceptions that escaped the workers. *)
Definition escaped (os : list (result bool)) : list exn := omap result_exn os.

(** ** Sample data *)

Definition cover_jpg : pystr := lit "http://host/covers/artist.jpg".

Definition track_one : track :=
  Track (lit "Artist") (lit "One") (lit "http://host/1.mp3") (Some cover_jpg).

Definition track_two : track :=
  Track (lit "Artist") (lit "Two") (lit "http://host/2.mp3") (Some cover_jpg).

Definition track_three : track :=
  Track (lit "Other") (lit "Song") (lit "http://host/3.mp3")
        (Some (lit "http://host/covers/other.jpg")).

Definition audio : response :=
  Response 200 [(lit "Content-Length", lit "3")]
           [[Byte.x49; Byte.x44]; [Byte.x33]] None.

Definition not_found : response := Response 404 [] [] None.

Definition no_fault : list event → nat → call → option exn := λ _ _ _, None.

(** A server without the cover: 404 for the cover, the audio for the rest. *)
Definition cover_missing : env :=
  Env no_fault (λ _ url, if bool_decide (url = cover_jpg) then not_found else audio).

(** A server that answers 404 to everything. *)
Definition all_missing : env := Env no_fault (λ _ _, not_found).

(** A healthy server, and a tag library that fails to save. *)
Definition save_fails : env :=
  Env (λ _ _ c, match c with
                | Mp3Save => Some (PyException (lit "can't sync to MPEG frame"))
                | _ => None
                end)
      (λ _ _, audio).

(** Task 0 runs to its end, then task 1. *)
Definition one_after_the_other : list nat := replicate 40 0 ++ replicate 40 1.

(** Tasks 0 and 1 take turns. *)
Definition taking_turns : list nat := mjoin (replicate 40 [0; 1]).

(** A server that has everything, and no failure anywhere. *)
Definition healthy : env := Env no_fault (λ _ _, audio).

(** A healthy server, and a disk where the folder of the second artist
    cannot be made. *)
Definition folder_denied : env :=
  Env (λ _ _ c, match c with
                | Makedirs p =>
                    if bool_decide (p = lit "tarat_tracks/Other")
                    then Some (PyException (lit "[Errno 13] Permission denied"))
                    else None
                | _ => None
                end)
      (λ _ _, audio).

(** Tasks 0, 1 and 2 take turns. *)
Definition round_robin : list nat := mjoin (replicate 60 [0; 1; 2]).

(** ** More notions for names and paths *)

(** [p in s] for two strings. *)
Definition occurs_in (p s : pystr) : Prop := ∃ l r, s = l ++ p ++ r.

(** The file name of a track, line 49. *)
Definition track_filename (singer_name title : pystr) : pystr :=
  sanitize_filename singer_name ++ lit " - "
  ++ sanitize_filename title ++ lit ".mp3".

(** The path of the cover in [download_cover], lines 154-157. *)
Definition cover_path (singer_name : pystr) : pystr :=
  path_join (path_join OUTPUT_DIR (sanitize_filename singer_name))
            (sanitize_filename singer_name ++ lit "_cover.jpg").

(** ** More notions for the statements about one worker *)

(** The file that a call opens, writes to or closes. *)
Definition file_of (c : call) : option pystr :=
  match c with
  | AioOpen p | AioWrite p _ | AioClose p => Some p
  | _ => None
  end.

(** An event of the cover step of task [tid] for the artist [name]: the
    only file it touches is the cover of that artist. *)
Definition cover_event_of (tid : nat) (name : pystr) (ev : event) : Prop :=
  ev_task ev = tid ∧ cover_call (ev_call ev) = true
  ∧ ∀ p, file_of (ev_call ev) = Some p → p = cover_path name.

(** The data of a write to [path] that went through. *)
Definition written_to (path : pystr) (ev : event) : option bytes :=
  match ev_call ev, ev_raised ev with
  | AioWrite p data, None => if bool_decide (p = path) then Some data else None
  | _, _ => None
  end.

(** What a list of events wrote to [path], in order. *)
Definition written (path : pystr) (evs : list event) : list bytes :=
  omap (written_to path) evs.

(** By how much an event advances the progress bar of [slot]. *)
Definition advance (slot : nat) (ev : event) : Z :=
  match ev_call ev with
  | PbarUpdate s n => if bool_decide (s = slot) then n else 0
  | _ => 0
  end.

Definition advanced (slot : nat) (evs : list event) : Z :=
  foldr Z.add 0%Z (advance slot <$> evs).

(** The log entries about the download of a track itself: lines 124 and
    148. *)
Definition download_entry (tr : track) (m : logmsg) : Prop :=
  match m with
  | LogHttpStatus st s =>
      st ≠ 200%Z ∧ s = singer_name tr ++ lit " - " ++ title tr
  | LogDownloadError s _ => s = singer_name tr ++ lit " - " ++ title tr
  | _ => False
  end.

(** The log entries about its cover and its tags: lines 167 and 67. *)
Definition side_entry (tr : track) (m : logmsg) : Prop :=
  match m with
  | LogCoverError s _ => s = singer_name tr
  | LogTagError f _ =>
      f = basename (expected_filepath (singer_name tr) (title tr))
  | _ => False
  end.

(** The world [w'] comes after [w]: what is on disk and in the log is still
    there. *)
Definition extends (w w' : world) : Prop :=
  files w ⊆ files w' ∧ dirs w ⊆ dirs w'
  ∧ errors_log w `prefix_of` errors_log w'
  ∧ trace w `prefix_of` trace w'.

(** The entries that the log gained between [w] and [w']. *)
Definition new_log (w w' : world) : list logmsg :=
  drop (length (errors_log w)) (errors_log w').

(** The calls of [write_id3_tags]. *)
Definition tag_call (c : call) : bool :=
  match c with
  | Mp3Load _ | Mp3AddTags | Mp3TagsAdd _ | Mp3Save
  | LogError (LogTagError _ _) => true
  | _ => false
  end.

Definition tag_event (tid : nat) (ev : event) : Prop :=
  ev_task ev = tid ∧ tag_call (ev_call ev) = true.

(** A response that breaks off after its first chunk. *)
Definition truncated : response :=
  Response 200 [(lit "Content-Length", lit "3")] [[Byte.x49; Byte.x44]]
           (Some (PyException (lit "Response payload is not completed"))).

(** A server whose connection drops in the middle of every body. *)
Definition connection_drops : env := Env no_fault (λ _ _, truncated).

(** The frame that an event added to the tags in memory. *)
Definition frame_added (ev : event) : option frame :=
  match ev_call ev, ev_raised ev with
  | Mp3TagsAdd f, None => Some f
  | _, _ => None
  end.

Definition frames_added (evs : list event) : list frame := omap frame_added evs.

(** The event is an [audio.save()] that went through. *)
Definition saved (ev : event) : bool :=
  match ev_call ev, ev_raised ev with
  | Mp3Save, None => true
  | _, _ => false
  end.

(** A tag library for which every file has tags already. *)
Definition has_tags : env :=
  Env (λ _ _ c, match c with
                | Mp3AddTags => Some (PyException (lit "an ID3 tag already exists"))
                | _ => None
                end)
      (λ _ _, audio).

(** ** Protocols of the tasks of the pool

    A protocol has a state of its own for each task, which the calls of
    that task move ([next]), and says which calls a task may make in which
    state ([ok]). *)

Section Protocol.

Context {G : Type} (ok : call → G → Prop) (next : call → G → G).

(** On every path of [p], whatever the calls answer, each call is [ok]
    when it is made, and the result and the state at the end satisfy
    [Q]. *)
Fixpoint follows {R} (p : prog R) (g : G) (Q : R → G → Prop) : Prop :=
  match p with
  | Ret r => Q r g
  | Op c k => ok c g ∧ ∀ a, follows (k a) (next c g) Q
  end.

(** The state of task [i] after the events [tr], from [g]: only its own
    calls move it. *)
Definition stance (i : nat) (g : G) (tr : list event) : G :=
  foldl (λ g ev, if bool_decide (ev_task ev = i) then next (ev_call ev) g else g)
        g tr.

(** Every task of the pool is, from where its calls so far have taken it,
    on a path that follows the protocol and ends in a state that satisfies
    [Q]; the state of every task satisfies [Inv]; and the events are those
    of the tasks. *)
Definition on_track (init : G) (Q Inv : G → Prop) (s : system) : Prop :=
  (∀ i t, tasks s !! i = Some t →
          follows (code t) (stance i init (trace (shared s))) (λ _ g, Q g))
  ∧ (∀ i, Inv (stance i init (trace (shared s))))
  ∧ Forall (λ ev, ev_task ev < length (tasks s)) (trace (shared s)).

End Protocol.

(** *** The requests of a task: how many for a track body and how many for
    a cover it has made *)

Definition is_cover_request (c : call) : bool :=
  match c with
  | SessionGet CoverArt _ _ => true
  | _ => false
  end.

Definition first_request (c : call) (g : nat * nat) : Prop :=
  (is_body_get c = true → g.1 = 0) ∧ (is_cover_request c = true → g.2 = 0).

Definition count_request (c : call) (g : nat * nat) : nat * nat :=
  (if is_body_get c then S g.1 else g.1,
   if is_cover_request c then S g.2 else g.2).

(** The requests of task [i] in [tr], for a body and for a cover. *)
Definition requests_of (i : nat) (tr : list event) : nat * nat :=
  stance count_request i (0, 0) tr.

(** The number of calls of task [i] in [tr] that satisfy [P]. *)
Definition calls_of (i : nat) (P : call → bool) (tr : list event) : nat :=
  length (filter (λ ev, ev_task ev = i ∧ P (ev_call ev) = true) tr).

(** *** The permit and the cover lock of a task *)

Record stand := Stand {
  permit : bool;   (* the task is inside [async with semaphore] *)
  lock : bool;     (* the task is inside [async with cover_lock] *)
}.

(** [s.endswith(suffix)] *)
Definition ends_with (suffix s : pystr) : bool :=
  starts_with (rev suffix) (rev s).

Definition is_cover_file (p : pystr) : bool := ends_with (lit "_cover.jpg") p.

(** The calls about covers: the registry, the request for a cover and its
    body, the log entry of [download_cover], and whatever tests, opens,
    writes or closes a cover file. *)
Definition in_section (c : call) : bool :=
  match c with
  | CoversContains _ | SessionGet CoverArt _ _ | ResponseRelease CoverArt
  | ReadAll | LogError (LogCoverError _ _) => true
  | PathExists p | AioOpen p | AioWrite p _ | AioClose p => is_cover_file p
  | _ => false
  end.

(** A task asks for a permit only when it holds neither a permit nor the
    cover lock, gives back what it holds, and makes the calls about covers
    only while it holds the cover lock. *)
Definition may (c : call) (g : stand) : Prop :=
  match c with
  | SemAcquire => permit g = false ∧ lock g = false
  | SemRelease => permit g = true ∧ lock g = false
  | CoverLockAcquire => lock g = false
  | CoverLockRelease => lock g = true
  | _ => in_section c = true → lock g = true
  end.

Definition move (c : call) (g : stand) : stand :=
  match c with
  | SemAcquire => Stand true (lock g)
  | SemRelease => Stand false (lock g)
  | CoverLockAcquire => Stand (permit g) true
  | CoverLockRelease => Stand (permit g) false
  | _ => g
  end.

Definition at_rest : stand := Stand false false.

(** The task that holds the cover lock after the events [tr]. *)
Definition lock_step (holder : option nat) (ev : event) : option nat :=
  match ev_call ev with
  | CoverLockAcquire => Some (ev_task ev)
  | CoverLockRelease => None
  | _ => holder
  end.

Definition lock_holder (tr : list event) : option nat := foldl lock_step None tr.

(** Every call about covers in [tr] was made by the task that held the
    cover lock at that point. *)
Definition exclusive (tr : list event) : Prop :=
  ∀ pre ev post, tr = pre ++ ev :: post → in_section (ev_call ev) = true →
                 lock_holder pre = Some (ev_task ev).

(** The tasks keep to [may], and the semaphore and the cover lock are where
    the events say. *)
Definition orderly (s : system) : Prop :=
  let tr := trace (shared s) in
  on_track may move at_rest (λ g, g = at_rest) (λ _, True) s
  ∧ (∀ i t, tasks s !! i = Some t →
            held (obs t) = if permit (stance move i at_rest tr) then 1 else 0)
  ∧ (∀ i, lock (stance move i at_rest tr) = bool_decide (lock_holder tr = Some i))
  ∧ cover_locked (shared s) = bool_decide (is_Some (lock_holder tr))
  ∧ exclusive tr.

(** Task [i] can make its next call now. *)
Definition can_run (E : env) (i : nat) (s : system) : Prop :=
  ∃ t c k, tasks s !! i = Some t ∧ code t = Op c k
           ∧ is_Some (exec E i c (shared s)).

Definition finished (t : task) : Prop := ∃ r, code t = Ret r.

(** ** Discovery of the singers: [fetch_html] and [get_all_singer_urls]

    The site is a function from the URL of a request to what comes of it
    (no URL is requested twice, see below); what BeautifulSoup finds in a
    page and [urljoin] are parameters, the [reader]. *)

Definition BASE_URL : pystr := lit "https://tarat.ru".
Definition MUSIC_URL : pystr := BASE_URL ++ lit "/music".

(** How a request, or the reading of its body, fails:
    [asyncio.TimeoutError], or another instance of [Exception]. *)
Inductive failure := TimedOut | Broke (e : exn).

(** A response with its status and what [await resp.text()] comes to, or
    no response. *)
Inductive fetched :=
| Answered (status : Z) (text : pystr + failure)
| Unanswered (f : failure).

Inductive htmllog :=
| LogHtmlStatus (status : Z) (url : pystr)   (* line 89 *)
| LogHtmlTimeout (url : pystr)               (* line 92 *)
| LogHtmlError (url : pystr) (e : exn).      (* line 95 *)

Definition log_failure (url : pystr) (f : failure) : htmllog :=
  match f with
  | TimedOut => LogHtmlTimeout url
  | Broke e => LogHtmlError url e
  end.

(** What discovery leaves behind: the requests it sent and the entries it
    logged, oldest first. *)
Record crawl := Crawl {
  requested : list pystr;
  html_log : list htmllog;
}.

Definition log_html (m : htmllog) (st : crawl) : crawl :=
  Crawl (requested st) (html_log st ++ [m]).

(** Lines 83-96. *)
Definition fetch_html (site : pystr → fetched) (url : pystr) (st : crawl)
  : option pystr * crawl :=
  let st := Crawl (requested st ++ [url]) (html_log st) in
  match site url with
  | Answered status text =>
      if (status =? 200)%Z then
        match text with
        | inl html => (Some html, st)
        | inr f => (None, log_html (log_failure url f) st)
        end
      else (None, log_html (LogHtmlStatus status url) st)
  | Unanswered f => (None, log_html (log_failure url f) st)
  end.

Record reader := Reader {
  (* the [href] of each [h4.property-item-title a[href^="/music/"]] *)
  singer_links : pystr → list pystr;
  (* whether there is a [ul.pagination a[rel="next"]] *)
  next_link : pystr → bool;
  urljoin : pystr → pystr → pystr;
}.

(** [str(page)] *)
Definition str_of_nat (n : nat) : pystr :=
  lit (NilZero.string_of_uint (Nat.to_uint n)).

(** Line 173. *)
Definition page_url (page : nat) : pystr :=
  if bool_decide (1 < page) then MUSIC_URL ++ lit "?page=" ++ str_of_nat page
  else MUSIC_URL.

(** Lines 182-183: [href and not href.endswith("/music")]. *)
Definition is_singer_href (href : pystr) : bool :=
  negb (bool_decide (href = [])) && negb (ends_with (lit "/music") href).

(** Lines 181-184. *)
Definition add_links (R : reader) (singer_urls : gset pystr) (links : list pystr)
  : gset pystr :=
  foldl (λ acc href, if is_singer_href href
                     then {[urljoin R BASE_URL href]} ∪ acc else acc)
        singer_urls links.

(** Lines 172-188, the loop; [fuel] bounds the number of pages, [None] when
    it runs out.  The pause between two pages is left out. *)
Fixpoint singer_pages (R : reader) (site : pystr → fetched) (fuel page : nat)
    (singer_urls : gset pystr) (st : crawl) : option (gset pystr * crawl) :=
  match fuel with
  | O => None
  | S fuel' =>
      let '(html, st) := fetch_html site (page_url page) st in
      match html with
      | Some (c :: rest) =>
          match singer_links R (c :: rest) with
          | [] => Some (singer_urls, st)
          | links =>
              let singer_urls := add_links R singer_urls links in
              if next_link R (c :: rest)
              then singer_pages R site fuel' (S page) singer_urls st
              else Some (singer_urls, st)
          end
      | _ => Some (singer_urls, st)
      end
  end.

(** The order of [sorted] on strings: by code points, a proper prefix
    first. *)
Fixpoint str_leb (a b : pystr) : bool :=
  match a, b with
  | [], _ => true
  | _ :: _, [] => false
  | x :: a', y :: b' => (x <? y)%N || ((x =? y)%N && str_leb a' b')
  end.

Definition str_le (a b : pystr) : Prop := str_leb a b = true.

#[global] Instance str_le_dec a b : Decision (str_le a b) :=
  decide (str_leb a b = true).

(** Lines 169-189. *)
Definition get_all_singer_urls (R : reader) (site : pystr → fetched) (fuel : nat)
  : option (list pystr * crawl) :=
  match singer_pages R site fuel 1 ∅ (Crawl [] []) with
  | Some (singer_urls, st) => Some (merge_sort str_le (elements singer_urls), st)
  | None => None
  end.

(** *** Notions for the statements about discovery *)

(** The page [k] of the list of singers, when the site serves it with
    status 200 and it is not empty. *)
Definition page_of (site : pystr → fetched) (k : nat) : option pystr :=
  match site (page_url k) with
  | Answered status (inl (c :: rest)) =>
      if (status =? 200)%Z then Some (c :: rest) else None
  | _ => None
  end.

(** After page [k] the loop goes on to page [k + 1]. *)
Definition continuing (R : reader) (site : pystr → fetched) (k : nat) : Prop :=
  ∃ html, page_of site k = Some html ∧ singer_links R html ≠ []
          ∧ next_link R html = true.

(** [u] is the URL of a singer linked from one of the pages 1 to [n]. *)
Definition found (R : reader) (site : pystr → fetched) (n : nat) (u : pystr)
  : Prop :=
  ∃ k html href, 1 ≤ k ≤ n ∧ page_of site k = Some html
                 ∧ href ∈ singer_links R html ∧ is_singer_href href = true
                 ∧ u = urljoin R BASE_URL href.

(** A site of two pages of singers, and a reader for it. *)
Definition two_pages (url : pystr) : fetched :=
  if bool_decide (url = lit "https://tarat.ru/music")
  then Answered 200 (inl (lit "one"))
  else if bool_decide (url = lit "https://tarat.ru/music?page=2")
  then Answered 200 (inl (lit "two"))
  else Unanswered TimedOut.

Definition plain_reader : reader :=
  Reader (λ html, if bool_decide (html = lit "one")
                  then [lit "/music/b"; lit "/music/a"]
                  else [lit "/music/a"; lit "/music"])
         (λ html, bool_decide (html = lit "one"))
         (λ base href, base ++ href).

(* ================================================================== *)
(** * Part II: properties *)
(* ================================================================== *)

Example sanitize_ex1 :
  sanitize_filename (lit "  AC/DC :  Back   In - Black? ") = lit "ACDC Back In-Black".
Proof. reflexivity. Qed.

Example sanitize_ex2 :
  sanitize_filename (lit "a - - - b") = lit "a---b"
  /\ sanitize_filename (lit "a - - b") = lit "a-- b"
  /\ sanitize_filename ([97; 32; 8211; 32; 45; 32; 98]%N) = [97; 32; 8211; 45; 98]%N.
Proof. repeat split; reflexivity. Qed.

Example path_ex1 :
  expected_filepath (lit "AC/DC") (lit "T.N.T.") = lit "tarat_tracks/ACDC/ACDC - T.N.T..mp3"
  /\ expected_filepath (lit "???") (lit "???") = lit "tarat_tracks/ - .mp3"
  /\ basename (lit "tarat_tracks/ACDC/ACDC - T.N.T..mp3") = lit "ACDC - T.N.T..mp3".
Proof. repeat split; reflexivity. Qed.

(** ** [sanitize_filename] *)

Section Sanitize.

Implicit Types (c d : N) (s w cur : pystr) (ws rest : list pystr).

Lemma is_space_SPACE : is_space SPACE = true.
Proof. reflexivity. Qed.

Lemma word_cons c w :
  is_space c = false → Forall (λ c, is_space c = false) w → word (c :: w).
Proof. intros Hc Hw. split; [done | by constructor]. Qed.

Lemma word_app_hyphen w1 w2 :
  word w1 → word w2 → word (w1 ++ HYPHEN :: w2).
Proof.
  intros [Hn1 H1] [Hn2 H2]. split.
  - destruct w1; [done | discriminate].
  - apply Forall_app. split; [done |]. by constructor.
Qed.

(** *** [split] yields words made of characters of its argument *)

Lemma word_single c : is_space c = false → word [c].
Proof. intros Hc. apply word_cons; [done | constructor]. Qed.

Lemma split_words s : Forall word (split s).
Proof.
  induction s as [|c s IH]; simpl; [constructor |].
  destruct (is_space c) eqn:Hc; [done |].
  destruct s as [|d s']; [by constructor; [apply word_single |] |].
  destruct (is_space d) eqn:Hd.
  - constructor; [by apply word_single | done].
  - destruct (split (d :: s')) as [|w ws] eqn:Hs.
    + by constructor; [apply word_single |].
    + inversion IH as [|? ? [_ Hw] Hws]; subst.
      constructor; [by apply word_cons | done].
Qed.

Lemma split_Forall (P : N → Prop) s :
  Forall P s → Forall (Forall P) (split s).
Proof.
  induction s as [|c s IH]; simpl; intros H; [constructor |].
  inversion H as [|? ? Hc Hs]; subst. specialize (IH Hs).
  assert (Forall P [c]) as H1 by (by constructor).
  destruct (is_space c); [done |].
  destruct s as [|d s']; [by constructor |].
  destruct (is_space d); [by constructor |].
  destruct (split (d :: s')) as [|w ws]; [by constructor |].
  inversion IH; subst. constructor; [by constructor | done].
Qed.

(** *** [join], [split] and [strip] on a list of words *)

Lemma join_cons2 sep w x tl :
  join sep (w :: x :: tl) = w ++ sep ++ join sep (x :: tl).
Proof. reflexivity. Qed.

Lemma join_spaced w rest : join [SPACE] (w :: rest) = w ++ spaced rest.
Proof.
  revert w. induction rest as [|x tl IH]; intros w.
  - simpl. by rewrite app_nil_r.
  - rewrite join_cons2, IH. reflexivity.
Qed.

Lemma spaced_join ws : ws ≠ [] → spaced ws = SPACE :: join [SPACE] ws.
Proof.
  destruct ws as [|w rest]; [done | intros _].
  by rewrite join_spaced.
Qed.

Lemma split_word_then w r :
  word w → (r = [] ∨ ∃ r', r = SPACE :: r') → split (w ++ r) = w :: split r.
Proof.
  intros [Hne Hw] Hr. destruct w as [|c w]; [done | clear Hne].
  revert c Hw. induction w as [|d w IH]; intros c Hw.
  - inversion Hw as [|? ? Hc _]; subst. simpl. rewrite Hc.
    destruct Hr as [-> | [r' ->]]; [done |].
    by rewrite is_space_SPACE.
  - inversion Hw as [|? ? Hc Hw']; subst.
    assert (is_space d = false) as Hd by (by inversion Hw').
    change ((c :: d :: w) ++ r) with (c :: (d :: w) ++ r).
    change (split (c :: (d :: w) ++ r)) with
      (if is_space c then split ((d :: w) ++ r)
       else if is_space d then [c] :: split ((d :: w) ++ r)
       else match split ((d :: w) ++ r) with
            | w0 :: ws => (c :: w0) :: ws
            | [] => [[c]]
            end).
    by rewrite Hc, Hd, (IH d Hw').
Qed.

Lemma split_spaced rest : Forall word rest → split (spaced rest) = rest.
Proof.
  induction 1 as [|x tl Hx _ IH]; [done |].
  change (split (spaced (x :: tl))) with (split (x ++ spaced tl)).
  rewrite split_word_then, IH; [done | done |].
  destruct tl; [by left | right; by eexists].
Qed.

Lemma split_join ws : Forall word ws → split (join [SPACE] ws) = ws.
Proof.
  destruct 1 as [|w rest Hw Hrest]; [done |].
  rewrite join_spaced, split_word_then, split_spaced; [done.. |].
  destruct rest; [by left | right; by eexists].
Qed.

Lemma lstrip_nonspace c s : is_space c = false → lstrip (c :: s) = c :: s.
Proof. intros Hc. simpl. by rewrite Hc. Qed.

Lemma rstrip_snoc s c : is_space c = false → rstrip (s ++ [c]) = s ++ [c].
Proof.
  intros Hc. unfold rstrip. rewrite rev_unit, (lstrip_nonspace _ _ Hc).
  simpl. by rewrite rev_involutive.
Qed.

Lemma word_snoc w : word w → ∃ t c, w = t ++ [c] ∧ is_space c = false.
Proof.
  intros [Hne Hw]. destruct w as [|c t] using rev_ind; [done |].
  exists t, c. split; [done |].
  apply Forall_app in Hw as [_ Hc]. by inversion Hc.
Qed.

Lemma words_snoc w rest :
  word w → Forall word rest →
  ∃ t c, w ++ spaced rest = t ++ [c] ∧ is_space c = false.
Proof.
  intros Hw Hrest. revert w Hw.
  induction Hrest as [|x tl Hx _ IH]; intros w Hw.
  - simpl. rewrite app_nil_r. by apply word_snoc.
  - destruct (IH x Hx) as (t & c & Heq & Hc).
    exists (w ++ SPACE :: t), c. split; [| done].
    simpl. rewrite Heq. by rewrite <- app_assoc.
Qed.

Lemma strip_join ws : Forall word ws → strip (join [SPACE] ws) = join [SPACE] ws.
Proof.
  destruct 1 as [|w rest Hw Hrest]; [done |].
  rewrite join_spaced. unfold strip.
  destruct (words_snoc w rest Hw Hrest) as (t & c & Heq & Hc).
  assert (lstrip (w ++ spaced rest) = w ++ spaced rest) as ->.
  { destruct Hw as [Hne Hall]. destruct w as [|a w]; [done |].
    apply lstrip_nonspace. by inversion Hall. }
  rewrite Heq. by apply rstrip_snoc.
Qed.

(** *** [replace] of a spaced dash on a list of words *)

Lemma starts_with_cons a p b s :
  starts_with (a :: p) (b :: s) = (a =? b)%N && starts_with p s.
Proof. reflexivity. Qed.

Section Dash.

Variable d : N.
Let pat : pystr := [SPACE; d; SPACE].

Lemma starts_with_nonspace c s :
  is_space c = false → starts_with pat (c :: s) = false.
Proof.
  intros Hc. unfold pat. rewrite starts_with_cons.
  destruct (N.eqb_spec SPACE c) as [<- | _]; [| done].
  by rewrite is_space_SPACE in Hc.
Qed.

Lemma replace_word_prefix w r :
  Forall (λ c, is_space c = false) w →
  replace_from pat [HYPHEN] 0 (w ++ r) = w ++ replace_from pat [HYPHEN] 0 r.
Proof.
  induction 1 as [|c w Hc _ IH]; [done |].
  change (replace_from pat [HYPHEN] 0 ((c :: w) ++ r)) with
    (if starts_with pat (c :: w ++ r)
     then [HYPHEN] ++ replace_from pat [HYPHEN] 2 (w ++ r)
     else c :: replace_from pat [HYPHEN] 0 (w ++ r)).
  by rewrite (starts_with_nonspace _ _ Hc), IH.
Qed.

Lemma replace_match r :
  replace_from pat [HYPHEN] 0 (SPACE :: d :: SPACE :: r)
  = HYPHEN :: replace_from pat [HYPHEN] 0 r.
Proof.
  change (replace_from pat [HYPHEN] 0 (SPACE :: d :: SPACE :: r)) with
    (if starts_with pat (SPACE :: d :: SPACE :: r)
     then HYPHEN :: replace_from pat [HYPHEN] 0 r
     else SPACE :: replace_from pat [HYPHEN] 0 (d :: SPACE :: r)).
  unfold pat. by rewrite !starts_with_cons, !N.eqb_refl.
Qed.

Lemma starts_with_other_word x r :
  word x → x ≠ [d] → starts_with pat (SPACE :: x ++ r) = false.
Proof.
  intros [Hne Hx] Hxd. destruct x as [|c x]; [done |].
  unfold pat. change ((c :: x) ++ r) with (c :: x ++ r).
  rewrite !starts_with_cons, N.eqb_refl.
  destruct (N.eqb_spec d c) as [<- | _]; [| done].
  destruct x as [|c' x]; [done |].
  inversion Hx as [|? ? _ Hx']; subst. inversion Hx' as [|? ? Hc' _]; subst.
  change ((c' :: x) ++ r) with (c' :: x ++ r). rewrite starts_with_cons.
  destruct (N.eqb_spec SPACE c') as [<- | _]; [| done].
  by rewrite is_space_SPACE in Hc'.
Qed.

Lemma replace_nomatch x r :
  word x → starts_with pat (SPACE :: x ++ r) = false →
  replace_from pat [HYPHEN] 0 (SPACE :: x ++ r)
  = SPACE :: x ++ replace_from pat [HYPHEN] 0 r.
Proof.
  intros [_ Hx] Hno.
  change (replace_from pat [HYPHEN] 0 (SPACE :: x ++ r)) with
    (if starts_with pat (SPACE :: x ++ r)
     then [HYPHEN] ++ replace_from pat [HYPHEN] 2 (x ++ r)
     else SPACE :: replace_from pat [HYPHEN] 0 (x ++ r)).
  by rewrite Hno, replace_word_prefix.
Qed.

Lemma merge_into_nonempty cur rest : merge_into d cur rest ≠ [].
Proof.
  remember (length rest) as n eqn:Hn. revert cur rest Hn.
  induction n as [n IH] using lt_wf_ind. intros cur rest ->.
  destruct rest as [|x [|y tl]]; simpl; [done | done |].
  case_bool_decide; [| done].
  eapply IH; [| reflexivity]. simpl. lia.
Qed.

Lemma replace_spaced rest cur :
  Forall word rest →
  join [SPACE] (merge_into d cur rest)
  = cur ++ replace_from pat [HYPHEN] 0 (spaced rest).
Proof.
  remember (length rest) as n eqn:Hn. revert cur rest Hn.
  induction n as [n IH] using lt_wf_ind. intros cur rest -> Hrest.
  destruct rest as [|x [|y tl]].
  - simpl. by rewrite app_nil_r.
  - inversion Hrest as [|? ? Hx _]; subst.
    change (merge_into d cur [x]) with [cur; x].
    change (spaced [x]) with (SPACE :: x ++ []).
    rewrite replace_nomatch; [by rewrite join_spaced | done |].
    destruct (decide (x = [d])) as [-> | Hxd].
    + unfold pat. change ([d] ++ []) with [d].
      by rewrite !starts_with_cons, !N.eqb_refl.
    + by apply starts_with_other_word.
  - inversion Hrest as [|? ? Hx Hrest']; subst.
    inversion Hrest' as [|? ? Hy Htl]; subst.
    change (merge_into d cur (x :: y :: tl)) with
      (if bool_decide (x = [d])
       then merge_into d (cur ++ HYPHEN :: y) tl
       else cur :: merge_into d x (y :: tl)).
    case_bool_decide as Hxd.
    + subst x. rewrite (IH (length tl)); [| simpl; lia | done | done].
      change (spaced ([d] :: y :: tl)) with
        (SPACE :: d :: SPACE :: y ++ spaced tl).
      rewrite replace_match, replace_word_prefix by apply Hy.
      by rewrite <- app_assoc.
    + rewrite join_spaced, spaced_join by apply merge_into_nonempty.
      rewrite (IH (length (y :: tl))); [| simpl; lia | done | done].
      change (spaced (x :: y :: tl)) with (SPACE :: x ++ spaced (y :: tl)).
      rewrite replace_nomatch; [done | done |].
      by apply starts_with_other_word.
Qed.

Lemma replace_join ws :
  Forall word ws →
  replace pat [HYPHEN] (join [SPACE] ws) = join [SPACE] (merge d ws).
Proof.
  destruct 1 as [|w rest Hw Hrest]; [done |].
  unfold replace, merge.
  rewrite join_spaced, replace_word_prefix by apply Hw.
  by rewrite replace_spaced.
Qed.

End Dash.

(** *** What [merge_into] keeps and what it leaves *)

Lemma merge_into_Forall (P : pystr → Prop) d cur rest :
  (∀ w1 w2, P w1 → P w2 → P (w1 ++ HYPHEN :: w2)) →
  P cur → Forall P rest → Forall P (merge_into d cur rest).
Proof.
  intros HP. remember (length rest) as n eqn:Hn. revert cur rest Hn.
  induction n as [n IH] using lt_wf_ind. intros cur rest -> Hcur Hrest.
  destruct rest as [|x [|y tl]].
  - by constructor.
  - inversion Hrest; subst. simpl. by repeat constructor.
  - inversion Hrest as [|? ? Hx Hrest']; subst.
    inversion Hrest' as [|? ? Hy Htl]; subst.
    change (merge_into d cur (x :: y :: tl)) with
      (if bool_decide (x = [d])
       then merge_into d (cur ++ HYPHEN :: y) tl
       else cur :: merge_into d x (y :: tl)).
    case_bool_decide.
    + eapply IH; [| reflexivity | by apply HP | done]. simpl. lia.
    + constructor; [done |].
      eapply IH; [| reflexivity | done | done]. simpl. lia.
Qed.

Lemma nomid_tail e x tl : nomid e (x :: tl) → nomid e tl.
Proof. destruct tl as [|y tl]; [done |]. by intros [_ H]. Qed.

Lemma nomid_merge_into d cur rest :
  nomid d rest → merge_into d cur rest = cur :: rest.
Proof.
  revert cur. induction rest as [|x tl IH]; intros cur Hno; [done |].
  destruct tl as [|y tl]; [done |].
  destruct Hno as [Hx Hno].
  change (merge_into d cur (x :: y :: tl)) with
    (if bool_decide (x = [d])
     then merge_into d (cur ++ HYPHEN :: y) tl
     else cur :: merge_into d x (y :: tl)).
  rewrite bool_decide_eq_false_2 by done. by rewrite IH.
Qed.

Lemma merge_into_shape d e cur rest :
  cur ≠ [] → Forall word rest → e = d ∨ nomid e rest →
  ∃ w' rest', merge_into d cur rest = w' :: rest' ∧ nomid e rest'
              ∧ (w' = cur ∨ 2 ≤ length w').
Proof.
  remember (length rest) as n eqn:Hn. revert cur rest Hn.
  induction n as [n IH] using lt_wf_ind. intros cur rest -> Hcur Hrest He.
  destruct rest as [|x [|y tl]].
  - exists cur, []. split_and!; [done | done | by left].
  - exists cur, [x]. split_and!; [done | done | by left].
  - inversion Hrest as [|? ? Hx Hrest']; subst.
    inversion Hrest' as [|? ? Hy Htl]; subst.
    change (merge_into d cur (x :: y :: tl)) with
      (if bool_decide (x = [d])
       then merge_into d (cur ++ HYPHEN :: y) tl
       else cur :: merge_into d x (y :: tl)).
    case_bool_decide as Hxd.
    + destruct (IH (length tl)) with (cur := cur ++ HYPHEN :: y) (rest := tl)
        as (c' & rest' & Heq & Hno & Hc'); [simpl; lia | done | | done | |].
      * by destruct cur.
      * destruct He as [-> | Hno]; [by left | right].
        by eapply nomid_tail, nomid_tail.
      * exists c', rest'. split_and!; [done | done |]. right.
        destruct Hc' as [-> | ?]; [| done].
        destruct cur; [done |]. rewrite length_app. simpl. lia.
    + destruct (IH (length (y :: tl))) with (cur := x) (rest := y :: tl)
        as (c' & rest' & Heq & Hno & Hc'); [simpl; lia | done | | done | |].
      * by destruct Hx.
      * destruct He as [-> | Hno]; [by left | right].
        by eapply nomid_tail.
      * exists cur, (c' :: rest'). rewrite Heq. split_and!; [done | | by left].
        destruct rest' as [|z rest']; [done |]. split; [| done].
        destruct Hc' as [-> | Hlen].
        -- destruct He as [-> | [Hxe _]]; done.
        -- intros ->. simpl in Hlen. lia.
Qed.

(** *** The shape of a sanitized name *)

Lemma lstrip_Forall (P : N → Prop) s : Forall P s → Forall P (lstrip s).
Proof.
  induction 1 as [|c s Hc Hs IH]; simpl; [constructor |].
  destruct (is_space c); [done | by constructor].
Qed.

Lemma strip_Forall (P : N → Prop) s : Forall P s → Forall P (strip s).
Proof.
  intros H. unfold strip, rstrip.
  by apply Forall_rev, lstrip_Forall, Forall_rev, lstrip_Forall.
Qed.

Lemma filter_unreserved s : unreserved (filter (λ c, c ∉ reserved) s).
Proof.
  apply Forall_forall. intros c Hc. by apply list_elem_of_filter in Hc as [? _].
Qed.

Lemma filter_unreserved_id s :
  unreserved s → filter (λ c, c ∉ reserved) s = s.
Proof.
  induction 1 as [|c s Hc _ IH]; [done |].
  by rewrite filter_cons_True, IH.
Qed.

Lemma unreserved_app_hyphen w1 w2 :
  unreserved w1 → unreserved w2 → unreserved (w1 ++ HYPHEN :: w2).
Proof.
  intros H1 H2. apply Forall_app. split; [done |].
  constructor; [compute_done | done].
Qed.

Lemma join_unreserved ws :
  Forall unreserved ws → unreserved (join [SPACE] ws).
Proof.
  destruct 1 as [|w rest Hw Hrest]; [constructor |].
  rewrite join_spaced. apply Forall_app. split; [done |].
  induction Hrest as [|x tl Hx _ IH]; [constructor |].
  simpl. constructor; [compute_done |].
  apply Forall_app. by split.
Qed.

Lemma sanitize_unfold name :
  sanitize_filename name
  = join [SPACE]
      (merge EN_DASH
         (merge HYPHEN
            (split (strip (filter (λ c, c ∉ reserved) name))))).
Proof.
  unfold sanitize_filename.
  change (lit " ") with [SPACE]. change (lit "-") with [HYPHEN].
  change (lit " - ") with [SPACE; HYPHEN; SPACE].
  set (ws := split _).
  assert (Forall word ws) as Hws by apply split_words.
  assert (Forall word (merge HYPHEN ws)) as Hws1.
  { destruct Hws as [|w rest Hw Hrest]; [by apply Forall_nil |].
    apply merge_into_Forall; [apply word_app_hyphen | done..]. }
  rewrite (replace_join HYPHEN ws Hws).
  by rewrite (replace_join EN_DASH _ Hws1).
Qed.

Lemma sanitize_settled name :
  ∃ ws, sanitize_filename name = join [SPACE] ws ∧ settled ws.
Proof.
  rewrite sanitize_unfold.
  set (ws := split _).
  assert (Forall word ws) as Hws by apply split_words.
  assert (Forall unreserved ws) as Hun.
  { apply split_Forall, strip_Forall, filter_unreserved. }
  eexists. split; [reflexivity |].
  destruct ws as [|w rest]; [by repeat split |].
  inversion Hws as [|? ? Hw Hrest]; subst.
  inversion Hun as [|? ? Huw Hurest]; subst.
  unfold merge at 2.
  assert (Forall word (merge_into HYPHEN w rest)) as Hws1.
  { apply merge_into_Forall; [apply word_app_hyphen | done..]. }
  assert (Forall unreserved (merge_into HYPHEN w rest)) as Hun1.
  { apply merge_into_Forall; [apply unreserved_app_hyphen | done..]. }
  destruct (merge_into_shape HYPHEN HYPHEN w rest)
    as (c1 & r1 & Heq1 & Hno1 & _); [by destruct Hw | done | by left |].
  rewrite Heq1 in *. unfold merge.
  inversion Hws1 as [|? ? Hc1 Hr1]; subst.
  inversion Hun1 as [|? ? Huc1 Hur1]; subst.
  destruct (merge_into_shape EN_DASH EN_DASH c1 r1)
    as (c2 & r2 & Heq2 & Hno2 & _); [by destruct Hc1 | done | by left |].
  destruct (merge_into_shape EN_DASH HYPHEN c1 r1)
    as (c2' & r2' & Heq2' & Hno2' & _); [by destruct Hc1 | done | by right |].
  rewrite Heq2 in Heq2'. injection Heq2' as <- <-.
  split_and!.
  - apply merge_into_Forall; [apply word_app_hyphen | done..].
  - apply merge_into_Forall; [apply unreserved_app_hyphen | done..].
  - by rewrite Heq2.
  - by rewrite Heq2.
Qed.

Lemma sanitize_settled_id ws :
  settled ws → sanitize_filename (join [SPACE] ws) = join [SPACE] ws.
Proof.
  intros (Hws & Hun & Hhy & Hen).
  rewrite sanitize_unfold.
  rewrite filter_unreserved_id by by apply join_unreserved.
  rewrite strip_join, split_join by done.
  destruct ws as [|w rest]; [done |]. simpl in Hhy, Hen.
  unfold merge. by rewrite (nomid_merge_into HYPHEN), (nomid_merge_into EN_DASH).
Qed.

Lemma sanitize_unreserved name : unreserved (sanitize_filename name).
Proof.
  destruct (sanitize_settled name) as (ws & -> & Hws).
  apply join_unreserved. by destruct Hws as (_ & ? & _).
Qed.

(** C8.  Sanitizing a sanitized name changes nothing, and a sanitized
    name holds none of the reserved characters (less-than, greater-than,
    colon, double quote, slash, backslash, bar, question mark,
    asterisk). *)
Theorem sanitize_idempotent_unreserved x :
  sanitize_filename (sanitize_filename x) = sanitize_filename x
  ∧ Forall (λ c, c ∉ reserved) (sanitize_filename x).
Proof.
  split; [| apply sanitize_unreserved].
  destruct (sanitize_settled x) as (ws & -> & Hws).
  by apply sanitize_settled_id.
Qed.

(** *** Names that sanitize to the empty string *)

Lemma lstrip_spaces s : Forall (λ c, is_space c = true) s → lstrip s = [].
Proof. induction 1 as [|c s Hc _ IH]; simpl; [done | by rewrite Hc]. Qed.

Lemma sanitize_only_reserved_or_space name :
  Forall (λ c, c ∈ reserved ∨ is_space c = true) name →
  sanitize_filename name = [].
Proof.
  intros H. rewrite sanitize_unfold.
  assert (lstrip (filter (λ c, c ∉ reserved) name) = []) as Hl.
  { apply lstrip_spaces, Forall_forall. intros c Hc.
    apply list_elem_of_filter in Hc as [Hnr Hin].
    rewrite Forall_forall in H. by destruct (H c Hin). }
  unfold strip. by rewrite Hl.
Qed.

(** C10.  A name made only of reserved characters and whitespace
    sanitizes to the empty string; for such an artist name the folder of
    [build_expected_filepath] is the output directory itself (with a
    trailing slash) and the file sits directly in it, its name starting
    with the separator [" - "] that normally follows the artist. *)
Theorem empty_artist_path singer_name title :
  Forall (λ c, c ∈ reserved ∨ is_space c = true) singer_name →
  sanitize_filename singer_name = []
  ∧ artist_folder singer_name = lit "tarat_tracks/"
  ∧ expected_filepath singer_name title
    = lit "tarat_tracks/ - " ++ sanitize_filename title ++ lit ".mp3".
Proof.
  intros H. apply sanitize_only_reserved_or_space in H.
  unfold expected_filepath, artist_folder. rewrite H. by split_and!.
Qed.

Lemma empty_artist_path_witness :
  Forall (λ c, c ∈ reserved ∨ is_space c = true) (lit "?? *")
  ∧ sanitize_filename (lit "?? *") = []
  ∧ expected_filepath (lit "?? *") (lit "???") = lit "tarat_tracks/ - .mp3".
Proof.
  assert (Forall (λ c, c ∈ reserved ∨ is_space c = true) (lit "?? *")) as H.
  { repeat constructor; first [by right | left; compute_done]. }
  destruct (empty_artist_path (lit "?? *") (lit "???") H) as (H1 & _ & H3).
  split_and!; [done | done |]. rewrite H3. reflexivity.
Defined.

End Sanitize.

(** ** More about sanitized names and the paths built from them *)

Section Names.

Implicit Types (c d : N) (s w x : pystr) (ws rest : list pystr).

(** *** Every space of a sanitized name separates two words *)

Lemma nonspace_prefix w s l r :
  Forall (λ c, is_space c = false) w → w ++ s = l ++ SPACE :: r →
  ∃ l', l = w ++ l' ∧ s = l' ++ SPACE :: r.
Proof.
  intros Hw. revert l. induction Hw as [| c w Hc _ IH]; intros l Heq.
  - by exists l.
  - destruct l as [| c' l]; simplify_eq/=.
    destruct (IH l) as (l' & -> & ->); [done |]. by exists l'.
Qed.

Lemma space_in_words w rest l r :
  word w → Forall word rest → w ++ spaced rest = l ++ SPACE :: r →
  ∃ pre x tl, rest = pre ++ x :: tl ∧ l = w ++ spaced pre
              ∧ r = x ++ spaced tl.
Proof.
  intros Hw Hrest. revert w l Hw.
  induction Hrest as [| x tl Hx Htl IH]; intros w l [_ Hw] Heq.
  - destruct (nonspace_prefix _ _ _ _ Hw Heq) as (l' & _ & Hnil).
    by destruct l'.
  - destruct (nonspace_prefix _ _ _ _ Hw Heq) as (l' & -> & Hsp).
    destruct l' as [| c l']; simplify_eq/=.
    + exists [], x, tl. simpl. by rewrite app_nil_r.
    + destruct (IH x l' Hx) as (pre & x' & tl' & -> & -> & ->); [done |].
      by exists (x :: pre), x', tl'.
Qed.

Lemma spaced_app pre rest : spaced (pre ++ rest) = spaced pre ++ spaced rest.
Proof.
  induction pre as [| x pre IH]; [done |].
  simpl. by rewrite IH, <- app_assoc.
Qed.

Lemma nomid_not_inside d pre y tl : ¬ nomid d (pre ++ [d] :: y :: tl).
Proof.
  induction pre as [| x pre IH]; [by intros [? _] |].
  intros H. apply IH. by eapply nomid_tail.
Qed.

Lemma no_spaced_dash d w rest :
  word w → Forall word rest → nomid d rest →
  ¬ occurs_in [SPACE; d; SPACE] (w ++ spaced rest).
Proof.
  intros Hw Hrest Hno (l & r & Heq).
  destruct (space_in_words _ _ _ _ Hw Hrest Heq) as (pre & x & tl & -> & _ & Hx).
  apply Forall_app in Hrest as [_ Hrest].
  inversion Hrest as [| ? ? [Hne Hxs] Htl]; subst.
  destruct x as [| c [| c' x]]; simplify_eq/=.
  - destruct tl as [| y tl]; [done |]. by eapply nomid_not_inside.
  - inversion Hxs as [| ? ? _ Hxs']; subst. inversion Hxs' as [| ? ? Hc' _]; subst.
    by rewrite is_space_SPACE in Hc'.
Qed.

Lemma spaced_only_space rest c :
  Forall word rest → c ∈ spaced rest → is_space c = true → c = SPACE.
Proof.
  intros Hrest Hc Hsp.
  induction Hrest as [| x tl [_ Hx] _ IH]; [by apply elem_of_nil in Hc |].
  simpl in Hc. apply elem_of_cons in Hc as [-> | Hc]; [done |].
  apply elem_of_app in Hc as [Hc | Hc]; [| by apply IH].
  rewrite Forall_forall in Hx. specialize (Hx c Hc). congruence.
Qed.

(** X1.  The shape of a sanitized name: its only whitespace is the plain
    space; it neither starts nor ends with a space and has no two spaces
    in a row; and neither [" - "] nor the en dash between two spaces
    occurs in it any more, also where several dashes followed each other
    in the input. *)
Theorem sanitized_name_shape name :
  let out := sanitize_filename name in
  (∀ c, c ∈ out → is_space c = true → c = SPACE)
  ∧ head out ≠ Some SPACE ∧ last out ≠ Some SPACE
  ∧ ¬ occurs_in [SPACE; SPACE] out
  ∧ ¬ occurs_in [SPACE; HYPHEN; SPACE] out
  ∧ ¬ occurs_in [SPACE; EN_DASH; SPACE] out.
Proof.
  intros out. unfold out.
  destruct (sanitize_settled name) as (ws & -> & Hws & _ & Hhy & Hen).
  destruct ws as [| w rest].
  { split_and!; try done.
    - intros c Hc. by apply elem_of_nil in Hc.
    - intros (l & r & Heq). by destruct l.
    - intros (l & r & Heq). by destruct l.
    - intros (l & r & Heq). by destruct l. }
  simpl in Hhy, Hen. inversion Hws as [| ? ? Hw Hrest]; subst.
  rewrite join_spaced. split_and!.
  - intros c Hc Hsp. apply elem_of_app in Hc as [Hc | Hc].
    + destruct Hw as [_ Hw]. rewrite Forall_forall in Hw.
      specialize (Hw c Hc). congruence.
    + by eapply spaced_only_space.
  - destruct Hw as [Hne Hw]. destruct w as [| c w]; [done |].
    inversion Hw as [| ? ? Hc _]; subst. simpl. intros [= ->]. by rewrite is_space_SPACE in Hc.
  - intros Hlast. apply last_Some in Hlast as (l & Heq).
    destruct (space_in_words w rest l [] Hw Hrest) as (pre & x & tl & -> & _ & Hx);
      [done |].
    apply Forall_app in Hrest as [_ Hrest].
    inversion Hrest as [| ? ? [Hne _] _]; subst. by destruct x.
  - intros (l & r & Heq).
    destruct (space_in_words _ _ _ _ Hw Hrest Heq) as (pre & x & tl & -> & _ & Hx).
    apply Forall_app in Hrest as [_ Hrest].
    inversion Hrest as [| ? ? [Hne Hxs] _]; subst.
    destruct x as [| c x]; simplify_eq/=.
    inversion Hxs as [| ? ? Hc _]; subst. by rewrite is_space_SPACE in Hc.
  - by apply no_spaced_dash.
  - by apply no_spaced_dash.
Qed.

(** *** The shape of the destination path *)

Lemma unreserved_no_slash x : unreserved x → SLASH ∉ x.
Proof.
  intros Hx Hin. eapply Forall_forall in Hx; [| exact Hin].
  apply Hx. compute_done.
Qed.

Lemma track_filename_no_slash s t : SLASH ∉ track_filename s t.
Proof.
  unfold track_filename.
  pose proof (unreserved_no_slash _ (sanitize_unreserved s)) as Hs.
  pose proof (unreserved_no_slash _ (sanitize_unreserved t)) as Ht.
  rewrite !elem_of_app. intros [? | [Hin | [? | Hin]]]; try done.
  - revert Hin. apply (bool_decide_unpack (¬ _)). vm_compute. reflexivity.
  - revert Hin. apply (bool_decide_unpack (¬ _)). vm_compute. reflexivity.
Qed.

Lemma starts_with_slash_elem x : starts_with [SLASH] x = true → SLASH ∈ x.
Proof.
  destruct x as [| c x]; [done |]. rewrite starts_with_cons.
  destruct (N.eqb_spec SLASH c) as [<- | _]; [| done]. intros _. by left.
Qed.

Lemma no_slash_no_start x : SLASH ∉ x → starts_with [SLASH] x = false.
Proof.
  intros Hx. destruct (starts_with [SLASH] x) eqn:H; [| done].
  by apply starts_with_slash_elem in H.
Qed.

Lemma ends_with_slash_app a c x :
  ends_with_slash (a ++ c :: x)
  = ends_with_slash (c :: x).
Proof.
  unfold ends_with_slash. rewrite last_app, last_cons. by destruct (last x).
Qed.

Lemma ends_with_slash_no_slash x :
  x ≠ [] → SLASH ∉ x → ends_with_slash x = false.
Proof.
  intros Hne Hx. unfold ends_with_slash.
  destruct (last x) as [c |] eqn:Hl; [| done].
  destruct (N.eqb_spec c SLASH) as [-> | _]; [| done].
  apply last_Some in Hl as [l' ->]. exfalso. apply Hx.
  apply elem_of_app. right. by left.
Qed.

Lemma artist_folder_form s :
  artist_folder s = OUTPUT_DIR ++ SLASH :: sanitize_filename s.
Proof.
  unfold artist_folder, path_join.
  by rewrite no_slash_no_start
    by apply unreserved_no_slash, sanitize_unreserved.
Qed.

Lemma expected_filepath_form s t :
  expected_filepath s t
  = OUTPUT_DIR ++ SLASH ::
      (if bool_decide (sanitize_filename s = []) then track_filename s t
       else sanitize_filename s ++ SLASH :: track_filename s t).
Proof.
  unfold expected_filepath. fold (track_filename s t).
  rewrite artist_folder_form. unfold path_join.
  rewrite no_slash_no_start by apply track_filename_no_slash.
  pose proof (unreserved_no_slash _ (sanitize_unreserved s)) as Hs.
  rewrite bool_decide_eq_false_2 by by destruct OUTPUT_DIR.
  destruct (sanitize_filename s) as [| c x] eqn:Hx; [done |].
  rewrite (ends_with_slash_app (OUTPUT_DIR ++ [SLASH]) c x
             : ends_with_slash (OUTPUT_DIR ++ SLASH :: c :: x) = _).
  rewrite ends_with_slash_no_slash by done.
  rewrite bool_decide_eq_false_2 by done.
  cbn [orb]. by rewrite <- app_assoc.
Qed.

Lemma first_split c x y x' y' :
  c ∉ x → c ∉ x' → x ++ c :: y = x' ++ c :: y' → x = x' ∧ y = y'.
Proof.
  revert x'. induction x as [| a x IH]; intros [| a' x'] Hx Hx' Heq;
    simplify_eq/=.
  - done.
  - exfalso. apply Hx'. by left.
  - exfalso. apply Hx. by left.
  - destruct (IH x') as [-> ->]; [| | done | done].
    + intros ?. apply Hx. by right.
    + intros ?. apply Hx'. by right.
Qed.

Lemma track_filename_inj_title s t t' :
  track_filename s t = track_filename s t' →
  sanitize_filename t = sanitize_filename t'.
Proof.
  unfold track_filename. intros H.
  apply app_inv_head in H. apply app_inv_head in H.
  by apply app_inv_tail in H.
Qed.

(** X2.  Two tracks get the same destination path exactly when their
    artists sanitize to the same name and their titles sanitize to the same
    name; so tracks whose names differ only in reserved characters,
    whitespace or spaced dashes share one file, and the second one is taken
    for downloaded already. *)
Theorem track_path_collision s t s' t' :
  expected_filepath s t = expected_filepath s' t'
  ↔ sanitize_filename s = sanitize_filename s'
    ∧ sanitize_filename t = sanitize_filename t'.
Proof.
  split.
  - rewrite !expected_filepath_form. intros H.
    apply app_inv_head in H. injection H as H.
    pose proof (unreserved_no_slash _ (sanitize_unreserved s)) as Hs.
    pose proof (unreserved_no_slash _ (sanitize_unreserved s')) as Hs'.
    pose proof (track_filename_no_slash s t) as Hf.
    pose proof (track_filename_no_slash s' t') as Hf'.
    repeat case_bool_decide.
    + assert (sanitize_filename s = sanitize_filename s') as Hss by congruence.
      split; [done |]. unfold track_filename in H. rewrite Hss in H.
      apply app_inv_head in H. apply app_inv_head in H.
      by apply app_inv_tail in H.
    + exfalso. apply Hf. rewrite H. apply elem_of_app. right. by left.
    + exfalso. apply Hf'. rewrite <- H. apply elem_of_app. right. by left.
    + apply first_split in H as [Hss H]; [| done | done].
      split; [done |]. unfold track_filename in H. rewrite Hss in H.
      apply app_inv_head in H. apply app_inv_head in H.
      by apply app_inv_tail in H.
  - intros [Hs Ht]. unfold expected_filepath, artist_folder.
    by rewrite Hs, Ht.
Qed.

Lemma basename_after_slash x b : SLASH ∉ b → basename (x ++ SLASH :: b) = b.
Proof.
  intros Hb. induction x as [| c x IH]; cbn [app basename].
  - by rewrite bool_decide_eq_false_2.
  - rewrite bool_decide_eq_true_2; [done |].
    apply elem_of_app. right. by left.
Qed.

Lemma track_path_parts s t :
  ∃ folder, expected_filepath s t = folder ++ SLASH :: track_filename s t
            ∧ (folder = artist_folder s ∨ artist_folder s = folder ++ [SLASH]).
Proof.
  rewrite expected_filepath_form, artist_folder_form.
  case_bool_decide as Hnil.
  - exists OUTPUT_DIR. split; [done |]. right. by rewrite Hnil.
  - exists (OUTPUT_DIR ++ SLASH :: sanitize_filename s).
    split; [| by left]. by rewrite <- app_assoc.
Qed.

(** X3.  The base name of the destination path, which is what the log
    entry of [write_id3_tags] shows, is the file name
    [<artist> - <title>.mp3] built from the sanitized names, without any
    part of the folder. *)
Theorem track_path_basename s t :
  basename (expected_filepath s t) = track_filename s t.
Proof.
  destruct (track_path_parts s t) as (folder & -> & _).
  apply basename_after_slash, track_filename_no_slash.
Qed.

Lemma cover_path_form n :
  cover_path n
  = OUTPUT_DIR ++ SLASH ::
      (if bool_decide (sanitize_filename n = [])
       then lit "_cover.jpg"
       else sanitize_filename n ++ SLASH :: sanitize_filename n ++ lit "_cover.jpg").
Proof.
  unfold cover_path. fold (artist_folder n). rewrite artist_folder_form.
  pose proof (unreserved_no_slash _ (sanitize_unreserved n)) as Hn.
  assert (SLASH ∉ sanitize_filename n ++ lit "_cover.jpg") as Hc.
  { rewrite elem_of_app. intros [? | Hin]; [done |]. revert Hin. apply (bool_decide_unpack (¬ _)). vm_compute. reflexivity. }
  unfold path_join. rewrite no_slash_no_start by done.
  rewrite bool_decide_eq_false_2 by by destruct OUTPUT_DIR.
  destruct (sanitize_filename n) as [| c x] eqn:Hx; [done |].
  rewrite (ends_with_slash_app (OUTPUT_DIR ++ [SLASH]) c x
             : ends_with_slash (OUTPUT_DIR ++ SLASH :: c :: x) = _).
  rewrite ends_with_slash_no_slash by done.
  rewrite bool_decide_eq_false_2 by done.
  cbn [orb]. by rewrite <- app_assoc.
Qed.

Lemma last_app_ne (x y : pystr) : y ≠ [] → last (x ++ y) = last y.
Proof.
  intros Hy. destruct y as [| c y]; [done |].
  rewrite last_app, last_cons. by destruct (last y).
Qed.

Lemma cover_path_ends n : ∃ x, cover_path n = x ++ lit "_cover.jpg".
Proof.
  rewrite cover_path_form. case_bool_decide.
  - by exists (OUTPUT_DIR ++ [SLASH]).
  - exists (OUTPUT_DIR ++ SLASH :: sanitize_filename n ++ SLASH :: sanitize_filename n).
    by rewrite <- !app_assoc, <- !app_comm_cons, <- !app_assoc.
Qed.

Lemma expected_filepath_ends s t : ∃ x, expected_filepath s t = x ++ lit ".mp3".
Proof.
  destruct (track_path_parts s t) as (folder & -> & _).
  exists (folder ++ SLASH :: sanitize_filename s ++ lit " - " ++ sanitize_filename t).
  unfold track_filename.
  by rewrite <- !app_assoc, <- !app_comm_cons, <- !app_assoc.
Qed.

Lemma cover_path_differs n s t : cover_path n ≠ expected_filepath s t.
Proof.
  destruct (cover_path_ends n) as [x ->].
  destruct (expected_filepath_ends s t) as [y ->].
  intros H. apply (f_equal last) in H.
  by rewrite !last_app_ne in H.
Qed.

(** X4.  The path of a cover is never the destination path of a track,
    whatever the names: saving a cover cannot overwrite a track, and a
    cover on disk is never taken for a downloaded track. *)
Theorem cover_path_not_track_path n s t :
  cover_path n ≠ expected_filepath s t.
Proof. apply cover_path_differs. Qed.

End Names.

(** Two artists whose names differ in a reserved character only. *)
Example same_file_for_two_names :
  expected_filepath (lit "AC/DC") (lit "T.N.T.")
  = expected_filepath (lit "ACDC") (lit " T.N.T. ").
Proof. vm_compute. reflexivity. Qed.

(** ** [safe_get_content_length] and the total of the progress bar *)

Section ContentLength.

Implicit Types (resp : response) (v : pystr) (n : Z).

Example py_int_examples :
  py_int (lit "1024") = Some 1024%Z
  ∧ py_int (lit " +7 ") = Some 7%Z
  ∧ py_int (lit "-5") = Some (-5)%Z
  ∧ py_int (lit "1_000") = Some 1000%Z
  ∧ py_int (lit "12a") = None
  ∧ py_int (lit "") = None
  ∧ py_int (lit "_1") = None
  ∧ py_int (lit "1__0") = None
  ∧ py_int (lit "3.5") = None.
Proof. repeat split; reflexivity. Qed.

Example headers_get_case :
  headers_get [(lit "Server", lit "nginx"); (lit "Content-Length", lit "42")]
              (lit "content-length") = Some (lit "42").
Proof. reflexivity. Qed.

(** C2, as stated, fails.  A header [Content-Length: 0] is present and
    reads as the non-negative integer 0, yet the total given to the
    progress bar is 1; and without the header the total is not left
    unknown: it is 1 again, the same as for [Content-Length: 1]. *)
Lemma content_length_zero_shown_as_one :
  let zero := Response 200 [(lit "Content-Length", lit "0")] [] None in
  let absent := Response 200 [] [] None in
  let one := Response 200 [(lit "Content-Length", lit "1")] [] None in
  headers_get (headers zero) (lit "content-length") = Some (lit "0")
  ∧ py_int (lit "0") = Some 0%Z
  ∧ progress_total zero = 1%Z
  ∧ progress_total zero ≠ 0%Z
  ∧ headers_get (headers absent) (lit "content-length") = None
  ∧ progress_total absent = progress_total one.
Proof. repeat split; done. Qed.

(** C2, amended.  A Content-Length that is present and reads as a
    positive integer is the total of the progress bar; when the header is
    absent, does not parse, or reads as 0, [safe_get_content_length]
    returns 0 and the total is set to 1. *)
Theorem content_length_total resp :
  (∀ v n,
      headers_get (headers resp) (lit "content-length") = Some v →
      py_int v = Some n → (0 < n)%Z →
      safe_get_content_length resp = n ∧ progress_total resp = n)
  ∧ ((headers_get (headers resp) (lit "content-length") = None
      ∨ ∃ v, headers_get (headers resp) (lit "content-length") = Some v
             ∧ (py_int v = None ∨ py_int v = Some 0%Z)) →
     safe_get_content_length resp = 0%Z ∧ progress_total resp = 1%Z).
Proof.
  unfold progress_total, safe_get_content_length, py_or. split.
  - intros v n -> -> Hn. split; [done |].
    destruct (Z.eqb_spec n 0); [lia | done].
  - intros [-> | (v & -> & [-> | ->])]; done.
Qed.

Lemma content_length_total_witness :
  let full := Response 200 [(lit "content-length", lit "8192")] [] None in
  let bad := Response 200 [(lit "Content-Length", lit "12a")] [] None in
  (safe_get_content_length full = 8192%Z ∧ progress_total full = 8192%Z)
  ∧ (safe_get_content_length bad = 0%Z ∧ progress_total bad = 1%Z).
Proof.
  split.
  - apply (proj1 (content_length_total _) (lit "8192") 8192%Z);
      [reflexivity | reflexivity | lia].
  - apply (proj2 (content_length_total _)).
    right. exists (lit "12a"). split; [reflexivity | left; reflexivity].
Defined.

End ContentLength.

(** ** One worker on its own *)

Section Worker.

Context (E : env) (tid : nat).
Implicit Types (w : world) (c : call) (p : pystr).

(** *** Rules for [runs] *)

Lemma runs_ret {R} (r : R) w (Q : R → world → Prop) :
  Q r w → runs E tid (Ret r) w Q.
Proof. intros HQ. by exists r, w. Qed.

Lemma runs_bind {A B} (m : prog A) (f : A → prog B) w Q :
  runs E tid m w (λ a w', runs E tid (f a) w' Q) → runs E tid (m ≫= f) w Q.
Proof.
  unfold mbind, prog_bind. revert w.
  induction m as [a | c k IH]; intros w (r & w' & Hrun & Hf).
  - simpl in Hrun. by injection Hrun as <- <-.
  - unfold runs in *. simpl in *.
    destruct (exec E tid c w) as [[a w1] |]; [| done].
    apply IH. by exists r, w'.
Qed.

Lemma runs_mono {R} (m : prog R) w (Q Q' : R → world → Prop) :
  runs E tid m w Q → (∀ r w', Q r w' → Q' r w') → runs E tid m w Q'.
Proof. intros (r & w' & ? & ?) HQ. exists r, w'. eauto. Qed.

Lemma runs_and_then {A B} (m : prog (result A)) (f : A → prog (result B)) w Q :
  runs E tid m w (λ r w', match r with
                          | Ok a => runs E tid (f a) w' Q
                          | Raise e => Q (Raise e) w'
                          end) →
  runs E tid (and_then m f) w Q.
Proof.
  intros H. apply runs_bind. eapply runs_mono; [exact H |].
  intros [a | e] w' HQ; [done | by apply runs_ret].
Qed.

Lemma runs_try_except {A} (body : prog (result A)) handler w Q :
  runs E tid body w (λ r w', match r with
                             | Ok a => Q (Ok a) w'
                             | Raise e => runs E tid (handler e) w' Q
                             end) →
  runs E tid (try_except body handler) w Q.
Proof.
  intros H. apply runs_bind. eapply runs_mono; [exact H |].
  intros [a | e] w' HQ; [by apply runs_ret | done].
Qed.

Lemma runs_call c w a w' (Q : answer c → world → Prop) :
  exec E tid c w = Some (a, w') → Q a w' → runs E tid (call_ c) w Q.
Proof. intros Hex HQ. exists a, w'. simpl. by rewrite Hex. Qed.

(** A call that cannot fail and never waits. *)
Lemma runs_plain c w (a : answer c) w' (Q : answer c → world → Prop) :
  react E tid c w = Some (a, w') →
  Q a (note (Event tid c (raised_of c a)) w') →
  runs E tid (call_ c) w Q.
Proof.
  intros Hre HQ. eapply runs_call; [| exact HQ].
  unfold exec. by rewrite Hre.
Qed.

(** The calls that the environment may make fail. *)
Ltac fallible_call H1 H2 :=
  unfold runs, call_; cbn [run]; unfold exec; cbn [react]; unfold fallible;
  destruct (fault E _ tid _) as [e |] eqn:Hf;
  eexists _, _; (split; [reflexivity |]); [by apply H1 | by apply H2].

Lemma runs_aio_write p data w (Q : result unit → world → Prop) :
  (∀ e, fault E (trace w) tid (AioWrite p data) = Some e →
        Q (Raise e) (note (Event tid (AioWrite p data) (Some e)) w)) →
  (fault E (trace w) tid (AioWrite p data) = None →
   Q (Ok tt) (note (Event tid (AioWrite p data) None) w)) →
  runs E tid (call_ (AioWrite p data)) w Q.
Proof. intros H1 H2. fallible_call H1 H2. Qed.

Lemma runs_aio_open p w (Q : result unit → world → Prop) :
  (∀ e, fault E (trace w) tid (AioOpen p) = Some e →
        Q (Raise e) (note (Event tid (AioOpen p) (Some e)) w)) →
  (fault E (trace w) tid (AioOpen p) = None →
   Q (Ok tt) (note (Event tid (AioOpen p) None)
                (set_open_files (p :: open_files w)
                   (set_files ({[p]} ∪ files w) w)))) →
  runs E tid (call_ (AioOpen p)) w Q.
Proof. intros H1 H2. fallible_call H1 H2. Qed.

Lemma runs_mp3_load p w (Q : result unit → world → Prop) :
  (∀ e, fault E (trace w) tid (Mp3Load p) = Some e →
        Q (Raise e) (note (Event tid (Mp3Load p) (Some e)) w)) →
  (fault E (trace w) tid (Mp3Load p) = None →
   Q (Ok tt) (note (Event tid (Mp3Load p) None) w)) →
  runs E tid (call_ (Mp3Load p)) w Q.
Proof. intros H1 H2. fallible_call H1 H2. Qed.

Lemma runs_mp3_add_tags w (Q : result unit → world → Prop) :
  (∀ e, fault E (trace w) tid Mp3AddTags = Some e →
        Q (Raise e) (note (Event tid Mp3AddTags (Some e)) w)) →
  (fault E (trace w) tid Mp3AddTags = None →
   Q (Ok tt) (note (Event tid Mp3AddTags None) w)) →
  runs E tid (call_ Mp3AddTags) w Q.
Proof. intros H1 H2. fallible_call H1 H2. Qed.

Lemma runs_mp3_tags_add f w (Q : result unit → world → Prop) :
  (∀ e, fault E (trace w) tid (Mp3TagsAdd f) = Some e →
        Q (Raise e) (note (Event tid (Mp3TagsAdd f) (Some e)) w)) →
  (fault E (trace w) tid (Mp3TagsAdd f) = None →
   Q (Ok tt) (note (Event tid (Mp3TagsAdd f) None) w)) →
  runs E tid (call_ (Mp3TagsAdd f)) w Q.
Proof. intros H1 H2. fallible_call H1 H2. Qed.

Lemma runs_mp3_save w (Q : result unit → world → Prop) :
  (∀ e, fault E (trace w) tid Mp3Save = Some e →
        Q (Raise e) (note (Event tid Mp3Save (Some e)) w)) →
  (fault E (trace w) tid Mp3Save = None →
   Q (Ok tt) (note (Event tid Mp3Save None) w)) →
  runs E tid (call_ Mp3Save) w Q.
Proof. intros H1 H2. fallible_call H1 H2. Qed.

Lemma runs_session_get what url timeout w (Q : result response → world → Prop) :
  (∀ e, fault E (trace w) tid (SessionGet what url timeout) = Some e →
        Q (Raise e) (note (Event tid (SessionGet what url timeout) (Some e)) w)) →
  (fault E (trace w) tid (SessionGet what url timeout) = None →
   Q (Ok (respond E (trace w) url))
     (note (Event tid (SessionGet what url timeout) None) w)) →
  runs E tid (call_ (SessionGet what url timeout)) w Q.
Proof. intros H1 H2. fallible_call H1 H2. Qed.

Lemma runs_makedirs p w (Q : result unit → world → Prop) :
  (∀ e, p ∉ dirs w → fault E (trace w) tid (Makedirs p) = Some e →
        Q (Raise e) (note (Event tid (Makedirs p) (Some e)) w)) →
  (p ∈ dirs w → Q (Ok tt) (note (Event tid (Makedirs p) None) w)) →
  (p ∉ dirs w → fault E (trace w) tid (Makedirs p) = None →
   Q (Ok tt) (note (Event tid (Makedirs p) None) (set_dirs ({[p]} ∪ dirs w) w))) →
  runs E tid (call_ (Makedirs p)) w Q.
Proof.
  intros H1 H2 H3.
  unfold runs, call_. cbn [run]. unfold exec. cbn [react]. unfold fallible.
  case_bool_decide as Hp.
  - eexists _, _. split; [reflexivity | by apply H2].
  - destruct (fault E _ tid _) as [e |] eqn:Hf;
      eexists _, _; (split; [reflexivity |]); [by apply H1 | by apply H3].
Qed.


Lemma runs_sem_acquire w n (Q : unit → world → Prop) :
  permits w = S n →
  Q tt (note (Event tid SemAcquire None) (set_permits n w)) →
  runs E tid (call_ SemAcquire) w Q.
Proof.
  intros Hp HQ. eapply runs_plain; [| exact HQ]. cbn [react]. by rewrite Hp.
Qed.

Lemma runs_cover_lock_acquire w (Q : unit → world → Prop) :
  cover_locked w = false →
  Q tt (note (Event tid CoverLockAcquire None) (set_cover_locked true w)) →
  runs E tid (call_ CoverLockAcquire) w Q.
Proof.
  intros Hl HQ. eapply runs_plain; [| exact HQ]. cbn [react]. by rewrite Hl.
Qed.

(** *** Symbolic execution *)

Ltac world_simpl :=
  cbn [note set_trace set_files set_dirs set_permits set_cover_locked
       set_open_files set_errors_log files dirs permits cover_locked
       downloaded_covers open_files errors_log trace remove_first] in *.

Ltac step0 :=
  lazymatch goal with
  | |- runs _ _ (Ret _) _ _ => apply runs_ret
  | |- runs _ _ (and_then _ _) _ _ => apply runs_and_then
  | |- runs _ _ (try_except _ _) _ _ => apply runs_try_except
  | |- runs _ _ (_ ≫= _) _ _ => apply runs_bind
  | |- runs _ _ (call_ ?c) ?w _ => eapply (runs_plain c w); [reflexivity |]
  | |- runs _ _ (with_response _ _ _ _) _ _ => unfold with_response
  | |- runs _ _ (with_file _ _) _ _ => unfold with_file
  | |- runs _ _ (with_semaphore _) _ _ => unfold with_semaphore
  | |- runs _ _ (with_cover_lock _) _ _ => unfold with_cover_lock
  | |- runs _ _ (read_all _) _ _ => unfold read_all
  end; cbn beta iota.

Ltac fallible :=
  lazymatch goal with
  | |- runs _ _ (call_ (Makedirs _)) _ _ => apply runs_makedirs; intros
  | |- runs _ _ (call_ (AioOpen _)) _ _ => apply runs_aio_open; intros
  | |- runs _ _ (call_ (AioWrite _ _)) _ _ => apply runs_aio_write; intros
  | |- runs _ _ (call_ (SessionGet _ _ _)) _ _ =>
      apply runs_session_get; intros
  | |- runs _ _ (call_ (Mp3Load _)) _ _ => apply runs_mp3_load; intros
  | |- runs _ _ (call_ Mp3AddTags) _ _ => apply runs_mp3_add_tags; intros
  | |- runs _ _ (call_ (Mp3TagsAdd _)) _ _ => apply runs_mp3_tags_add; intros
  | |- runs _ _ (call_ Mp3Save) _ _ => apply runs_mp3_save; intros
  end; cbn beta iota.

(** Straight-line execution up to the next call that may fail or wait. *)
Ltac go := repeat step0.

Ltac branch :=
  lazymatch goal with
  | |- runs _ _ (if ?b then _ else _) _ _ => destruct b eqn:?
  | |- runs _ _ (match ?x with _ => _ end) _ _ => destruct x eqn:?
  | |- match ?x with _ => _ end => destruct x eqn:?
  end; cbn beta iota.

Ltac steps := repeat first [step0 | fallible | branch].

Lemma same_state_refl w : same_state w w.
Proof. by repeat split. Qed.

Lemma calls_since_refl P w : calls_since P w w.
Proof. exists []. split; [by rewrite app_nil_r | constructor]. Qed.

Lemma calls_since_trans P w1 w2 w3 :
  calls_since P w1 w2 → calls_since P w2 w3 → calls_since P w1 w3.
Proof.
  intros (evs1 & H1 & HP1) (evs2 & H2 & HP2). exists (evs1 ++ evs2).
  split; [by rewrite H2, H1, app_assoc | by apply Forall_app].
Qed.

Lemma calls_since_mono (P P' : event → Prop) w w' :
  (∀ ev, P ev → P' ev) → calls_since P w w' → calls_since P' w w'.
Proof.
  intros HP (evs & H & Hall). exists evs. split; [done |].
  eapply Forall_impl; eauto.
Qed.

Lemma same_state_trans w1 w2 w3 :
  same_state w1 w2 → same_state w2 w3 → same_state w1 w3.
Proof.
  intros (? & ? & ? & ?) (? & ? & ? & ?). repeat split; congruence.
Qed.

Ltac since_now :=
  unfold calls_since; world_simpl;
  eexists; split; [rewrite <- ?app_assoc; reflexivity |];
  cbn [app]; repeat (apply Forall_cons_2; [by repeat split |]);
  apply Forall_nil_2.

Ltac state_now :=
  unfold same_state; world_simpl;
  rewrite ?bool_decide_eq_true_2 by done; by repeat split.

(** *** The cover *)


Lemma download_cover_runs s url w :
  runs E tid (download_cover s url) w
    (λ r w', r = Ok tt ∧ same_state w w' ∧ calls_since (cover_event tid) w w').
Proof.
  destruct url as [[| u rl] |];
    [apply runs_ret; by eauto using same_state_refl, calls_since_refl | |
     apply runs_ret; by eauto using same_state_refl, calls_since_refl].
  unfold download_cover. steps.
  all: split; [done | split; [state_now | since_now]].
Qed.

Lemma cover_step_runs tr w :
  cover_locked w = false →
  runs E tid (cover_step tr) w
    (λ r w', r = Ok tt ∧ same_state w w' ∧ calls_since (cover_event tid) w w').
Proof.
  intros Hl. unfold cover_step. go.
  apply runs_cover_lock_acquire; [done |]. go.
  destruct (negb _ && truthy _).
  - eapply runs_mono; [apply download_cover_runs |].
    intros r w' (-> & Hs & Hc). steps.
    split; [done |]. destruct Hs as (? & ? & ? & ?). split.
    + unfold same_state in *. world_simpl. repeat split; congruence.
    + eapply calls_since_trans; [| eapply calls_since_trans; [exact Hc |]];
        since_now.
  - steps. split; [done | split; [| since_now]].
    unfold same_state. world_simpl. by repeat split.
Qed.

(** *** The tags *)

Lemma write_id3_tags_runs filepath artist title source_url w :
  runs E tid (write_id3_tags filepath artist title source_url) w
    (λ r w', r = Ok tt ∧ same_state w w'
       ∧ ∃ evs l, trace w' = trace w ++ evs
                  ∧ errors_log w' = errors_log w ++ l
                  ∧ Forall (λ ev, ev_task ev = tid) evs
                  ∧ Forall (tag_logged filepath l) evs
                  ∧ Forall (tag_framed (id3_frames artist title source_url)) evs).
Proof.
  unfold write_id3_tags. steps.
  all: split; [done | split; [state_now |]].
  all: world_simpl; eexists _, _.
  all: split; [rewrite <- ?app_assoc; reflexivity |].
  all: split; [first [reflexivity | symmetry; apply app_nil_r] |].
  all: cbn [app]; split_and!.
  all: repeat (apply Forall_cons_2;
               [first [ done
                      | intros e' Htag Hraised; cbn in Htag, Hraised;
                        try discriminate; injection Hraised as <-;
                        by apply list_elem_of_singleton
                      | intros f' Hcall; cbn in Hcall; try discriminate;
                        injection Hcall as <-; unfold id3_frames;
                        repeat first [ by apply list_elem_of_here
                                     | apply list_elem_of_further ] ] |]).
  all: apply Forall_nil_2.
Qed.

(** *** The body *)


Lemma cover_event_quiet ev : cover_event tid ev → quiet_event tid ev.
Proof.
  intros [Ht Hc]. split; [done |].
  destruct ev as [? [] ?]; try done.
Qed.

Lemma stream_chunks_runs filepath slot chunks w :
  (∀ h data, fault E h tid (AioWrite filepath data) = None) →
  runs E tid (stream_chunks filepath slot chunks None) w
    (λ r w', r = Ok tt ∧ same_state w w' ∧ errors_log w' = errors_log w
             ∧ calls_since (quiet_event tid) w w').
Proof.
  intros Hwrite. revert w.
  induction chunks as [| chunk rest IH]; intros w; cbn [stream_chunks].
  - steps. split; [done | split; [state_now | split; [done | since_now]]].
  - go. fallible; [by rewrite Hwrite in * |]. go.
    eapply runs_mono; [apply IH |].
    intros r w' (-> & Hs & Hlog & Hc). split; [done |]. split_and!.
    + eapply same_state_trans; [| exact Hs]. state_now.
    + by rewrite Hlog.
    + eapply calls_since_trans; [| exact Hc]. since_now.
Qed.

(** *** The destination path is not the folder *)

Lemma expected_filepath_not_folder s t :
  expected_filepath s t ≠ artist_folder s.
Proof.
  unfold expected_filepath. set (F := artist_folder s).
  set (fn := sanitize_filename s ++ lit " - " ++ sanitize_filename t ++ lit ".mp3").
  assert (starts_with [SLASH] fn = false) as Hsl.
  { unfold fn. pose proof (sanitize_unreserved s) as Hun.
    destruct (sanitize_filename s) as [| c rest]; [done |].
    inversion Hun as [| ? ? Hc _]; subst.
    change ((c :: rest) ++ ?x) with (c :: rest ++ x).
    rewrite starts_with_cons. destruct (N.eqb_spec SLASH c) as [<- | _]; [| done].
    exfalso. apply Hc. compute_done. }
  assert (fn ≠ []) as Hne by (unfold fn; by destruct (sanitize_filename s)).
  unfold path_join. rewrite Hsl.
  destruct (_ || _); intros Heq.
  - apply Hne. apply (app_inv_head F). by rewrite app_nil_r.
  - assert ([SLASH] ++ fn = []) as Hnil; [| done].
    apply (app_inv_head F). by rewrite app_nil_r.
Qed.

(** *** The three outcomes of [download_track] *)


Lemma cover_event_no_body ev : cover_event tid ev → no_body_request tid ev.
Proof.
  intros [Ht Hc]. split; [done |].
  destruct ev as [? [] ?]; try done. by destruct what.
Qed.

(** C3.  When the destination file of a track is on disk (and so is its
    folder) and the cover lock is free, [download_track] returns [True];
    none of its calls is a request for the track body and it takes no
    permit.  What it does is the cover step. *)
Theorem existing_track_skipped tr slot w :
  expected_filepath (singer_name tr) (title tr) ∈ files w →
  artist_folder (singer_name tr) ∈ dirs w →
  cover_locked w = false →
  runs E tid (download_track tr slot) w
    (λ r w', r = Ok true ∧ same_state w w'
             ∧ calls_since (no_body_request tid) w w').
Proof.
  intros Hfile Hdir Hlock. unfold download_track, build_expected_filepath.
  go. fallible; [done | | done]. go.
  rewrite bool_decide_eq_true_2 by by left.
  go. eapply runs_mono; [apply cover_step_runs; by world_simpl |].
  intros r w' (-> & Hs & Hc). go. split; [done |]. split.
  - eapply same_state_trans; [| exact Hs]. state_now.
  - eapply calls_since_trans;
      [| eapply calls_since_mono; [apply cover_event_no_body | exact Hc]].
    since_now.
Qed.

Lemma absent_after_makedirs fp folder w :
  fp ∉ files w → fp ∉ dirs w → fp ≠ folder →
  bool_decide (fp ∈ files w ∨ fp ∈ {[folder]} ∪ dirs w) = false
  ∧ bool_decide (fp ∈ files w ∨ fp ∈ dirs w) = false.
Proof.
  intros Hf Hd Hne. split; apply bool_decide_eq_false_2.
  - intros [? | [?%elem_of_singleton | ?]%elem_of_union]; done.
  - intros [? | ?]; done.
Qed.

(** C6.  When the destination file is not on disk, its folder can be made,
    a permit is free and the request for the track body is answered with a
    status other than 200, [download_track] returns [False]; it adds
    exactly one entry to the error log (the status and the track), the
    permit it took is given back, the open files are those of before, and
    its calls are the nine listed, none of which opens a file. *)
Theorem non200_returns_false tr slot w :
  let filepath := expected_filepath (singer_name tr) (title tr) in
  let track_str := singer_name tr ++ lit " - " ++ title tr in
  filepath ∉ files w → filepath ∉ dirs w →
  0 < permits w →
  (∀ h, fault E h tid (Makedirs (artist_folder (singer_name tr))) = None) →
  (∀ h, fault E h tid (SessionGet TrackBody (mp3_url tr) 45) = None) →
  (∀ h, status (respond E h (mp3_url tr)) ≠ 200%Z) →
  runs E tid (download_track tr slot) w
    (λ r w', r = Ok false
       ∧ ∃ st, st ≠ 200%Z
         ∧ errors_log w' = errors_log w ++ [LogHttpStatus st track_str]
         ∧ permits w' = permits w
         ∧ open_files w' = open_files w
         ∧ ev_call <$> new_events w w'
           = [Makedirs (artist_folder (singer_name tr));
              PathExists filepath;
              SemAcquire;
              PbarSetDescription slot (take 50 track_str);
              PbarReset slot;
              SessionGet TrackBody (mp3_url tr) 45;
              LogError (LogHttpStatus st track_str);
              ResponseRelease TrackBody;
              SemRelease]
         ∧ Forall (λ ev, is_open (ev_call ev) = false) (new_events w w')).
Proof.
  intros filepath track_str Hfile Hdir Hperm Hmk Hget Hstatus.
  subst filepath track_str.
  destruct (permits w) as [| n] eqn:Hn; [lia |].
  pose proof (expected_filepath_not_folder (singer_name tr) (title tr)) as Hne.
  destruct (absent_after_makedirs _ _ w Hfile Hdir Hne) as [Habs1 Habs2].
  unfold download_track, build_expected_filepath.
  go. fallible; [by rewrite Hmk in * | |].
  all: go; world_simpl; rewrite ?Habs1, ?Habs2; cbn beta iota; go.
  all: (apply runs_sem_acquire with (n := n); [by world_simpl |]).
  all: go; unfold fetch_body; go; fallible; [by rewrite Hget in * |]; go.
  all: match goal with
       | |- context [respond ?E' ?h ?u] =>
           specialize (Hstatus h); set (resp := respond E' h u) in *
       end.
  all: destruct (Z.eqb_spec (status resp) 200) as [| _]; [done |].
  all: cbn [negb]; steps.
  all: split; [done |]; exists (status resp); split; [done |].
  all: world_simpl; split_and!; try done.
  all: unfold new_events; world_simpl; rewrite <- !app_assoc, drop_app_length.
  all: first [done | repeat (apply Forall_cons_2; [done |]); apply Forall_nil_2].
Qed.

Lemma calls_since_new_events P w w' ev :
  calls_since P w w' → ev ∈ new_events w w' → P ev.
Proof.
  intros (evs & Htr & Hall) Hin. unfold new_events in Hin.
  rewrite Htr, drop_app_length in Hin.
  by eapply Forall_forall in Hall.
Qed.


Lemma quiet_event_tag_ok filepath L frames ev :
  quiet_event tid ev → tag_logged filepath L ev ∧ tag_framed frames ev.
Proof.
  intros [_ Hq]. split.
  - intros e Ht. congruence.
  - intros f Hf. rewrite Hf in Hq. discriminate.
Qed.

(** C7.  When the body of a track was downloaded and saved (the destination
    was not on disk, its folder could be made, a permit and the cover lock
    were free, the status was 200, and opening the file, reading the body
    and writing it raised nothing), [download_track] returns [True]
    whatever happens while the tags are written; every exception raised by
    loading the file, adding a frame or saving is in the error log, as an
    entry of [write_id3_tags] for that file; and the frames added are the
    artist, the title, the album (the artist) and the comment with the
    source URL. *)
Theorem tag_failure_keeps_success tr slot w :
  let filepath := expected_filepath (singer_name tr) (title tr) in
  filepath ∉ files w → filepath ∉ dirs w →
  0 < permits w → cover_locked w = false →
  (∀ h, fault E h tid (Makedirs (artist_folder (singer_name tr))) = None) →
  (∀ h, fault E h tid (SessionGet TrackBody (mp3_url tr) 45) = None) →
  (∀ h, status (respond E h (mp3_url tr)) = 200%Z) →
  (∀ h, body_error (respond E h (mp3_url tr)) = None) →
  (∀ h, fault E h tid (AioOpen filepath) = None) →
  (∀ h data, fault E h tid (AioWrite filepath data) = None) →
  runs E tid (download_track tr slot) w
    (λ r w', r = Ok true
       ∧ ∀ ev, ev ∈ new_events w w' →
           tag_logged filepath (errors_log w') ev
           ∧ tag_framed (id3_frames (singer_name tr) (title tr) (mp3_url tr)) ev).
Proof.
  intros filepath Hfile Hdir Hperm Hlock Hmk Hget Hstatus Hbody Hopen Hwrite.
  subst filepath.
  destruct (permits w) as [| n] eqn:Hn; [lia |].
  pose proof (expected_filepath_not_folder (singer_name tr) (title tr)) as Hne.
  destruct (absent_after_makedirs _ _ w Hfile Hdir Hne) as [Habs1 Habs2].
  unfold download_track, build_expected_filepath.
  go. fallible; [by rewrite Hmk in * | |].
  all: go; world_simpl; rewrite ?Habs1, ?Habs2; cbn beta iota; go.
  all: (apply runs_sem_acquire with (n := n); [by world_simpl |]).
  all: go; unfold fetch_body; go; fallible; [by rewrite Hget in * |]; go.
  all: rewrite Hstatus, Hbody; cbn [Z.eqb Pos.eqb negb]; go.
  all: fallible; [by rewrite Hopen in * |]; go.
  all: (eapply runs_mono; [by apply stream_chunks_runs |]).
  all: intros r w1 (-> & Hs1 & _ & Hc1); go.
  all: (eapply runs_mono; [apply cover_step_runs |]);
    [destruct Hs1 as (_ & Hl1 & _); world_simpl; by rewrite Hl1 |].
  all: intros r w2 (-> & Hs2 & Hc2); go.
  all: (eapply runs_mono; [apply write_id3_tags_runs |]).
  all: intros r w3 (-> & Hs3 & evs & l & Htr & Hlog & _ & Hl & Hf); go.
  all: split; [done |]; intros ev Hin; world_simpl.
  all: eapply (calls_since_new_events
                 (λ ev, tag_logged _ (errors_log w3) ev ∧ tag_framed _ ev));
    [| exact Hin].
  all: eapply calls_since_trans;
    [eapply calls_since_mono; [apply quiet_event_tag_ok |] |].
  all: try (eapply calls_since_trans;
            [| eapply calls_since_trans;
               [exact Hc1
               | eapply calls_since_trans;
                 [| eapply calls_since_mono; [apply cover_event_quiet | exact Hc2]]]];
            since_now).
  all: eapply calls_since_trans;
    [| eapply calls_since_mono; [apply quiet_event_tag_ok |]; since_now].
  all: exists evs; split; [done |]; apply Forall_forall.
  all: intros ev' Hev'; split;
    [| by eapply Forall_forall in Hf].
  all: intros e' Ht He'; rewrite Hlog; apply elem_of_app; right.
  all: eapply Forall_forall in Hl; [by apply Hl | done].
Qed.

(** *** What the worker does whatever fails *)

Lemma extends_refl w : extends w w.
Proof. by repeat split. Qed.

Lemma extends_trans w1 w2 w3 : extends w1 w2 → extends w2 w3 → extends w1 w3.
Proof.
  intros (? & ? & ? & ?) (? & ? & ? & ?).
  repeat split; by etrans.
Qed.

(** [calls_since] for a run of calls that is known, each event by [tac]. *)
Ltac since_with tac :=
  unfold calls_since; world_simpl;
  eexists; split; [rewrite <- ?app_assoc; reflexivity |];
  cbn [app]; repeat (apply Forall_cons_2; [tac |]);
  apply Forall_nil_2.

Ltac cover_ev :=
  split; [done | split; [done |]];
  let p := fresh in intros p [= <-]; reflexivity.

Lemma download_cover_any s url w :
  runs E tid (download_cover s url) w
    (λ r w', r = Ok tt ∧ same_state w w'
       ∧ files w ⊆ files w' ∧ dirs w ⊆ dirs w'
       ∧ calls_since (cover_event_of tid s) w w'
       ∧ (errors_log w' = errors_log w
          ∨ ∃ e, errors_log w' = errors_log w ++ [LogCoverError s e])).
Proof.
  destruct url as [[| u rl] |];
    [apply runs_ret; split_and!; eauto using same_state_refl, calls_since_refl | |
     apply runs_ret; split_and!; eauto using same_state_refl, calls_since_refl].
  unfold download_cover. steps.
  all: split; [done | split; [state_now |]].
  all: world_simpl.
  all: split; [set_solver |]; split; [set_solver |].
  all: split; [since_with cover_ev |].
  all: eauto.
Qed.

Lemma cover_step_any tr w :
  cover_locked w = false →
  runs E tid (cover_step tr) w
    (λ r w', r = Ok tt ∧ same_state w w'
       ∧ files w ⊆ files w' ∧ dirs w ⊆ dirs w'
       ∧ calls_since (cover_event_of tid (singer_name tr)) w w'
       ∧ (errors_log w' = errors_log w
          ∨ ∃ e, errors_log w' = errors_log w ++ [LogCoverError (singer_name tr) e])).
Proof.
  intros Hl. unfold cover_step. go.
  apply runs_cover_lock_acquire; [done |]. go.
  destruct (negb _ && truthy _).
  - eapply runs_mono; [apply download_cover_any |].
    intros r w' (-> & Hs & Hf & Hd & Hc & Hlog). steps.
    split; [done |]. destruct Hs as (? & ? & ? & ?). split_and!.
    + unfold same_state in *. world_simpl. repeat split; congruence.
    + done.
    + done.
    + eapply calls_since_trans; [| eapply calls_since_trans; [exact Hc |]];
        since_with cover_ev.
    + done.
  - steps. split; [done |]. split_and!.
    + unfold same_state. world_simpl. by repeat split.
    + done.
    + done.
    + since_with cover_ev.
    + by left.
Qed.

(** An event of task [tid] that touches no file and is not a call of the
    cover step on the network. *)
Ltac own_ev := by repeat split.

Lemma write_id3_tags_any filepath artist title source_url w :
  runs E tid (write_id3_tags filepath artist title source_url) w
    (λ r w', r = Ok tt ∧ same_state w w'
       ∧ files w' = files w ∧ dirs w' = dirs w
       ∧ calls_since (tag_event tid) w w'
       ∧ (errors_log w' = errors_log w
          ∨ ∃ e, errors_log w' = errors_log w ++ [LogTagError (basename filepath) e])).
Proof.
  unfold write_id3_tags. steps.
  all: split; [done | split; [state_now |]].
  all: world_simpl.
  all: split; [done |]; split; [done |].
  all: split; [since_with own_ev |].
  all: eauto.
Qed.

Lemma stream_chunks_any filepath slot chunks err w :
  runs E tid (stream_chunks filepath slot chunks err) w
    (λ r w', same_state w w'
       ∧ files w' = files w ∧ dirs w' = dirs w
       ∧ errors_log w' = errors_log w
       ∧ calls_since (λ ev, ev_task ev = tid) w w').
Proof.
  revert w.
  induction chunks as [| chunk rest IH]; intros w; cbn [stream_chunks].
  - steps. split_and!; [state_now | done | done | done | since_with own_ev].
  - go. fallible.
    + go. split_and!; [state_now | done | done | done | since_with own_ev].
    + go. eapply runs_mono; [apply IH |].
      intros r w' (Hs & Hf & Hd & Hlog & Hc). split_and!.
      * eapply same_state_trans; [| exact Hs]. state_now.
      * by rewrite Hf.
      * by rewrite Hd.
      * by rewrite Hlog.
      * eapply calls_since_trans; [| exact Hc]. since_with own_ev.
Qed.

Ltac grow := world_simpl; first [done | apply union_subseteq_r].

Ltac state_from Hs :=
  let Hp := fresh in let Hl := fresh in let Ho := fresh in let Hc := fresh in
  destruct Hs as (Hp & Hl & Ho & Hc); unfold same_state; world_simpl;
  rewrite ?Hp, ?Hl, ?Ho, ?Hc; world_simpl;
  rewrite ?bool_decide_eq_true_2 by done; by repeat split.

Lemma download_track_any tr slot w :
  0 < permits w → cover_locked w = false →
  runs E tid (download_track tr slot) w
    (λ r w', same_state w w'
       ∧ files w ⊆ files w' ∧ dirs w ⊆ dirs w'
       ∧ calls_since (λ ev, ev_task ev = tid) w w'
       ∧ ∃ l, errors_log w' = errors_log w ++ l
         ∧ match r with
           | Ok true =>
               Forall (side_entry tr) l ∧ length l ≤ 2
               ∧ (expected_filepath (singer_name tr) (title tr) ∈ files w'
                  ∨ expected_filepath (singer_name tr) (title tr) ∈ dirs w')
           | Ok false => ∃ m, l = [m] ∧ download_entry tr m
           | Raise e =>
               l = []
               ∧ new_events w w'
                 = [Event tid (Makedirs (artist_folder (singer_name tr))) (Some e)]
               ∧ files w' = files w ∧ dirs w' = dirs w
               ∧ (artist_folder (singer_name tr) ∉ dirs w)
           end).
Proof.
  intros Hperm Hlock.
  destruct (permits w) as [| n] eqn:Hn; [lia |]. clear Hperm.
  unfold download_track, build_expected_filepath.
  go. fallible.
  { go. split_and!; [state_now | done | done | since_with own_ev |].
    exists []. split; [by rewrite app_nil_r |]. split_and!; try done.
    unfold new_events. world_simpl. by rewrite drop_app_length. }
  all: go; branch.
  1,3: go; (eapply runs_mono; [apply cover_step_any; by world_simpl |]).
  1,2: intros r w' (-> & Hs & Hf & Hd & Hc & Hlog); go.
  1,2: apply bool_decide_eq_true_1 in Heqb; world_simpl.
  1,2: split_and!;
    [ eapply same_state_trans; [| exact Hs]; state_now
    | etrans; [| exact Hf]; grow
    | etrans; [| exact Hd]; grow
    | eapply calls_since_trans;
      [| eapply calls_since_mono; [| exact Hc]; by intros ? (? & _)];
      since_with own_ev
    | ].
  1,2: destruct Hlog as [Hlog | [e Hlog]]; rewrite Hlog; world_simpl;
    eexists; (split; [first [reflexivity | symmetry; apply app_nil_r] |]);
    (split_and!;
       [ by repeat constructor | simpl; lia
       | destruct Heqb as [Hin | Hin]; [left; by apply Hf | right; by apply Hd] ]).
  all: go.
  all: (apply runs_sem_acquire with (n := n); [by world_simpl |]).
  all: go; unfold fetch_body; go; fallible.
  1,3: go; (split_and!;
    [ state_now | grow | grow | since_with own_ev
    | eexists; split; [reflexivity |]; eexists; split; [reflexivity | done] ]).
  all: go; branch.
  1,3: steps; (split_and!;
    [ state_now | grow | grow | since_with own_ev
    | eexists; split; [reflexivity |]; eexists; split; [reflexivity |];
      split; [| done]; intros Hst; rewrite Hst in *; done ]).
  all: go; fallible.
  1,3: go; (split_and!;
    [ state_now | grow | grow | since_with own_ev
    | eexists; split; [reflexivity |]; eexists; split; [reflexivity | done] ]).
  all: go; (eapply runs_mono; [apply stream_chunks_any |]).
  all: intros r w1 (Hs1 & Hf1 & Hd1 & Hlog1 & Hc1); world_simpl.
  all: destruct r as [[] | e]; go.
  2,4: split_and!;
    [ state_from Hs1
    | world_simpl; rewrite Hf1; grow
    | world_simpl; rewrite Hd1; grow
    | eapply calls_since_trans; [| eapply calls_since_trans; [exact Hc1 |]];
      since_with own_ev
    | world_simpl; rewrite Hlog1; eexists; split; [reflexivity |];
      eexists; split; [reflexivity | done] ].
  all: (eapply runs_mono; [apply cover_step_any |]);
    [destruct Hs1 as (_ & Hl1 & _); world_simpl; by rewrite Hl1 |].
  all: intros r w2 (-> & Hs2 & Hf2 & Hd2 & Hc2 & Hlog2); go.
  all: (eapply runs_mono; [apply write_id3_tags_any |]).
  all: intros r w3 (-> & Hs3 & Hf3 & Hd3 & Hc3 & Hlog3); go.
  all: world_simpl.
  all: split_and!;
    [ destruct Hs1 as (Hp1 & Hl1 & Ho1 & Hr1), Hs2 as (Hp2 & Hl2 & Ho2 & Hr2),
        Hs3 as (Hp3 & Hl3 & Ho3 & Hr3);
      unfold same_state; world_simpl;
      rewrite ?Hp3, ?Hl3, ?Ho3, ?Hr3, ?Hp2, ?Hl2, ?Ho2, ?Hr2,
        ?Hp1, ?Hl1, ?Ho1, ?Hr1; world_simpl;
      rewrite ?bool_decide_eq_true_2 by done; by repeat split
    | rewrite Hf3; etrans; [| exact Hf2]; rewrite Hf1; grow
    | rewrite Hd3; etrans; [| exact Hd2]; rewrite Hd1; grow
    | eapply calls_since_trans;
      [| eapply calls_since_trans;
         [ exact Hc1
         | eapply calls_since_trans;
           [| eapply calls_since_trans;
              [ eapply calls_since_mono; [| exact Hc2]; by intros ? (? & _)
              | eapply calls_since_trans;
                [ eapply calls_since_mono; [| exact Hc3]; by intros ? (? & _)
                | ] ] ] ] ];
      since_with own_ev
    | destruct Hlog2 as [Hlog2 | [e2 Hlog2]], Hlog3 as [Hlog3 | [e3 Hlog3]];
      rewrite Hlog3, Hlog2, Hlog1; rewrite <- ?app_assoc;
      eexists; (split; [first [reflexivity | symmetry; apply app_nil_r] |]);
      (split_and!;
         [ by repeat constructor | simpl; lia
         | left; rewrite Hf3; apply Hf2; rewrite Hf1;
           apply elem_of_union_l, elem_of_singleton_2; reflexivity ]) ].
Qed.

(** X5.  With a free permit and a free cover lock, [download_track] on its
    own always comes to a result, whatever fails and whatever the server
    answers; at that point the permit and the cover lock are given back,
    every file it opened is closed, and nothing that was on disk is
    gone. *)
Theorem download_track_gives_back tr slot w :
  0 < permits w → cover_locked w = false →
  runs E tid (download_track tr slot) w
    (λ r w', permits w' = permits w ∧ cover_locked w' = false
             ∧ open_files w' = open_files w
             ∧ files w ⊆ files w' ∧ dirs w ⊆ dirs w').
Proof.
  intros Hperm Hlock.
  eapply runs_mono; [by apply download_track_any |].
  intros r w' ((Hp & Hl & Ho & _) & Hf & Hd & _).
  split_and!; try done. by rewrite Hl.
Qed.

(** X6.  The only exception that leaves [download_track] is the one of
    [os.makedirs] in [build_expected_filepath], which is called before the
    [try]: when the worker raises, that failing call is all it did, the
    folder was not there, and nothing was logged or written. *)
Theorem only_makedirs_escapes tr slot w :
  0 < permits w → cover_locked w = false →
  runs E tid (download_track tr slot) w
    (λ r w', ∀ e, r = Raise e →
       new_events w w'
       = [Event tid (Makedirs (artist_folder (singer_name tr))) (Some e)]
       ∧ (artist_folder (singer_name tr) ∉ dirs w)
       ∧ errors_log w' = errors_log w
       ∧ files w' = files w ∧ dirs w' = dirs w).
Proof.
  intros Hperm Hlock.
  eapply runs_mono; [by apply download_track_any |].
  intros r w' (_ & _ & _ & _ & l & Hlog & Hr) e ->.
  destruct Hr as (-> & Hev & Hf & Hd & Hno). rewrite app_nil_r in Hlog.
  by split_and!.
Qed.

(** X7.  The result of [download_track] and the error log agree: when it
    returns [False] it has added exactly one entry, about the download of
    this track (the status, or the exception); when it returns [True] it
    has added at most two entries, about the cover or the tags only, and
    the destination path exists. *)
Theorem outcome_matches_log tr slot w :
  0 < permits w → cover_locked w = false →
  runs E tid (download_track tr slot) w
    (λ r w',
       (r = Ok false → ∃ m, new_log w w' = [m] ∧ download_entry tr m)
       ∧ (r = Ok true →
          Forall (side_entry tr) (new_log w w') ∧ length (new_log w w') ≤ 2
          ∧ (expected_filepath (singer_name tr) (title tr) ∈ files w'
             ∨ expected_filepath (singer_name tr) (title tr) ∈ dirs w'))).
Proof.
  intros Hperm Hlock.
  eapply runs_mono; [by apply download_track_any |].
  intros r w' (_ & _ & _ & _ & l & Hlog & Hr).
  unfold new_log. rewrite Hlog, drop_app_length.
  split; intros ->; done.
Qed.

(** *** What a download writes *)

Lemma written_app fp evs1 evs2 :
  written fp (evs1 ++ evs2) = written fp evs1 ++ written fp evs2.
Proof. apply omap_app. Qed.

Lemma advanced_app slot evs1 evs2 :
  advanced slot (evs1 ++ evs2) = (advanced slot evs1 + advanced slot evs2)%Z.
Proof.
  unfold advanced. induction evs1 as [| ev evs1 IH]; [done |].
  cbn [app fmap list_fmap foldr]. fold (advance slot <$> (evs1 ++ evs2)).
  fold (advance slot <$> evs1). lia.
Qed.

Lemma cover_events_write_nothing name s t slot evs :
  Forall (cover_event_of tid name) evs →
  written (expected_filepath s t) evs = [] ∧ advanced slot evs = 0%Z.
Proof.
  induction 1 as [| ev evs (_ & Hc & Hfile) _ [IHw IHa]]; [done |].
  unfold written, advanced in *. cbn [omap list_omap fmap list_fmap foldr].
  fold (omap (written_to (expected_filepath s t)) evs).
  fold (advance slot <$> evs).
  rewrite IHw, IHa. destruct ev as [i c raised]. cbn in Hc, Hfile.
  destruct c; try done.
  unfold written_to. cbn. destruct raised; [done |].
  rewrite bool_decide_eq_false_2; [done |].
  intros ->. specialize (Hfile _ eq_refl). symmetry in Hfile.
  by apply cover_path_differs in Hfile.
Qed.

Lemma tag_events_write_nothing fp slot evs :
  Forall (tag_event tid) evs →
  written fp evs = [] ∧ advanced slot evs = 0%Z.
Proof.
  induction 1 as [| ev evs (_ & Hc) _ [IHw IHa]]; [done |].
  unfold written, advanced in *. cbn [omap list_omap fmap list_fmap foldr].
  fold (omap (written_to fp) evs). fold (advance slot <$> evs).
  rewrite IHw, IHa. destruct ev as [i c raised]. cbn in Hc.
  by destruct c.
Qed.

Lemma stream_chunks_written filepath slot chunks err w :
  (∀ h data, fault E h tid (AioWrite filepath data) = None) →
  runs E tid (stream_chunks filepath slot chunks err) w
    (λ r w', r = match err with Some e => Raise e | None => Ok tt end
       ∧ same_state w w'
       ∧ files w' = files w ∧ dirs w' = dirs w
       ∧ errors_log w' = errors_log w
       ∧ ∃ evs, trace w' = trace w ++ evs
                ∧ written filepath evs = chunks
                ∧ advanced slot evs = Z.of_nat (length (mjoin chunks))).
Proof.
  intros Hwrite. revert w.
  induction chunks as [| chunk rest IH]; intros w; cbn [stream_chunks].
  - steps. all: split_and!; [done | state_now | done | done | done |].
    all: world_simpl; by eexists [_].
  - go. fallible; [by rewrite Hwrite in * |]. go.
    eapply runs_mono; [apply IH |].
    intros r w' (-> & Hs & Hf & Hd & Hlog & evs & Htr & Hw & Ha).
    split_and!; [done | | by rewrite Hf | by rewrite Hd | by rewrite Hlog |].
    + eapply same_state_trans; [| exact Hs]. state_now.
    + rewrite Htr. world_simpl. rewrite <- !app_assoc. eexists. split; [done |].
      rewrite !written_app, !advanced_app, Hw, Ha.
      change (mjoin (chunk :: rest)) with (chunk ++ mjoin rest).
      rewrite length_app, Nat2Z.inj_add.
      generalize (Z.of_nat (length (mjoin rest))). intros z.
      unfold written, written_to, advanced, advance. cbn.
      rewrite !bool_decide_eq_true_2 by done.
      split; [done | lia].
Qed.

Ltac count_events :=
  unfold written, advanced;
  cbn [omap list_omap fmap list_fmap foldr written_to advance
       ev_call ev_raised app];
  rewrite ?app_nil_r.

Lemma download_track_streamed tr slot w resp :
  let filepath := expected_filepath (singer_name tr) (title tr) in
  let track_str := singer_name tr ++ lit " - " ++ title tr in
  filepath ∉ files w → filepath ∉ dirs w →
  0 < permits w → cover_locked w = false →
  (∀ h, fault E h tid (Makedirs (artist_folder (singer_name tr))) = None) →
  (∀ h, fault E h tid (SessionGet TrackBody (mp3_url tr) 45) = None) →
  (∀ h, respond E h (mp3_url tr) = resp) → status resp = 200%Z →
  (∀ h, fault E h tid (AioOpen filepath) = None) →
  (∀ h data, fault E h tid (AioWrite filepath data) = None) →
  runs E tid (download_track tr slot) w
    (λ r w', same_state w w'
       ∧ filepath ∈ files w' ∧ artist_folder (singer_name tr) ∈ dirs w'
       ∧ written filepath (new_events w w') = body resp
       ∧ advanced slot (new_events w w') = Z.of_nat (length (mjoin (body resp)))
       ∧ match body_error resp with
         | None => r = Ok true
         | Some e =>
             r = Ok false
             ∧ errors_log w' = errors_log w ++ [LogDownloadError track_str e]
         end).
Proof.
  intros filepath track_str Hfile Hdir Hperm Hlock Hmk Hget Hresp Hstatus
    Hopen Hwrite.
  subst filepath track_str.
  destruct (permits w) as [| n] eqn:Hn; [lia |].
  pose proof (expected_filepath_not_folder (singer_name tr) (title tr)) as Hne.
  destruct (absent_after_makedirs _ _ w Hfile Hdir Hne) as [Habs1 Habs2].
  unfold download_track, build_expected_filepath.
  go. fallible; [by rewrite Hmk in * | |].
  all: go; world_simpl; rewrite ?Habs1, ?Habs2; cbn beta iota; go.
  all: (apply runs_sem_acquire with (n := n); [by world_simpl |]).
  all: go; unfold fetch_body; go; fallible; [by rewrite Hget in * |]; go.
  all: rewrite Hresp, Hstatus; cbn [Z.eqb Pos.eqb negb]; go.
  all: fallible; [by rewrite Hopen in * |]; go.
  all: (eapply runs_mono; [by apply stream_chunks_written |]).
  all: intros r w1 (-> & Hs1 & Hf1 & Hd1 & Hlog1 & evs1 & Htr1 & Hw1 & Ha1).
  all: world_simpl; destruct (body_error resp) as [e |]; go.
  1,3: split_and!;
    [ state_from Hs1
    | world_simpl; rewrite Hf1; apply elem_of_union_l, elem_of_singleton_2;
      reflexivity
    | world_simpl; rewrite Hd1;
      first [done | apply elem_of_union_l, elem_of_singleton_2; reflexivity]
    | unfold new_events; world_simpl; rewrite Htr1;
      rewrite <- !app_assoc, drop_app_length, !written_app, Hw1;
      by count_events
    | unfold new_events; world_simpl; rewrite Htr1;
      rewrite <- !app_assoc, drop_app_length, !advanced_app, Ha1;
      count_events; lia
    | done
    | world_simpl; by rewrite Hlog1 ].
  all: (eapply runs_mono; [apply cover_step_any |]);
    [destruct Hs1 as (_ & Hl1 & _); world_simpl; by rewrite Hl1 |].
  all: intros r w2 (-> & Hs2 & Hf2 & Hd2 & (evs2 & Htr2 & Hc2) & _); go.
  all: (eapply runs_mono; [apply write_id3_tags_any |]).
  all: intros r w3 (-> & Hs3 & Hf3 & Hd3 & (evs3 & Htr3 & Hc3) & _); go.
  all: world_simpl.
  all: destruct (cover_events_write_nothing _ (singer_name tr) (title tr) slot
                   _ Hc2) as [Hw2 Ha2].
  all: destruct (tag_events_write_nothing
                   (expected_filepath (singer_name tr) (title tr)) slot
                   _ Hc3) as [Hw3 Ha3].
  all: split_and!;
    [ destruct Hs1 as (Hp1 & Hl1 & Ho1 & Hr1), Hs2 as (Hp2 & Hl2 & Ho2 & Hr2),
        Hs3 as (Hp3 & Hl3 & Ho3 & Hr3);
      unfold same_state; world_simpl;
      rewrite ?Hp3, ?Hl3, ?Ho3, ?Hr3, ?Hp2, ?Hl2, ?Ho2, ?Hr2,
        ?Hp1, ?Hl1, ?Ho1, ?Hr1; world_simpl;
      rewrite ?bool_decide_eq_true_2 by done; by repeat split
    | rewrite Hf3; apply Hf2; rewrite Hf1;
      apply elem_of_union_l, elem_of_singleton_2; reflexivity
    | rewrite Hd3; apply Hd2; rewrite Hd1;
      first [done | apply elem_of_union_l, elem_of_singleton_2; reflexivity]
    | unfold new_events; world_simpl; rewrite Htr3, Htr2; world_simpl;
      rewrite Htr1;
      rewrite <- !app_assoc, drop_app_length, !written_app, Hw1, Hw2, Hw3;
      by count_events
    | unfold new_events; world_simpl; rewrite Htr3, Htr2; world_simpl;
      rewrite Htr1;
      rewrite <- !app_assoc, drop_app_length, !advanced_app, Ha1, Ha2, Ha3;
      count_events; lia
    | done ].
Qed.

Lemma cover_event_of_no_body name ev :
  cover_event_of tid name ev → no_body_request tid ev.
Proof. intros (Ht & Hc & _). by apply cover_event_no_body. Qed.

Lemma rerun_skips tr slot w :
  expected_filepath (singer_name tr) (title tr) ∈ files w →
  artist_folder (singer_name tr) ∈ dirs w →
  cover_locked w = false →
  runs E tid (download_track tr slot) w
    (λ r w', r = Ok true ∧ calls_since (no_body_request tid) w w').
Proof.
  intros Hfile Hdir Hlock. unfold download_track, build_expected_filepath.
  go. fallible; [done | | done]. go.
  rewrite bool_decide_eq_true_2 by by left.
  go. eapply runs_mono; [apply cover_step_any; by world_simpl |].
  intros r w' (-> & _ & _ & _ & Hc & _). go. split; [done |].
  eapply calls_since_trans;
    [| eapply calls_since_mono; [apply cover_event_of_no_body | exact Hc]].
  since_now.
Qed.


(** X9.  When the body breaks off after some chunks, [download_track]
    returns [False] and logs the exception, but the file with the chunks
    written so far stays on disk; a second run of the same track then finds
    the path, returns [True] and does not request the body again. *)
Theorem interrupted_download_taken_for_done tr slot w resp e :
  let filepath := expected_filepath (singer_name tr) (title tr) in
  let track_str := singer_name tr ++ lit " - " ++ title tr in
  filepath ∉ files w → filepath ∉ dirs w →
  0 < permits w → cover_locked w = false →
  (∀ h, fault E h tid (Makedirs (artist_folder (singer_name tr))) = None) →
  (∀ h, fault E h tid (SessionGet TrackBody (mp3_url tr) 45) = None) →
  (∀ h, respond E h (mp3_url tr) = resp) →
  status resp = 200%Z → body_error resp = Some e →
  (∀ h, fault E h tid (AioOpen filepath) = None) →
  (∀ h data, fault E h tid (AioWrite filepath data) = None) →
  runs E tid (download_track tr slot) w
    (λ r w', r = Ok false
       ∧ errors_log w' = errors_log w ++ [LogDownloadError track_str e]
       ∧ filepath ∈ files w'
       ∧ written filepath (new_events w w') = body resp
       ∧ runs E tid (download_track tr slot) w'
           (λ r2 w2, r2 = Ok true
                     ∧ calls_since (no_body_request tid) w' w2)).
Proof.
  intros filepath track_str Hfile Hdir Hperm Hlock Hmk Hget Hresp Hstatus
    Hbody Hopen Hwrite.
  eapply runs_mono; [by apply (download_track_streamed tr slot w resp) |].
  intros r w' ((_ & Hl & _) & Hf & Hd & Hw & _ & Hr). rewrite Hbody in Hr.
  destruct Hr as [-> Hlog]. split_and!; try done.
  apply rerun_skips; [done | done | by rewrite Hl].
Qed.

(** *** The cover on its own *)

(** X10.  [download_cover] never raises, whatever fails: it returns with
    the permits, the cover lock and the open files as they were, the only
    file it opens, writes or closes is the cover of that artist, and it
    adds at most one entry to the log, for that artist. *)
Theorem download_cover_contained name url w :
  runs E tid (download_cover name url) w
    (λ r w', r = Ok tt ∧ same_state w w'
       ∧ files w ⊆ files w' ∧ dirs w ⊆ dirs w'
       ∧ (∀ ev p, ev ∈ new_events w w' → file_of (ev_call ev) = Some p →
                  p = cover_path name)
       ∧ (new_log w w' = [] ∨ ∃ e, new_log w w' = [LogCoverError name e])).
Proof.
  eapply runs_mono; [apply download_cover_any |].
  intros r w' (-> & Hs & Hf & Hd & Hc & Hlog). split_and!; try done.
  - intros ev p Hev Hp.
    destruct (calls_since_new_events _ _ _ _ Hc Hev) as (_ & _ & H). by apply H.
  - unfold new_log. destruct Hlog as [-> | [e ->]].
    + left. by rewrite drop_all.
    + right. exists e. by rewrite drop_app_length.
Qed.

(** X11.  Without a cover URL ([None] or the empty string), or with the
    cover on disk already, [download_cover] sends no request and changes
    neither the disk nor the log. *)
Theorem cover_not_requested_again name url w :
  truthy url = false ∨ cover_path name ∈ files w →
  runs E tid (download_cover name url) w
    (λ r w', r = Ok tt ∧ cover_gets (new_events w w') = []
             ∧ files w' = files w ∧ dirs w' = dirs w
             ∧ errors_log w' = errors_log w).
Proof.
  intros Hwhy. destruct url as [[| u rl] |].
  1,3: apply runs_ret; unfold new_events; by rewrite drop_all.
  destruct Hwhy as [? | Hin]; [done |].
  unfold download_cover. go. fold (cover_path name).
  rewrite bool_decide_eq_true_2 by by left. go.
  unfold new_events. world_simpl. by rewrite drop_app_length.
Qed.

(** X12.  When the cover is not on disk, the server answers 200 with a
    complete body and nothing fails, [download_cover] makes the folder of
    the artist, creates the cover file and writes the whole body to it in
    one piece; nothing is logged. *)
Theorem cover_saved name u w resp :
  u ≠ [] →
  cover_path name ∉ files w → cover_path name ∉ dirs w →
  (∀ h, fault E h tid (SessionGet CoverArt u 30) = None) →
  (∀ h, respond E h u = resp) →
  status resp = 200%Z → body_error resp = None →
  (∀ h, fault E h tid (Makedirs (artist_folder name)) = None) →
  (∀ h, fault E h tid (AioOpen (cover_path name)) = None) →
  (∀ h data, fault E h tid (AioWrite (cover_path name) data) = None) →
  runs E tid (download_cover name (Some u)) w
    (λ r w', r = Ok tt
       ∧ files w' = {[cover_path name]} ∪ files w
       ∧ artist_folder name ∈ dirs w'
       ∧ written (cover_path name) (new_events w w') = [mjoin (body resp)]
       ∧ errors_log w' = errors_log w).
Proof.
  intros Hu Hfile Hdir Hget Hresp Hstatus Hbody Hmk Hopen Hwrite.
  destruct u as [| c u]; [done |].
  unfold download_cover. go.
  fold (artist_folder name). fold (cover_path name).
  rewrite bool_decide_eq_false_2 by by intros [? | ?].
  go. fallible; [by rewrite Hget in * |]. go.
  rewrite Hresp, Hstatus. cbn [Z.eqb Pos.eqb]. go.
  fallible; [by rewrite Hmk in * | |].
  all: go; fallible; [by rewrite Hopen in * |]; go.
  all: rewrite Hbody; go; fallible; [by rewrite Hwrite in * |]; go.
  all: world_simpl; split_and!; try done.
  all: try (apply elem_of_union_l, elem_of_singleton_2; reflexivity).
  all: unfold new_events; world_simpl; rewrite <- !app_assoc, drop_app_length.
  all: count_events; by rewrite bool_decide_eq_true_2.
Qed.

(** X13.  A status other than 200 for the cover is passed over in
    silence: [download_cover] does nothing after the request, neither
    folder nor file is made, and the log gets no entry. *)
Theorem cover_non200_silent name u w :
  u ≠ [] →
  cover_path name ∉ files w → cover_path name ∉ dirs w →
  (∀ h, fault E h tid (SessionGet CoverArt u 30) = None) →
  (∀ h, status (respond E h u) ≠ 200%Z) →
  runs E tid (download_cover name (Some u)) w
    (λ r w', r = Ok tt
       ∧ ev_call <$> new_events w w'
         = [PathExists (cover_path name); SessionGet CoverArt u 30;
            ResponseRelease CoverArt]
       ∧ files w' = files w ∧ dirs w' = dirs w
       ∧ errors_log w' = errors_log w).
Proof.
  intros Hu Hfile Hdir Hget Hstatus.
  destruct u as [| c u]; [done |].
  unfold download_cover. go.
  fold (artist_folder name). fold (cover_path name).
  rewrite bool_decide_eq_false_2 by by intros [? | ?].
  go. fallible; [by rewrite Hget in * |]. go.
  match goal with
  | |- context [respond ?E' ?h ?u'] =>
      specialize (Hstatus h); set (resp := respond E' h u') in *
  end.
  destruct (Z.eqb_spec (status resp) 200) as [| _]; [done |].
  go. world_simpl. split_and!; try done.
  unfold new_events. world_simpl. by rewrite <- !app_assoc, drop_app_length.
Qed.

(** *** The tags on their own *)

Ltac tag_events :=
  unfold new_events, new_log; world_simpl;
  rewrite <- ?app_assoc, ?drop_app_length, ?drop_all;
  unfold frames_added;
  cbn [omap list_omap frame_added saved existsb ev_call ev_raised app orb].

(** X14.  [write_id3_tags] never raises, and the frames it adds are the
    first frames of artist, title, album, comment, in that order.  Either
    [save] went through, then all four frames were added and nothing was
    logged; or [save] did not go through, and exactly one entry for the
    base name of the file is in the log. *)
Theorem tags_saved_whole_or_logged filepath artist title source_url w :
  runs E tid (write_id3_tags filepath artist title source_url) w
    (λ r w', r = Ok tt
       ∧ frames_added (new_events w w')
           `prefix_of` id3_frames artist title source_url
       ∧ (existsb saved (new_events w w') = true
          ∧ frames_added (new_events w w') = id3_frames artist title source_url
          ∧ new_log w w' = []
          ∨ existsb saved (new_events w w') = false
            ∧ ∃ e, new_log w w' = [LogTagError (basename filepath) e])).
Proof.
  unfold write_id3_tags. steps.
  all: split; [done |].
  all: tag_events.
  all: split; [by eexists |].
  all: first [left; by split_and! | right; split; [done | by eexists]].
Qed.

(** X15.  What [audio.add_tags()] raises (as it does for a file that has
    tags already) is dropped: when loading, adding the frames and saving
    do not fail, the four frames are added and saved and nothing is
    logged, whether [add_tags] fails or not. *)
Theorem add_tags_failure_ignored filepath artist title source_url w :
  (∀ h, fault E h tid (Mp3Load filepath) = None) →
  (∀ h f, fault E h tid (Mp3TagsAdd f) = None) →
  (∀ h, fault E h tid Mp3Save = None) →
  runs E tid (write_id3_tags filepath artist title source_url) w
    (λ r w', r = Ok tt
       ∧ frames_added (new_events w w') = id3_frames artist title source_url
       ∧ existsb saved (new_events w w') = true
       ∧ errors_log w' = errors_log w).
Proof.
  intros Hload Hadd Hsave. unfold write_id3_tags.
  go. fallible; [by rewrite Hload in * |]. go. fallible.
  all: go; fallible; [by rewrite Hadd in * |].
  all: go; fallible; [by rewrite Hadd in * |].
  all: go; fallible; [by rewrite Hadd in * |].
  all: go; fallible; [by rewrite Hadd in * |].
  all: go; fallible; [by rewrite Hsave in * |].
  all: go; split; [done |]; tag_events; by split_and!.
Qed.

End Worker.

(** *** The three outcomes on sample data *)

Lemma existing_track_skipped_witness :
  let w := World {[expected_filepath (lit "Artist") (lit "One")]}
                 {[artist_folder (lit "Artist")]}
                 MAX_CONCURRENT_DOWNLOADS false ∅ [] [] [] in
  runs cover_missing 0 (download_track track_one 0) w
    (λ r w', r = Ok true ∧ same_state w w'
             ∧ calls_since (no_body_request 0) w w').
Proof.
  intros w. apply existing_track_skipped.
  - unfold w. cbn [files]. apply elem_of_singleton_2. reflexivity.
  - unfold w. cbn [dirs]. apply elem_of_singleton_2. reflexivity.
  - reflexivity.
Defined.

Lemma non200_returns_false_witness :
  let w := fresh_world ∅ ∅ in
  runs all_missing 0 (download_track track_one 0) w
    (λ r w', r = Ok false
       ∧ ∃ st, st ≠ 200%Z
         ∧ errors_log w' = errors_log w ++ [LogHttpStatus st (lit "Artist - One")]
         ∧ permits w' = permits w
         ∧ open_files w' = open_files w
         ∧ ev_call <$> new_events w w'
           = [Makedirs (lit "tarat_tracks/Artist");
              PathExists (lit "tarat_tracks/Artist/Artist - One.mp3");
              SemAcquire;
              PbarSetDescription 0 (lit "Artist - One");
              PbarReset 0;
              SessionGet TrackBody (lit "http://host/1.mp3") 45;
              LogError (LogHttpStatus st (lit "Artist - One"));
              ResponseRelease TrackBody;
              SemRelease]
         ∧ Forall (λ ev, is_open (ev_call ev) = false) (new_events w w')).
Proof.
  intros w. apply (non200_returns_false all_missing 0 track_one 0 w).
  - apply not_elem_of_empty.
  - apply not_elem_of_empty.
  - unfold w, fresh_world, MAX_CONCURRENT_DOWNLOADS. simpl. lia.
  - reflexivity.
  - reflexivity.
  - intros h. simpl. lia.
Defined.

Lemma tag_failure_keeps_success_witness :
  let w := fresh_world ∅ ∅ in
  runs save_fails 0 (download_track track_one 0) w
    (λ r w', r = Ok true
       ∧ ∀ ev, ev ∈ new_events w w' →
           tag_logged (expected_filepath (lit "Artist") (lit "One"))
                      (errors_log w') ev
           ∧ tag_framed (id3_frames (lit "Artist") (lit "One")
                                    (lit "http://host/1.mp3")) ev).
Proof.
  intros w. apply (tag_failure_keeps_success save_fails 0 track_one 0 w).
  - apply not_elem_of_empty.
  - apply not_elem_of_empty.
  - unfold w, fresh_world, MAX_CONCURRENT_DOWNLOADS. simpl. lia.
  - reflexivity.
  - reflexivity.
  - reflexivity.
  - reflexivity.
  - reflexivity.
  - reflexivity.
  - reflexivity.
Defined.

(** The same run, computed: the failure to save is the one entry of the
    log. *)
Example tag_failure_logged :
  (λ '(r, w'), (r, errors_log w'))
    <$> run save_fails 0 (download_track track_one 0) (fresh_world ∅ ∅)
  = Some (Ok true,
          [LogTagError (lit "Artist - One.mp3")
                       (PyException (lit "can't sync to MPEG frame"))]).
Proof. vm_compute. reflexivity. Qed.

(** *** The same on sample data *)

Lemma download_track_gives_back_witness :
  let w := fresh_world ∅ ∅ in
  runs save_fails 0 (download_track track_one 0) w
    (λ r w', permits w' = permits w ∧ cover_locked w' = false
             ∧ open_files w' = open_files w
             ∧ files w ⊆ files w' ∧ dirs w ⊆ dirs w').
Proof.
  intros w. apply (download_track_gives_back save_fails 0 track_one 0 w).
  - unfold w, fresh_world, MAX_CONCURRENT_DOWNLOADS. simpl. lia.
  - reflexivity.
Defined.

Lemma only_makedirs_escapes_witness :
  let w := fresh_world ∅ ∅ in
  runs folder_denied 0 (download_track track_three 0) w
    (λ r w', ∀ e, r = Raise e →
       new_events w w'
       = [Event 0 (Makedirs (artist_folder (singer_name track_three))) (Some e)]
       ∧ (artist_folder (singer_name track_three) ∉ dirs w)
       ∧ errors_log w' = errors_log w
       ∧ files w' = files w ∧ dirs w' = dirs w).
Proof.
  intros w. apply (only_makedirs_escapes folder_denied 0 track_three 0 w).
  - unfold w, fresh_world, MAX_CONCURRENT_DOWNLOADS. simpl. lia.
  - reflexivity.
Defined.

Lemma outcome_matches_log_witness :
  let w := fresh_world ∅ ∅ in
  runs all_missing 0 (download_track track_one 0) w
    (λ r w',
       (r = Ok false → ∃ m, new_log w w' = [m] ∧ download_entry track_one m)
       ∧ (r = Ok true →
          Forall (side_entry track_one) (new_log w w')
          ∧ length (new_log w w') ≤ 2
          ∧ (expected_filepath (singer_name track_one) (title track_one)
               ∈ files w'
             ∨ expected_filepath (singer_name track_one) (title track_one)
               ∈ dirs w'))).
Proof.
  intros w. apply (outcome_matches_log all_missing 0 track_one 0 w).
  - unfold w, fresh_world, MAX_CONCURRENT_DOWNLOADS. simpl. lia.
  - reflexivity.
Defined.


Lemma interrupted_download_taken_for_done_witness :
  let w := fresh_world ∅ ∅ in
  let filepath := lit "tarat_tracks/Artist/Artist - One.mp3" in
  runs connection_drops 0 (download_track track_one 0) w
    (λ r w', r = Ok false
       ∧ errors_log w'
         = [LogDownloadError (lit "Artist - One")
              (PyException (lit "Response payload is not completed"))]
       ∧ filepath ∈ files w'
       ∧ written filepath (new_events w w') = [[Byte.x49; Byte.x44]]
       ∧ runs connection_drops 0 (download_track track_one 0) w'
           (λ r2 w2, r2 = Ok true
                     ∧ calls_since (no_body_request 0) w' w2)).
Proof.
  intros w filepath.
  apply (interrupted_download_taken_for_done connection_drops 0 track_one 0 w
           truncated (PyException (lit "Response payload is not completed"))).
  - apply not_elem_of_empty.
  - apply not_elem_of_empty.
  - unfold w, fresh_world, MAX_CONCURRENT_DOWNLOADS. simpl. lia.
  - reflexivity.
  - reflexivity.
  - reflexivity.
  - reflexivity.
  - reflexivity.
  - reflexivity.
  - reflexivity.
  - reflexivity.
Defined.

Lemma cover_not_requested_again_witness :
  let w := fresh_world ∅ ∅ in
  runs healthy 0 (download_cover (lit "Artist") (Some [])) w
    (λ r w', r = Ok tt ∧ cover_gets (new_events w w') = []
             ∧ files w' = files w ∧ dirs w' = dirs w
             ∧ errors_log w' = errors_log w).
Proof.
  intros w. apply (cover_not_requested_again healthy 0 (lit "Artist") (Some []) w).
  left. reflexivity.
Defined.

Lemma cover_saved_witness :
  let w := fresh_world ∅ ∅ in
  runs healthy 0 (download_cover (lit "Artist") (Some cover_jpg)) w
    (λ r w', r = Ok tt
       ∧ files w' = {[cover_path (lit "Artist")]} ∪ files w
       ∧ artist_folder (lit "Artist") ∈ dirs w'
       ∧ written (cover_path (lit "Artist")) (new_events w w')
         = [[Byte.x49; Byte.x44; Byte.x33]]
       ∧ errors_log w' = errors_log w).
Proof.
  intros w.
  apply (cover_saved healthy 0 (lit "Artist") cover_jpg w audio).
  - discriminate.
  - apply not_elem_of_empty.
  - apply not_elem_of_empty.
  - reflexivity.
  - reflexivity.
  - reflexivity.
  - reflexivity.
  - reflexivity.
  - reflexivity.
  - reflexivity.
Defined.

Lemma cover_non200_silent_witness :
  let w := fresh_world ∅ ∅ in
  runs all_missing 0 (download_cover (lit "Artist") (Some cover_jpg)) w
    (λ r w', r = Ok tt
       ∧ ev_call <$> new_events w w'
         = [PathExists (cover_path (lit "Artist"));
            SessionGet CoverArt cover_jpg 30; ResponseRelease CoverArt]
       ∧ files w' = files w ∧ dirs w' = dirs w
       ∧ errors_log w' = errors_log w).
Proof.
  intros w.
  apply (cover_non200_silent all_missing 0 (lit "Artist") cover_jpg w).
  - discriminate.
  - apply not_elem_of_empty.
  - apply not_elem_of_empty.
  - reflexivity.
  - intros h. simpl. lia.
Defined.

Lemma add_tags_failure_ignored_witness :
  let w := fresh_world ∅ ∅ in
  runs has_tags 0
    (write_id3_tags (lit "tarat_tracks/Artist/Artist - One.mp3")
       (lit "Artist") (lit "One") (lit "http://host/1.mp3")) w
    (λ r w', r = Ok tt
       ∧ frames_added (new_events w w')
         = id3_frames (lit "Artist") (lit "One") (lit "http://host/1.mp3")
       ∧ existsb saved (new_events w w') = true
       ∧ errors_log w' = errors_log w).
Proof.
  intros w.
  apply (add_tags_failure_ignored has_tags 0
           (lit "tarat_tracks/Artist/Artist - One.mp3")
           (lit "Artist") (lit "One") (lit "http://host/1.mp3") w).
  - reflexivity.
  - reflexivity.
  - reflexivity.
Defined.

(** ** The pool of workers and the semaphore *)

Section Pool.

Context (E : env).
Implicit Types (w : world) (c : call) (g : ghost) (s : system).

(** *** Rules for [obeys] *)

Lemma obeys_mono {R} (p : prog R) g (Q Q' : R → ghost → Prop) :
  obeys p g Q → (∀ r g', Q r g' → Q' r g') → obeys p g Q'.
Proof.
  revert g. induction p as [r | c k IH]; intros g H HQ; simpl in *.
  - by apply HQ.
  - destruct H as [Ha Hk]. split; [done |]. intros a. by eapply IH.
Qed.

Lemma obeys_bind {A B} (m : prog A) (f : A → prog B) g Q :
  obeys m g (λ a g', obeys (f a) g' Q) → obeys (m ≫= f) g Q.
Proof.
  unfold mbind, prog_bind. revert g.
  induction m as [a | c k IH]; intros g H; simpl in *; [done |].
  destruct H as [Ha Hk]. split; [done |]. intros a. by apply IH.
Qed.

Lemma obeys_and_then {A B} (m : prog (result A)) (f : A → prog (result B)) g Q :
  obeys m g (λ r g', match r with
                     | Ok a => obeys (f a) g' Q
                     | Raise e => Q (Raise e) g'
                     end) →
  obeys (and_then m f) g Q.
Proof.
  intros H. apply obeys_bind. eapply obeys_mono; [exact H |].
  by intros [a | e] g' HQ.
Qed.

Lemma obeys_try_except {A} (body : prog (result A)) handler g Q :
  obeys body g (λ r g', match r with
                        | Ok a => Q (Ok a) g'
                        | Raise e => obeys (handler e) g' Q
                        end) →
  obeys (try_except body handler) g Q.
Proof.
  intros H. apply obeys_bind. eapply obeys_mono; [exact H |].
  by intros [a | e] g' HQ.
Qed.

Lemma obeys_call c g (Q : answer c → ghost → Prop) :
  allowed c g → (∀ a, Q a (observe c a g)) → obeys (call_ c) g Q.
Proof. intros Ha HQ. by split. Qed.

Ltac ostep :=
  lazymatch goal with
  | |- obeys (Ret _) _ _ => cbn [obeys]
  | |- obeys (and_then _ _) _ _ => apply obeys_and_then
  | |- obeys (try_except _ _) _ _ => apply obeys_try_except
  | |- obeys (_ ≫= _) _ _ => apply obeys_bind
  | |- obeys (call_ ?c) ?g _ =>
      apply (obeys_call c g);
      [cbn [allowed held fetching]; first [exact I | split; [lia | reflexivity]]
      | intros ?; cbn [observe held fetching]]
  | |- obeys (with_response _ _ _ _) _ _ => unfold with_response
  | |- obeys (with_file _ _) _ _ => unfold with_file
  | |- obeys (with_semaphore _) _ _ => unfold with_semaphore
  | |- obeys (with_cover_lock _) _ _ => unfold with_cover_lock
  | |- obeys (read_all _) _ _ => unfold read_all
  | |- obeys (if ?b then _ else _) _ _ => destruct b
  | |- obeys (match ?x with _ => _ end) _ _ => destruct x
  | |- match ?x with _ => _ end => destruct x
  end; cbn beta iota.

Ltac osteps := repeat ostep.

(** *** The parts of the worker that touch neither the semaphore nor the
    track body *)

Lemma download_cover_obeys name url g :
  obeys (download_cover name url) g (λ _ g', g' = g).
Proof.
  destruct url as [[| u rl] |]; [done | | done].
  unfold download_cover. osteps; try done.
Qed.

Lemma cover_step_obeys tr g : obeys (cover_step tr) g (λ _ g', g' = g).
Proof.
  unfold cover_step. osteps; [| done].
  eapply obeys_mono; [apply download_cover_obeys |].
  intros r g' ->. osteps; try done.
Qed.

Lemma write_id3_tags_obeys filepath artist title source_url g :
  obeys (write_id3_tags filepath artist title source_url) g (λ _ g', g' = g).
Proof. unfold write_id3_tags. osteps; try done. Qed.

Lemma stream_chunks_obeys filepath slot chunks err g :
  obeys (stream_chunks filepath slot chunks err) g (λ _ g', g' = g).
Proof.
  induction chunks as [| chunk rest IH]; cbn [stream_chunks].
  - osteps; try done.
  - osteps; by try apply IH.
Qed.

Ltac use_neutral lem :=
  eapply obeys_mono; [apply lem |]; intros ? ? ->; cbn beta iota.

Lemma fetch_body_obeys tr filepath slot n :
  obeys (fetch_body tr filepath slot) (Ghost (S n) false)
    (λ _ g', g' = Ghost (S n) false).
Proof.
  unfold fetch_body. osteps; try done.
  use_neutral stream_chunks_obeys. osteps; done.
Qed.

Lemma download_track_obeys tr slot :
  obeys (download_track tr slot) (Ghost 0 false) (λ _ g, idle g).
Proof.
  unfold download_track, build_expected_filepath. osteps; try done.
  - use_neutral cover_step_obeys. osteps; done.
  - use_neutral fetch_body_obeys. osteps; try done.
    use_neutral cover_step_obeys. osteps; try done.
    use_neutral write_id3_tags_obeys. osteps; done.
Qed.

(** *** One step of the pool keeps the balance *)

Lemma exec_permits i c w a w' g :
  exec E i c w = Some (a, w') → allowed c g →
  permits w' + held (observe c a g) = permits w + held g.
Proof.
  unfold exec. destruct (react E i c w) as [[a0 w0] |] eqn:Hre; [| done].
  intros [= <- <-] Hal.
  assert (permits (note (Event i c (raised_of c a0)) w0) = permits w0) as ->
    by done.
  destruct c; cbn in Hre, Hal |- *; unfold fallible in Hre;
    repeat case_match; simplify_eq; cbn; try done; try lia.
Qed.

Lemma covered_observe c (a : answer c) g :
  covered g → allowed c g → covered (observe c a g).
Proof.
  unfold covered. destruct g as [h f]. intros Hcov Hal.
  destruct c; cbn in *; try done; repeat case_match; cbn; intros Hf;
    destruct_and?; simplify_eq; try lia; specialize (Hcov Hf); lia.
Qed.

Lemma task_ok_step c k (a : answer c) g :
  task_ok (Task (Op c k) g) → task_ok (Task (k a) (observe c a g)).
Proof.
  intros [Hcov [Hal Hk]]. split; [by apply covered_observe | apply Hk].
Qed.

Lemma permits_held_insert ts i t t' :
  ts !! i = Some t →
  sum_list (held ∘ obs <$> <[i := t']> ts) + held (obs t)
  = sum_list (held ∘ obs <$> ts) + held (obs t').
Proof.
  revert i. induction ts as [| t0 ts IH]; intros [| i] Hi; simplify_eq/=.
  - lia.
  - specialize (IH i Hi). lia.
Qed.

Lemma sched_step_balanced i s : balanced s → balanced (sched_step E i s).
Proof.
  intros [Hsum Hall]. unfold sched_step.
  destruct (tasks s !! i) as [t |] eqn:Hi; [| done].
  destruct t as [[r | c k] g]; [done |]. cbn [code obs].
  destruct (exec E i c (shared s)) as [[a w'] |] eqn:Hex; [| done].
  assert (task_ok (Task (Op c k) g)) as Hok
    by (eapply Forall_lookup_1 in Hall; eauto).
  split.
  - pose proof (exec_permits _ _ _ _ _ g Hex (proj1 (proj2 Hok))) as Hp.
    pose proof (permits_held_insert _ _ _ (Task (k a) (observe c a g)) Hi) as Hs.
    unfold permits_held in *. cbn [obs tasks shared] in *. lia.
  - apply Forall_insert; [done |]. by apply task_ok_step.
Qed.

Lemma run_schedule_balanced sched s :
  balanced s → balanced (run_schedule E sched s).
Proof.
  unfold run_schedule. revert s.
  induction sched as [| i sched IH]; intros s Hs; [done |].
  simpl. by apply IH, sched_step_balanced.
Qed.

Lemma start_balanced files dirs all_tracks :
  balanced (start files dirs all_tracks).
Proof.
  unfold balanced, start, permits_held, spawn. cbn [shared tasks permits fresh_world].
  assert (∀ (f : nat → nat) (l : list track),
            sum_list (held ∘ obs <$>
                        imap (λ i tr, Task (download_track tr (f i)) (Ghost 0 false)) l) = 0
            ∧ Forall task_ok
                (imap (λ i tr, Task (download_track tr (f i)) (Ghost 0 false)) l))
    as Haux.
  { intros f l. revert f. induction l as [| tr l IH]; intros f; [done |].
    cbn [imap fmap list_fmap sum_list_with].
    destruct (IH (f ∘ S)) as [IH1 IH2]. split.
    - cbn. exact IH1.
    - constructor; [| exact IH2].
      split; [done | apply download_track_obeys]. }
  destruct (Haux (λ i, i `mod` MAX_CONCURRENT_DOWNLOADS) all_tracks) as [-> ?].
  split; [lia | done].
Qed.

Lemma in_flight_le_held s :
  Forall task_ok (tasks s) → in_flight s ≤ permits_held s.
Proof.
  unfold in_flight, permits_held.
  induction 1 as [| t ts [Hcov _] _ IH]; [done |].
  rewrite filter_cons. cbn [fmap list_fmap sum_list_with compose].
  case_decide as Hf; cbn [length]; [| change (sum_list_with id (held ∘ obs <$> ts)) with (sum_list (held ∘ obs <$> ts)); lia].
  specialize (Hcov Hf). cbn. unfold compose in *. lia.
Qed.

(** C4.  At every point of every run of the pool (whatever the schedule,
    the failures and the answers of the server), the requests for a track
    body that are open are at most six; a task with such a request open
    holds a permit; the permits left and the permits held add up to six;
    and when no permit is left, [acquire] makes its caller wait. *)
Theorem limiter_bound files dirs all_tracks sched :
  let s := run_schedule E sched (start files dirs all_tracks) in
  in_flight s ≤ MAX_CONCURRENT_DOWNLOADS
  ∧ Forall (λ t, fetching (obs t) = true → 1 ≤ held (obs t)) (tasks s)
  ∧ permits (shared s) + permits_held s = MAX_CONCURRENT_DOWNLOADS
  ∧ (permits (shared s) = 0 → ∀ i, exec E i SemAcquire (shared s) = None).
Proof.
  intros s.
  destruct (run_schedule_balanced sched _ (start_balanced files dirs all_tracks))
    as [Hsum Hall]. fold s in Hsum, Hall.
  split_and!.
  - pose proof (in_flight_le_held s Hall). lia.
  - eapply Forall_impl; [exact Hall |]. by intros t [Hcov _].
  - done.
  - intros H0 i. unfold exec. cbn [react]. by rewrite H0.
Qed.

(** *** A worker on its own is one of the schedules *)

Lemma sched_step_exec i c k g (a : answer c) w w' ts :
  ts !! i = Some (Task (Op c k) g) → exec E i c w = Some (a, w') →
  sched_step E i (System w ts)
  = System w' (<[i := Task (k a) (observe c a g)]> ts).
Proof.
  intros Hi Hex. unfold sched_step. cbn [tasks shared]. rewrite Hi.
  cbn [code obs]. by rewrite Hex.
Qed.

Lemma solo_run_in_pool i p w r w' :
  run E i p w = Some (r, w') →
  ∀ ts g, ts !! i = Some (Task p g) →
    ∃ n g', run_schedule E (replicate n i) (System w ts)
            = System w' (<[i := Task (Ret r) g']> ts).
Proof.
  revert w. induction p as [r0 | c k IH]; intros w Hrun ts g Hi.
  - simpl in Hrun. injection Hrun as <- <-. exists 0, g. simpl.
    by rewrite list_insert_id.
  - simpl in Hrun. destruct (exec E i c w) as [[a w1] |] eqn:Hex; [| done].
    destruct (IH a w1 Hrun (<[i := Task (k a) (observe c a g)]> ts)
                (observe c a g)) as (n & g' & Hn).
    { apply list_lookup_insert_eq. by eapply lookup_lt_Some. }
    exists (S n), g'. unfold run_schedule in *. cbn [replicate foldl].
    rewrite (sched_step_exec _ _ _ _ _ _ _ _ Hi Hex), Hn.
    by rewrite list_insert_insert_eq.
Qed.

End Pool.

(** Three tracks of two artists on a healthy server, the tasks taking
    turns: three successes, one cover request per artist, and at the end no
    request open and all six permits back. *)
Example three_tracks_two_artists :
  let s := run_schedule healthy round_robin
             (start ∅ ∅ [track_one; track_two; track_three]) in
  outcomes s = [Some (Ok true); Some (Ok true); Some (Ok true)]
  ∧ cover_gets (trace (shared s)) = [cover_jpg; lit "http://host/covers/other.jpg"]
  ∧ (in_flight s, permits_held s, permits (shared s)) = (0, 0, 6)
  ∧ errors_log (shared s) = [].
Proof. split_and!; vm_compute; reflexivity. Qed.

(** ** A track that is already on disk, in the pool *)

Section Skip.

Context (E : env).
Implicit Types (w : world) (c : call) (s : system).

Lemma along_mono {R} A ok (Q Q' : R → Prop) (p : prog R) :
  along A ok Q p → (∀ r, Q r → Q' r) → along A ok Q' p.
Proof.
  induction p as [r | c k IH]; intros H HQ; simpl in *; [by apply HQ |].
  destruct H as [Hok Hk]. split; [done |]. intros a Ha. by eapply IH; eauto.
Qed.

Lemma along_bind {X Y} A ok (Q : Y → Prop) (m : prog X) (f : X → prog Y) :
  along A ok (λ a, along A ok Q (f a)) m → along A ok Q (m ≫= f).
Proof.
  unfold mbind, prog_bind.
  induction m as [a | c k IH]; intros H; simpl in *; [done |].
  destruct H as [Hok Hk]. split; [done |]. intros a Ha. by apply IH, Hk.
Qed.

Lemma along_and_then {X Y} A ok (Q : result Y → Prop)
    (m : prog (result X)) (f : X → prog (result Y)) :
  along A ok (λ r, match r with
                   | Ok a => along A ok Q (f a)
                   | Raise e => Q (Raise e)
                   end) m →
  along A ok Q (and_then m f).
Proof.
  intros H. apply along_bind. eapply along_mono; [exact H |].
  by intros [a | e] HQ.
Qed.

Lemma along_try_except {X} A ok (Q : result X → Prop)
    (body : prog (result X)) handler :
  along A ok (λ r, match r with
                   | Ok a => Q (Ok a)
                   | Raise e => along A ok Q (handler e)
                   end) body →
  along A ok Q (try_except body handler).
Proof.
  intros H. apply along_bind. eapply along_mono; [exact H |].
  by intros [a | e] HQ.
Qed.

Lemma along_call A ok c (Q : answer c → Prop) :
  ok c → (∀ a, A c a → Q a) → along A ok Q (call_ c).
Proof. intros Hok HQ. by split. Qed.

Ltac astep :=
  lazymatch goal with
  | |- along _ _ _ (Ret _) => cbn [along]
  | |- along _ _ _ (and_then _ _) => apply along_and_then
  | |- along _ _ _ (try_except _ _) => apply along_try_except
  | |- along _ _ _ (_ ≫= _) => apply along_bind
  | |- along _ _ _ (call_ _) =>
      apply along_call; [by split | intros ? ?]
  | |- along _ _ _ (with_response _ _ _ _) => unfold with_response
  | |- along _ _ _ (with_file _ _) => unfold with_file
  | |- along _ _ _ (with_cover_lock _) => unfold with_cover_lock
  | |- along _ _ _ (read_all _) => unfold read_all
  | |- along _ _ _ (if ?b then _ else _) => destruct b
  | |- along _ _ _ (match ?x with _ => _ end) => destruct x
  | |- match ?x with _ => _ end => destruct x
  end; cbn beta iota.

Lemma download_cover_along A name url :
  along A skips (λ r, r = Ok tt) (download_cover name url).
Proof.
  destruct url as [[| u rl] |]; [reflexivity | | reflexivity].
  unfold download_cover. repeat astep; try done.
  all: by repeat match goal with x : unit |- _ => destruct x end.
Qed.

Lemma cover_step_along A tr : along A skips (λ r, r = Ok tt) (cover_step tr).
Proof.
  unfold cover_step. repeat astep; try done.
  eapply along_mono; [apply download_cover_along |].
  intros r ->. repeat astep; done.
Qed.

Lemma download_track_along tr slot :
  along (on_disk (expected_filepath (singer_name tr) (title tr))
                 (artist_folder (singer_name tr)))
        skips (λ r, r = Ok true) (download_track tr slot).
Proof.
  unfold download_track, build_expected_filepath.
  astep. astep. apply along_call; [by split |]. intros a Ha.
  rewrite (Ha eq_refl). cbn beta iota. astep. astep.
  apply along_call; [by split |]. intros b Hb.
  rewrite (Hb eq_refl). cbn beta iota. astep.
  eapply along_mono; [apply cover_step_along |].
  intros r ->. by astep.
Qed.

Lemma exec_grows j c w a w' :
  exec E j c w = Some (a, w') →
  files w ⊆ files w' ∧ dirs w ⊆ dirs w'
  ∧ trace w' = trace w ++ [Event j c (raised_of c a)].
Proof.
  unfold exec. destruct (react E j c w) as [[a0 w0] |] eqn:Hre; [| done].
  intros [= <- <-].
  destruct c; cbn in Hre; unfold fallible in Hre;
    repeat case_match; simplify_eq; cbn; split_and!; try done;
    apply union_subseteq_r.
Qed.

Lemma exec_on_disk fp folder j c w a w' :
  fp ∈ files w → folder ∈ dirs w →
  exec E j c w = Some (a, w') → on_disk fp folder c a.
Proof.
  intros Hfp Hfolder. unfold exec.
  destruct (react E j c w) as [[a0 w0] |] eqn:Hre; [| done].
  intros [= <- <-]. destruct c; try done; cbn in Hre |- *; intros ->.
  - by rewrite bool_decide_eq_true_2 in Hre by done; simplify_eq.
  - simplify_eq. apply bool_decide_eq_true_2. by left.
Qed.

Lemma sched_step_skipping i fp folder j s :
  skipping i fp folder s → skipping i fp folder (sched_step E j s).
Proof.
  intros (Hfp & Hfolder & (t & Ht & Halong) & Htrace). unfold sched_step.
  destruct (tasks s !! j) as [[[r | c k] g] |] eqn:Hj; cbn [code obs];
    [by repeat split; eauto | | by repeat split; eauto].
  destruct (exec E j c (shared s)) as [[a w'] |] eqn:Hex;
    [| by repeat split; eauto].
  destruct (exec_grows _ _ _ _ _ Hex) as (Hf & Hd & Htr).
  pose proof (exec_on_disk _ _ _ _ _ _ _ Hfp Hfolder Hex) as Hans.
  cbn [shared tasks]. split_and!; [by apply Hf | by apply Hd | |].
  - destruct (decide (i = j)) as [<- | Hne].
    + rewrite Ht in Hj. injection Hj as ->. cbn in Halong.
      eexists. cbn [tasks].
      split; [apply list_lookup_insert_eq; by eapply lookup_lt_Some |].
      by apply Halong.
    + exists t. cbn [tasks]. by rewrite list_lookup_insert_ne.
  - cbn [shared]. rewrite Htr. apply Forall_app. split; [done |].
    apply Forall_cons_2; [| apply Forall_nil_2]. cbn. intros <-.
    rewrite Ht in Hj. injection Hj as ->. by destruct Halong.
Qed.

Lemma run_schedule_skipping i fp folder sched s :
  skipping i fp folder s → skipping i fp folder (run_schedule E sched s).
Proof.
  unfold run_schedule. revert s.
  induction sched as [| j sched IH]; intros s Hs; [done |].
  simpl. by apply IH, sched_step_skipping.
Qed.

(** In every run of the pool, a track whose file and folder are on disk
    at the start is never requested, its task takes no permit, and when
    the task is finished its result is [True]. *)
Lemma skipped_in_every_schedule files dirs all_tracks sched i tr :
  all_tracks !! i = Some tr →
  expected_filepath (singer_name tr) (title tr) ∈ files →
  artist_folder (singer_name tr) ∈ dirs →
  let s := run_schedule E sched (start files dirs all_tracks) in
  Forall (λ ev, ev_task ev = i → skips (ev_call ev)) (trace (shared s))
  ∧ ∀ r, outcomes s !! i = Some (Some r) → r = Ok true.
Proof.
  intros Hi Hfp Hfolder s.
  assert (skipping i (expected_filepath (singer_name tr) (title tr))
            (artist_folder (singer_name tr)) s) as (_ & _ & (t & Ht & Ha) & Htr).
  { apply run_schedule_skipping. split_and!; [done | done | | done].
    eexists. split; [unfold start, spawn; cbn [tasks];
                     by rewrite list_lookup_imap, Hi |].
    apply download_track_along. }
  split; [done |]. intros r. unfold outcomes.
  rewrite list_lookup_fmap, Ht. cbn. destruct (code t); [| done].
  intros [= <-]. exact Ha.
Qed.

End Skip.

(** ** The registry of covers *)

Section Registry.

Context (E : env).



End Registry.

(** C1, failing input.  Two tracks of one artist, a server that has the
    audio but answers 404 for the cover: both workers return [True], and the
    cover is requested twice, whether the tasks run one after the other or
    take turns; the registry is empty at the end. *)
Theorem cover_requested_twice :
  let s := run_schedule cover_missing one_after_the_other
             (start ∅ ∅ [track_one; track_two]) in
  let s' := run_schedule cover_missing taking_turns
              (start ∅ ∅ [track_one; track_two]) in
  outcomes s = [Some (Ok true); Some (Ok true)]
  ∧ cover_gets (trace (shared s)) = [cover_jpg; cover_jpg]
  ∧ outcomes s' = [Some (Ok true); Some (Ok true)]
  ∧ cover_gets (trace (shared s')) = [cover_jpg; cover_jpg]
  ∧ downloaded_covers (shared s) = ∅
  ∧ downloaded_covers (shared s') = ∅.
Proof.
  split_and!; vm_compute; reflexivity.
Qed.

(** When the server has the cover, the second worker finds the file of the
    first and does not ask again. *)
Example cover_requested_once :
  let s := run_schedule healthy one_after_the_other
             (start ∅ ∅ [track_one; track_two]) in
  outcomes s = [Some (Ok true); Some (Ok true)]
  ∧ cover_gets (trace (shared s)) = [cover_jpg].
Proof. split; vm_compute; reflexivity. Qed.

(** ** Protocols that every run of the pool follows *)

Section Protocol.

Context (E : env) {G : Type} (ok : call → G → Prop) (next : call → G → G).
Implicit Types (g : G) (c : call) (s : system).

Lemma follows_mono {R} (p : prog R) g (Q Q' : R → G → Prop) :
  follows ok next p g Q → (∀ r g', Q r g' → Q' r g') → follows ok next p g Q'.
Proof.
  revert g. induction p as [r | c k IH]; intros g H HQ; simpl in *.
  - by apply HQ.
  - destruct H as [Ha Hk]. split; [done |]. intros a. by eapply IH.
Qed.

Lemma follows_bind {A B} (m : prog A) (f : A → prog B) g Q :
  follows ok next m g (λ a g', follows ok next (f a) g' Q) →
  follows ok next (m ≫= f) g Q.
Proof.
  unfold mbind, prog_bind. revert g.
  induction m as [a | c k IH]; intros g H; simpl in *; [done |].
  destruct H as [Ha Hk]. split; [done |]. intros a. by apply IH.
Qed.

Lemma follows_and_then {A B} (m : prog (result A)) (f : A → prog (result B)) g Q :
  follows ok next m g (λ r g', match r with
                               | Ok a => follows ok next (f a) g' Q
                               | Raise e => Q (Raise e) g'
                               end) →
  follows ok next (and_then m f) g Q.
Proof.
  intros H. apply follows_bind. eapply follows_mono; [exact H |].
  by intros [a | e] g' HQ.
Qed.

Lemma follows_try_except {A} (body : prog (result A)) handler g Q :
  follows ok next body g (λ r g', match r with
                                  | Ok a => Q (Ok a) g'
                                  | Raise e => follows ok next (handler e) g' Q
                                  end) →
  follows ok next (try_except body handler) g Q.
Proof.
  intros H. apply follows_bind. eapply follows_mono; [exact H |].
  by intros [a | e] g' HQ.
Qed.

Lemma follows_call c g (Q : answer c → G → Prop) :
  ok c g → (∀ a, Q a (next c g)) → follows ok next (call_ c) g Q.
Proof. intros Ha HQ. by split. Qed.

Lemma stance_snoc i g tr ev :
  stance next i g (tr ++ [ev])
  = if bool_decide (ev_task ev = i) then next (ev_call ev) (stance next i g tr)
    else stance next i g tr.
Proof. unfold stance. by rewrite foldl_snoc. Qed.

Lemma exec_trace j c w a w' :
  exec E j c w = Some (a, w') →
  trace w' = trace w ++ [Event j c (raised_of c a)].
Proof.
  unfold exec. destruct (react E j c w) as [[a0 w0] |] eqn:Hre; [| done].
  intros [= <- <-].
  destruct c; cbn in Hre; unfold fallible in Hre;
    repeat case_match; by simplify_eq.
Qed.

Lemma stance_stranger i g tr :
  Forall (λ ev, ev_task ev ≠ i) tr → stance next i g tr = g.
Proof.
  induction tr as [| ev tr IH] using rev_ind; [done |].
  intros [Htr Hev]%Forall_app. rewrite Forall_singleton in Hev.
  rewrite stance_snoc. rewrite bool_decide_eq_false_2 by exact Hev.
  by apply IH.
Qed.

Section Invariant.

Context (init : G) (Q Inv : G → Prop).
Hypothesis Inv_next : ∀ c g, Inv g → ok c g → Inv (next c g).

Lemma sched_step_on_track j s :
  on_track ok next init Q Inv s → on_track ok next init Q Inv (sched_step E j s).
Proof.
  intros (Hall & Hinv & Hev). unfold sched_step.
  destruct (tasks s !! j) as [[[r | c k] g] |] eqn:Hj; cbn [code obs];
    [done | | done].
  destruct (exec E j c (shared s)) as [[a w'] |] eqn:Hex; [| done].
  pose proof (exec_trace _ _ _ _ _ Hex) as Htr.
  pose proof (lookup_lt_Some _ _ _ Hj) as Hlt.
  pose proof (Hall j _ Hj) as Hj'. cbn in Hj'. destruct Hj' as [Hok Hk].
  split_and!; cbn [shared tasks].
  - intros i t. rewrite Htr, stance_snoc. cbn [ev_task ev_call].
    destruct (decide (i = j)) as [-> | Hne].
    + rewrite list_lookup_insert_eq by done. intros [= <-].
      rewrite bool_decide_eq_true_2 by done. apply Hk.
    + rewrite list_lookup_insert_ne by done.
      rewrite bool_decide_eq_false_2 by done. apply Hall.
  - intros i. rewrite Htr, stance_snoc. cbn [ev_task ev_call].
    case_bool_decide as Hi; [| apply Hinv].
    subst i. by apply Inv_next.
  - rewrite Htr, length_insert. apply Forall_app. split; [done |].
    by apply Forall_singleton.
Qed.

Lemma run_schedule_on_track sched s :
  on_track ok next init Q Inv s →
  on_track ok next init Q Inv (run_schedule E sched s).
Proof.
  unfold run_schedule. revert s.
  induction sched as [| j sched IH]; intros s Hs; [done |].
  simpl. by apply IH, sched_step_on_track.
Qed.

Lemma start_on_track files dirs all_tracks :
  Inv init →
  (∀ tr slot, follows ok next (download_track tr slot) init (λ _ g, Q g)) →
  on_track ok next init Q Inv (start files dirs all_tracks).
Proof.
  intros Hinit Hcode. split_and!; [| done | by apply Forall_nil_2].
  intros i t. unfold start, spawn. cbn [tasks shared trace fresh_world].
  rewrite list_lookup_imap.
  destruct (all_tracks !! i) as [tr |]; [| done].
  intros [= <-]. apply Hcode.
Qed.

End Invariant.

End Protocol.

(** Symbolic execution for [follows]; [side] proves that a call is [ok]. *)
Ltac fstep side :=
  lazymatch goal with
  | |- follows _ _ (Ret _) _ _ => cbn [follows]
  | |- follows _ _ (and_then _ _) _ _ => apply follows_and_then
  | |- follows _ _ (try_except _ _) _ _ => apply follows_try_except
  | |- follows _ _ (_ ≫= _) _ _ => apply follows_bind
  | |- follows _ _ (call_ ?c) ?g _ =>
      apply (follows_call _ _ c g); [side | intros ?]
  | |- follows _ _ (with_response _ _ _ _) _ _ => unfold with_response
  | |- follows _ _ (with_file _ _) _ _ => unfold with_file
  | |- follows _ _ (with_semaphore _) _ _ => unfold with_semaphore
  | |- follows _ _ (with_cover_lock _) _ _ => unfold with_cover_lock
  | |- follows _ _ (read_all _) _ _ => unfold read_all
  | |- follows _ _ (if ?b then _ else _) _ _ => destruct b
  | |- follows _ _ (match ?x with _ => _ end) _ _ => destruct x
  | |- match ?x with _ => _ end => destruct x
  end; cbn beta iota.

(** *** At most one request for the body and one for the cover *)

Section Budget.

Context (E : env).

Ltac first_req :=
  unfold first_request; cbn [is_body_get is_cover_request fst snd];
  by split.

Ltac bstep := fstep first_req; cbn [count_request is_body_get is_cover_request fst snd].

Lemma download_cover_budget name url b :
  follows first_request count_request (download_cover name url) (b, 0)
    (λ _ g, g.1 = b).
Proof.
  destruct url as [[| u rl] |]; [done | | done].
  unfold download_cover. repeat bstep; done.
Qed.

Lemma cover_step_budget tr b :
  follows first_request count_request (cover_step tr) (b, 0) (λ _ g, g.1 = b).
Proof.
  unfold cover_step. repeat bstep; [| done].
  eapply follows_mono; [apply download_cover_budget |].
  intros r [b' n] Hb. cbn in Hb. subst b'. by repeat bstep.
Qed.

Lemma write_id3_tags_budget filepath artist title source_url g :
  follows first_request count_request
    (write_id3_tags filepath artist title source_url) g (λ _ _, True).
Proof. unfold write_id3_tags. repeat bstep; done. Qed.

Lemma stream_chunks_budget filepath slot chunks err g :
  follows first_request count_request (stream_chunks filepath slot chunks err) g
    (λ _ g', g' = g).
Proof.
  destruct g as [b n].
  induction chunks as [| chunk rest IH]; cbn [stream_chunks].
  - repeat bstep; done.
  - repeat bstep; by try apply IH.
Qed.

Lemma download_track_budget tr slot :
  follows first_request count_request (download_track tr slot) (0, 0)
    (λ _ _, True).
Proof.
  unfold download_track, build_expected_filepath. repeat bstep; try done.
  - eapply follows_mono; [apply cover_step_budget |].
    intros r g _. by repeat bstep.
  - unfold fetch_body. repeat bstep; try done.
    eapply follows_mono; [apply stream_chunks_budget |].
    intros r g ->. repeat bstep; try done.
    eapply follows_mono; [apply cover_step_budget |].
    intros r g _. repeat bstep; try done.
    eapply follows_mono; [apply write_id3_tags_budget |].
    intros r' g' _. by repeat bstep.
Qed.

Lemma requests_of_calls i tr :
  requests_of i tr = (calls_of i is_body_get tr, calls_of i is_cover_request tr).
Proof.
  unfold requests_of, calls_of.
  induction tr as [| ev tr IH] using rev_ind; [done |].
  rewrite stance_snoc, IH, !filter_app, !length_app.
  rewrite !filter_cons, !filter_nil.
  unfold count_request. cbn [fst snd].
  case_bool_decide as Hi.
  - destruct (is_body_get (ev_call ev)), (is_cover_request (ev_call ev));
      repeat case_decide; destruct_and?; try done;
      try (exfalso; naive_solver); cbn [length]; f_equal; lia.
  - repeat case_decide; destruct_and?; try done. cbn [length]. f_equal; lia.
Qed.

(** X16.  In every run of the pool, whatever the schedule, the failures
    and the answers, a task sends at most one request for the body of its
    track and at most one request for a cover: nothing is retried. *)
Theorem one_request_each files dirs all_tracks sched i :
  let s := run_schedule E sched (start files dirs all_tracks) in
  calls_of i is_body_get (trace (shared s)) ≤ 1
  ∧ calls_of i is_cover_request (trace (shared s)) ≤ 1.
Proof.
  intros s.
  assert (on_track first_request count_request (0, 0) (λ _, True)
            (λ g, g.1 ≤ 1 ∧ g.2 ≤ 1) s) as (_ & Hinv & _).
  { apply run_schedule_on_track.
    - intros c [b n] [Hb Hn] [Hfb Hfn]. unfold count_request. cbn [fst snd] in *.
      destruct (is_body_get c), (is_cover_request c); split;
        try done; try (rewrite Hfb by done; lia); try (rewrite Hfn by done; lia).
    - apply start_on_track; [cbn; lia | apply download_track_budget]. }
  specialize (Hinv i). fold (requests_of i (trace (shared s))) in Hinv.
  by rewrite requests_of_calls in Hinv.
Qed.

End Budget.

(** *** The semaphore and the cover lock *)

Section Discipline.

Context (E : env).
Implicit Types (w : world) (c : call) (s : system) (g : stand).

Lemma is_cover_file_track (name title : pystr) :
  is_cover_file (expected_filepath name title) = false.
Proof.
  destruct (expected_filepath_ends name title) as [x ->].
  unfold is_cover_file, ends_with. by rewrite rev_app_distr.
Qed.

Ltac may_side :=
  cbn [may in_section permit lock];
  rewrite ?is_cover_file_track;
  first [done | by split | by intros _].

Ltac dstep := fstep may_side; cbn [move permit lock].

Lemma download_cover_may name url p :
  follows may move (download_cover name url) (Stand p true)
    (λ _ g, g = Stand p true).
Proof.
  destruct url as [[| u rl] |]; [done | | done].
  unfold download_cover. repeat dstep; done.
Qed.

Lemma cover_step_may tr p :
  follows may move (cover_step tr) (Stand p false) (λ _ g, g = Stand p false).
Proof.
  unfold cover_step. repeat dstep; [| done].
  eapply follows_mono; [apply download_cover_may |].
  intros r g ->. by repeat dstep.
Qed.

Lemma write_id3_tags_may filepath artist title source_url g :
  follows may move (write_id3_tags filepath artist title source_url) g
    (λ _ g', g' = g).
Proof. destruct g. unfold write_id3_tags. repeat dstep; done. Qed.

Lemma stream_chunks_may filepath slot chunks err g :
  is_cover_file filepath = false →
  follows may move (stream_chunks filepath slot chunks err) g (λ _ g', g' = g).
Proof.
  intros Hfp. destruct g as [p l].
  induction chunks as [| chunk rest IH]; cbn [stream_chunks].
  - repeat dstep; done.
  - dstep. dstep. dstep.
    apply follows_call; [cbn [may in_section]; by rewrite Hfp |].
    intros [[] | e]; cbn beta iota; [| done]. repeat dstep. apply IH.
Qed.

Lemma download_track_may tr slot :
  follows may move (download_track tr slot) at_rest (λ _ g, g = at_rest).
Proof.
  unfold download_track, build_expected_filepath, at_rest.
  repeat dstep; try done.
  - eapply follows_mono; [apply cover_step_may |].
    intros r g ->. by repeat dstep.
  - unfold fetch_body. repeat dstep; try done.
    eapply follows_mono; [apply stream_chunks_may, is_cover_file_track |].
    intros r g ->. repeat dstep; try done.
    eapply follows_mono; [apply cover_step_may |].
    intros r g ->. repeat dstep; try done.
    eapply follows_mono; [apply write_id3_tags_may |].
    intros r' g' ->. by repeat dstep.
Qed.

Lemma lock_holder_snoc tr ev :
  lock_holder (tr ++ [ev]) = lock_step (lock_holder tr) ev.
Proof. unfold lock_holder. by rewrite foldl_snoc. Qed.

Lemma exclusive_snoc tr ev :
  exclusive tr →
  (in_section (ev_call ev) = true → lock_holder tr = Some (ev_task ev)) →
  exclusive (tr ++ [ev]).
Proof.
  intros Htr Hev pre e post Heq Hin.
  destruct post as [| x post _] using rev_ind.
  - apply app_inj_tail in Heq as [<- <-]. by apply Hev.
  - rewrite app_comm_cons, app_assoc in Heq.
    apply app_inj_tail in Heq as [-> <-]. by eapply Htr.
Qed.

Lemma exec_cover_locked j c w a w' :
  exec E j c w = Some (a, w') →
  match c with
  | CoverLockAcquire => cover_locked w = false ∧ cover_locked w' = true
  | CoverLockRelease => cover_locked w' = false
  | _ => cover_locked w' = cover_locked w
  end.
Proof.
  unfold exec. destruct (react E j c w) as [[a0 w0] |] eqn:Hre; [| done].
  intros [= <- <-].
  destruct c; cbn in Hre; unfold fallible in Hre;
    repeat case_match; by simplify_eq.
Qed.

Lemma held_observe c (a : answer c) (g0 : ghost) g :
  may c g → held g0 = (if permit g then 1 else 0) →
  held (observe c a g0) = if permit (move c g) then 1 else 0.
Proof.
  intros Hmay Hheld.
  destruct c; cbn in *; try done; repeat case_match; cbn;
    destruct_and?; simplify_eq; try done; try lia.
Qed.

Lemma sched_step_orderly j s : orderly s → orderly (sched_step E j s).
Proof.
  intros (Htrack & Hheld & Hlock & Hcl & Hexcl).
  pose proof (sched_step_on_track E may move at_rest _ _ (λ _ _ _ _, I) j s
                Htrack) as Htrack'.
  unfold orderly. revert Htrack'. unfold sched_step.
  destruct (tasks s !! j) as [[[r | c k] g0] |] eqn:Hj; cbn [code obs];
    [done | | done].
  destruct (exec E j c (shared s)) as [[a w'] |] eqn:Hex; [| done].
  intros Htrack'.
  pose proof (exec_trace _ _ _ _ _ _ Hex) as Htr.
  pose proof (exec_cover_locked _ _ _ _ _ Hex) as Hcov.
  pose proof (lookup_lt_Some _ _ _ Hj) as Hlt.
  destruct Htrack as (Hall & _ & _).
  pose proof (Hall j _ Hj) as Hj'. cbn in Hj'. destruct Hj' as [Hmay _].
  set (g := stance move j at_rest (trace (shared s))) in *.
  cbn [shared tasks]. rewrite Htr.
  split_and!; [done | | | |].
  - intros i t. rewrite stance_snoc. cbn [ev_task ev_call].
    destruct (decide (i = j)) as [-> | Hne].
    + rewrite list_lookup_insert_eq by done. intros [= <-].
      rewrite bool_decide_eq_true_2 by done. cbn [obs].
      apply held_observe; [done |]. by apply (Hheld j _ Hj).
    + rewrite list_lookup_insert_ne by done.
      rewrite bool_decide_eq_false_2 by done. apply Hheld.
  - intros i. rewrite stance_snoc, lock_holder_snoc.
    unfold lock_step. cbn [ev_task ev_call].
    pose proof (Hlock i) as Hi. pose proof (Hlock j) as Hjl. fold g in Hjl.
    rewrite Hcl in Hcov.
    destruct (decide (j = i)) as [<- | Hne].
    + rewrite (bool_decide_eq_true_2 (j = j)) by done. fold g.
      destruct c; cbn in Hmay, Hcov |- *; destruct_and?;
        try done; try (by rewrite bool_decide_eq_true_2).
    + rewrite (bool_decide_eq_false_2 (j = i)) by done.
      destruct c; cbn in Hmay, Hcov |- *; destruct_and?; try done.
      * rewrite Hi. apply bool_decide_eq_false_1 in H.
        rewrite !bool_decide_eq_false_2; [done | congruence |].
        intros Heq. apply H. by rewrite Heq.
      * rewrite Hi. rewrite Hmay in Hjl. symmetry in Hjl.
        apply bool_decide_eq_true_1 in Hjl.
        rewrite !bool_decide_eq_false_2; [done | done | congruence].
  - rewrite lock_holder_snoc. unfold lock_step. cbn [ev_task ev_call].
    destruct c; cbn in Hcov |- *; destruct_and?; congruence.
  - apply exclusive_snoc; [done |]. cbn [ev_task ev_call]. intros Hin.
    pose proof (Hlock j) as Hjl. fold g in Hjl.
    assert (lock g = true) as Hl
      by (destruct c; cbn in Hmay, Hin; try done; by apply Hmay).
    rewrite Hl in Hjl. symmetry in Hjl. by apply bool_decide_eq_true_1 in Hjl.
Qed.

Lemma run_schedule_orderly sched s :
  orderly s → orderly (run_schedule E sched s).
Proof.
  unfold run_schedule. revert s.
  induction sched as [| j sched IH]; intros s Hs; [done |].
  simpl. by apply IH, sched_step_orderly.
Qed.

Lemma start_orderly files dirs all_tracks :
  orderly (start files dirs all_tracks).
Proof.
  split_and!.
  - apply start_on_track; [done | apply download_track_may].
  - intros i t. unfold start, spawn. cbn [tasks shared trace fresh_world].
    rewrite list_lookup_imap.
    destruct (all_tracks !! i) as [tr |]; [| done]. by intros [= <-].
  - done.
  - done.
  - intros pre ev post Heq. by destruct pre.
Qed.

Lemma reachable_orderly files dirs all_tracks sched :
  orderly (run_schedule E sched (start files dirs all_tracks)).
Proof. apply run_schedule_orderly, start_orderly. Qed.

(** A task that holds the cover lock, or a permit, is not finished, and
    its next call is not one that waits for what it holds. *)
Lemma holder_stance s i :
  orderly s → stance move i at_rest (trace (shared s)) ≠ at_rest →
  ∃ t c k, tasks s !! i = Some t ∧ code t = Op c k
           ∧ may c (stance move i at_rest (trace (shared s))).
Proof.
  intros ((Hall & _ & Hev) & _) Hne.
  destruct (tasks s !! i) as [[[r | c k] g0] |] eqn:Hi.
  - specialize (Hall i _ Hi). cbn in Hall. done.
  - specialize (Hall i _ Hi). cbn in Hall. destruct Hall as [Hmay _].
    by eexists _, c, k.
  - exfalso. apply Hne. apply stance_stranger.
    apply lookup_ge_None in Hi. eapply Forall_impl; [exact Hev |].
    intros ev Hlt. cbn in Hlt. lia.
Qed.

Lemma exec_ready j c w :
  (c = SemAcquire → permits w ≠ 0) →
  (c = CoverLockAcquire → cover_locked w = false) →
  is_Some (exec E j c w).
Proof.
  intros Hsem Hlock. unfold exec.
  destruct c; cbn; unfold fallible; repeat case_match; try done;
    try (by eexists).
  - by specialize (Hsem eq_refl).
  - by specialize (Hlock eq_refl).
Qed.

(** X17.  When all tasks of a run of the pool are finished, all six
    permits are back, the cover lock is free and no request for a track
    body is open, whatever happened on the way. *)
Theorem pool_ends_clean files dirs all_tracks sched :
  let s := run_schedule E sched (start files dirs all_tracks) in
  Forall finished (tasks s) →
  permits (shared s) = MAX_CONCURRENT_DOWNLOADS
  ∧ cover_locked (shared s) = false
  ∧ in_flight s = 0.
Proof.
  intros s Hfin.
  pose proof (reachable_orderly files dirs all_tracks sched) as Hord.
  destruct (run_schedule_balanced E sched _ (start_balanced files dirs all_tracks))
    as [Hsum Hok].
  fold s in Hord, Hsum, Hok.
  assert (Forall (λ t, idle (obs t)) (tasks s)) as Hidle.
  { apply Forall_forall. intros t Ht.
    rewrite Forall_forall in Hfin, Hok.
    destruct (Hfin t Ht) as [r Hr]. destruct (Hok t Ht) as [_ Hob].
    by rewrite Hr in Hob. }
  split_and!.
  - assert (permits_held s = 0) as Hz; [| lia].
    unfold permits_held. clear -Hidle.
    induction Hidle as [| t ts [Hh _] _ IH]; [done |].
    change (sum_list (held ∘ obs <$> t :: ts))
      with (held (obs t) + sum_list (held ∘ obs <$> ts)).
    by rewrite Hh, IH.
  - pose proof Hord as (Htrack & _ & Hlock & Hcl & _). rewrite Hcl.
    apply bool_decide_eq_false_2. intros [i Hi].
    destruct (holder_stance s i Hord) as (t & c & k & Ht & Hc & _).
    { intros Heq. specialize (Hlock i). rewrite Heq, Hi in Hlock.
      by rewrite bool_decide_eq_true_2 in Hlock. }
    rewrite Forall_forall in Hfin.
    destruct (Hfin t) as [r Hr]; [by eapply list_elem_of_lookup_2 |].
    congruence.
  - unfold in_flight. clear -Hidle.
    induction Hidle as [| t ts [_ Hf] _ IH]; [done |].
    rewrite filter_cons_False; [exact IH |]. by rewrite Hf.
Qed.

(** X18.  In every run of the pool the cover sections of the tasks do
    not overlap: each test of the registry, each request for a cover and
    read of its body, each log entry about a cover, and each test, open,
    write or close of a cover file is made by the task that holds the
    cover lock at that point. *)
Theorem cover_sections_exclusive files dirs all_tracks sched :
  exclusive (trace (shared (run_schedule E sched (start files dirs all_tracks)))).
Proof.
  by destruct (reachable_orderly files dirs all_tracks sched)
    as (_ & _ & _ & _ & H).
Qed.

Lemma some_holder (ts : list task) :
  0 < sum_list (held ∘ obs <$> ts) →
  ∃ i t, ts !! i = Some t ∧ 0 < held (obs t).
Proof.
  induction ts as [| t ts IH]; [cbn; lia |].
  change (sum_list (held ∘ obs <$> t :: ts))
    with (held (obs t) + sum_list (held ∘ obs <$> ts)).
  intros Hsum.
  destruct (decide (0 < held (obs t))) as [Hpos | Hz].
  - by exists 0, t.
  - destruct IH as (i & t' & Hi & Hpos); [lia |]. by exists (S i), t'.
Qed.

(** X19.  The pool cannot get stuck: at every point of every run, as long
    as some task is not finished there is a task whose next call does not
    have to wait.  (The task that holds the cover lock never waits; when
    the lock is free a task that holds a permit never waits; and when both
    a permit and the lock are free nobody waits.) *)
Theorem pool_never_stuck files dirs all_tracks sched :
  let s := run_schedule E sched (start files dirs all_tracks) in
  ¬ Forall finished (tasks s) → ∃ i, can_run E i s.
Proof.
  intros s Hnot.
  pose proof (reachable_orderly files dirs all_tracks sched) as Hord.
  destruct (run_schedule_balanced E sched _ (start_balanced files dirs all_tracks))
    as [Hsum _].
  fold s in Hord, Hsum.
  pose proof Hord as (Htrack & Hheld & Hlock & Hcl & _).
  destruct (lock_holder (trace (shared s))) as [h |] eqn:Hh.
  - (* the holder of the cover lock can go on *)
    destruct (holder_stance s h Hord) as (t & c & k & Ht & Hc & Hmay).
    { intros Heq. specialize (Hlock h). rewrite Heq in Hlock.
      by rewrite bool_decide_eq_true_2 in Hlock. }
    exists h, t, c, k. split_and!; [done | done |].
    assert (lock (stance move h at_rest (trace (shared s))) = true) as Hl.
    { rewrite Hlock. by apply bool_decide_eq_true_2. }
    apply exec_ready; intros ->; cbn in Hmay; destruct_and?; congruence.
  - assert (cover_locked (shared s) = false) as Hfree.
    { rewrite Hcl. apply bool_decide_eq_false_2. by intros [? ?]. }
    destruct (decide (permits (shared s) = 0)) as [Hzero | Hpos].
    + (* no permit left: a task that holds one can go on *)
      destruct (some_holder (tasks s)) as (i & t & Hi & Hpos).
      { unfold permits_held, MAX_CONCURRENT_DOWNLOADS in Hsum. lia. }
      destruct (holder_stance s i Hord) as (t' & c & k & Ht & Hc & Hmay).
      { intros Heq. specialize (Hheld i t Hi). rewrite Heq in Hheld.
        cbn in Hheld. lia. }
      exists i, t', c, k. split_and!; [done | done |].
      assert (permit (stance move i at_rest (trace (shared s))) = true) as Hp.
      { specialize (Hheld i t Hi).
        destruct (permit (stance move i at_rest (trace (shared s)))); [done | lia]. }
      apply exec_ready; [| done].
      intros ->. cbn in Hmay. destruct_and?; congruence.
    + (* a permit and the lock are free: any unfinished task can go on *)
      apply not_Forall_Exists in Hnot;
        [| intros t; unfold finished; destruct (code t);
           [left; by eexists | right; by intros [? ?]]].
      apply Exists_exists in Hnot as (t & Hin & Hun).
      apply list_elem_of_lookup_1 in Hin as [i Hi].
      destruct (code t) as [r | c k] eqn:Hc; [exfalso; apply Hun; by eexists |].
      exists i, t, c, k. split_and!; [done | done |]. by apply exec_ready.
Qed.

End Discipline.

(** *** The registry of covers stays empty *)


(** *** The same on sample data *)

Lemma pool_ends_clean_witness :
  let s := run_schedule healthy round_robin
             (start ∅ ∅ [track_one; track_two; track_three]) in
  Forall finished (tasks s)
  ∧ permits (shared s) = MAX_CONCURRENT_DOWNLOADS
  ∧ cover_locked (shared s) = false
  ∧ in_flight s = 0.
Proof.
  intros s.
  assert (Forall finished (tasks s)) as Hfin.
  { vm_compute. repeat constructor; by eexists. }
  split; [exact Hfin |].
  exact (pool_ends_clean healthy ∅ ∅ [track_one; track_two; track_three]
           round_robin Hfin).
Defined.

Lemma pool_never_stuck_witness :
  let s := run_schedule healthy [0; 1; 0; 0] (start ∅ ∅ [track_one; track_two]) in
  ¬ Forall finished (tasks s) ∧ ∃ i, can_run healthy i s.
Proof.
  intros s.
  assert (¬ Forall finished (tasks s)) as Hnot.
  { intros H. apply Forall_cons_1 in H as [[r Hr] _].
    vm_compute in Hr. discriminate. }
  split; [exact Hnot |].
  exact (pool_never_stuck healthy ∅ ∅ [track_one; track_two] [0; 1; 0; 0] Hnot).
Defined.

(** Twice the same track, the tasks taking turns: both find the path free,
    both request the body and both write the same file. *)
Example same_track_twice :
  let s := run_schedule healthy taking_turns (start ∅ ∅ [track_one; track_one]) in
  outcomes s = [Some (Ok true); Some (Ok true)]
  ∧ calls_of 0 is_body_get (trace (shared s)) = 1
  ∧ calls_of 1 is_body_get (trace (shared s)) = 1
  ∧ written (lit "tarat_tracks/Artist/Artist - One.mp3") (trace (shared s))
    = [[Byte.x49; Byte.x44]; [Byte.x49; Byte.x44]; [Byte.x33]; [Byte.x33]].
Proof. split_and!; vm_compute; reflexivity. Qed.

(** ** The result loop of [main] *)

Section Orchestrator.

Implicit Types (o : result bool) (os : list (result bool)) (t : tally).

Lemma collect_from t os :
  let t' := foldl collect_one t os in
  success_count t' = success_count t + successes os
  ∧ pbar_main t' = pbar_main t + length os
  ∧ task_log t' = task_log t ++ (LogTaskException <$> escaped os).
Proof.
  revert t. induction os as [| o os IH]; intros t; cbn [foldl].
  - unfold successes, escaped. cbn. rewrite app_nil_r.
    split_and!; (lia || done).
  - destruct (IH (collect_one t o)) as (H1 & H2 & H3).
    rewrite H1, H2, H3. unfold successes, escaped.
    destruct o as [[] | e]; cbn [collect_one success_count pbar_main task_log];
      rewrite ?filter_cons_True, ?filter_cons_False by done; cbn;
      rewrite <- ?app_assoc; split_and!; (lia || done).
Qed.

(** C5.  Whatever each worker did (returned [True], returned [False] or
    let an exception escape, an instance of [Exception], which is what the
    loop catches) and in whatever order the workers finish, the
    loop takes every result: the main bar advances once per track, each
    escaped exception gives one entry in the log and no success, and the
    summary is (the number of workers that returned [True], the number of
    tracks). *)
Theorem batch_never_aborts (os completed : list (result bool)) :
  completed ≡ₚ os →
  success_count (collect completed) = successes os
  ∧ pbar_main (collect completed) = length os
  ∧ task_log (collect completed) ≡ₚ LogTaskException <$> escaped os
  ∧ summary (length os) completed = (successes os, length os).
Proof.
  intros Hperm. unfold summary, collect.
  destruct (collect_from (Tally 0 0 []) completed) as (H1 & H2 & H3).
  cbn in H1, H2, H3. rewrite H1, H2, H3. unfold successes, escaped.
  by rewrite Hperm.
Qed.

End Orchestrator.

Lemma batch_never_aborts_witness :
  let e := PyException (lit "Permission denied") in
  let os := [Ok true; Raise e; Ok false; Ok true] in
  let completed := [Ok true; Ok false; Ok true; Raise e] in
  success_count (collect completed) = 2
  ∧ pbar_main (collect completed) = 4
  ∧ task_log (collect completed) ≡ₚ [LogTaskException e]
  ∧ summary 4 completed = (2, 4).
Proof.
  intros e os completed.
  apply (batch_never_aborts os completed).
  unfold os, completed.
  change [Ok true; Raise e; Ok false; Ok true]
    with ([Ok true] ++ [Raise e] ++ [Ok false; Ok true]).
  change [Ok true; Ok false; Ok true; Raise e]
    with ([Ok true] ++ [Ok false; Ok true] ++ [Raise e]).
  apply Permutation_app_head, Permutation_app_comm.
Defined.

(** A worker whose folder cannot be made lets the exception of
    [os.makedirs] escape; the other two tracks are downloaded and counted,
    and the exception is in the log. *)
Example escaped_exception_is_counted :
  let e := PyException (lit "[Errno 13] Permission denied") in
  let s := run_schedule folder_denied round_robin
             (start ∅ ∅ [track_one; track_two; track_three]) in
  outcomes s = [Some (Ok true); Some (Ok true); Some (Raise e)]
  ∧ summary 3 (results s) = (2, 3)
  ∧ task_log (collect (results s)) = [LogTaskException e]
  ∧ pbar_main (collect (results s)) = 3.
Proof. split_and!; vm_compute; reflexivity. Qed.

(** ** Discovery of the singers *)

Example two_pages_of_singers :
  get_all_singer_urls plain_reader two_pages 5
  = Some ([lit "https://tarat.ru/music/a"; lit "https://tarat.ru/music/b"],
          Crawl [lit "https://tarat.ru/music"; lit "https://tarat.ru/music?page=2"]
                []).
Proof. vm_compute. reflexivity. Qed.

Section Discovery.

Context (R : reader) (site : pystr → fetched).
Implicit Types (k n page fuel : nat) (u href : pystr) (st : crawl)
  (acc : gset pystr).

(** *** The order of [sorted] *)

Lemma str_le_total : Total str_le.
Proof.
  intros a. unfold str_le.
  induction a as [| x a IH]; intros [| y b]; cbn; try (by left); try (by right).
  destruct (N.ltb_spec x y), (N.ltb_spec y x), (N.eqb_spec x y),
    (N.eqb_spec y x); cbn; try (by left); try (by right); try lia.
  apply IH.
Qed.

(** *** One page *)

Lemma add_links_spec acc links u :
  u ∈ add_links R acc links
  ↔ u ∈ acc ∨ ∃ href, href ∈ links ∧ is_singer_href href = true
                      ∧ u = urljoin R BASE_URL href.
Proof.
  unfold add_links. revert acc.
  induction links as [| h links IH]; intros acc; cbn [foldl].
  - split; [by left |]. intros [? | (href & Hin & _)]; [done |].
    by apply elem_of_nil in Hin.
  - rewrite IH. destruct (is_singer_href h) eqn:Hh.
    + rewrite elem_of_union, elem_of_singleton. split.
      * intros [[-> | ?] | (href & Hin & ? & ?)]; [right | by left | right].
        -- exists h. split_and!; [by left | done | done].
        -- exists href. split_and!; [by right | done | done].
      * intros [? | (href & [-> | Hin]%elem_of_cons & ? & ?)].
        -- left. by right.
        -- left. by left.
        -- right. by exists href.
    + split.
      * intros [? | (href & Hin & ? & ?)]; [by left | right].
        exists href. split_and!; [by right | done | done].
      * intros [? | (href & [-> | Hin]%elem_of_cons & ? & ?)];
          [by left | congruence | right; by exists href].
Qed.

(** What [fetch_html] returns for page [k], against [page_of]: a page that
    is not empty, with nothing logged; or nothing of use, with at most one
    entry. *)
Lemma fetch_page k st :
  ∃ html l, fetch_html site (page_url k) st
            = (html, Crawl (requested st ++ [page_url k]) (html_log st ++ l))
    ∧ match html with
      | Some (c :: rest) => page_of site k = Some (c :: rest) ∧ l = []
      | _ => page_of site k = None ∧ length l ≤ 1
      end.
Proof.
  unfold fetch_html, page_of, log_html. cbn [requested html_log].
  destruct (site (page_url k)) as [status [[| c rest] | f] | f];
    [| | |]; try destruct (status =? 200)%Z;
    eexists _, _; (split; [first [reflexivity | by rewrite app_nil_r] |]);
    cbn; by eauto.
Qed.
(** *** The loop over the pages *)

Lemma singer_pages_run n :
  ¬ continuing R site n →
  ∀ d page fuel acc st,
    page + d = n → d < fuel →
    (∀ k, page ≤ k < n → continuing R site k) →
    ∃ acc' l,
      singer_pages R site fuel page acc st
      = Some (acc', Crawl (requested st ++ (page_url <$> seq page (S d)))
                          (html_log st ++ l))
      ∧ (∀ u, u ∈ acc'
              ↔ u ∈ acc
                ∨ ∃ k html href,
                    page ≤ k ≤ n ∧ page_of site k = Some html
                    ∧ href ∈ singer_links R html ∧ is_singer_href href = true
                    ∧ u = urljoin R BASE_URL href)
      ∧ length l ≤ 1 ∧ (is_Some (page_of site n) → l = []).
Proof.
  intros Hlast. induction d as [| d IH]; intros page fuel acc st Hn Hfuel Hcont;
    (destruct fuel as [| fuel]; [lia |]); cbn [singer_pages];
    destruct (fetch_page page st) as (html & l & -> & Hhtml).
  - assert (page = n) as -> by lia. clear Hcont.
    assert (∀ u, (∃ k html' href,
                    n ≤ k ≤ n ∧ page_of site k = Some html'
                    ∧ href ∈ singer_links R html' ∧ is_singer_href href = true
                    ∧ u = urljoin R BASE_URL href)
                 ↔ ∃ html' href,
                     page_of site n = Some html'
                     ∧ href ∈ singer_links R html' ∧ is_singer_href href = true
                     ∧ u = urljoin R BASE_URL href) as Hone.
    { intros u. split.
      - intros (k & html' & href & Hk & ?). assert (k = n) as -> by lia.
        by exists html', href.
      - intros (html' & href & ?). exists n, html', href. split; [lia | done]. }
    destruct html as [[| c rest] |].
    + destruct Hhtml as [Hnone Hl]. exists acc, l. split_and!; [done | | done |].
      * intros u. rewrite Hone. split; [by left |].
        intros [? | (? & ? & ? & _)]; [done | congruence].
      * rewrite Hnone. by intros [? ?].
    + destruct Hhtml as [Hpage ->].
      destruct (singer_links R (c :: rest)) as [| h links] eqn:Hlinks.
      * exists acc, []. split_and!; [done | | cbn; lia | done].
        intros u. rewrite Hone. split; [by left |].
        intros [? | (html' & href & Hp & Hin & _)]; [done |].
        rewrite Hpage in Hp. injection Hp as <-. rewrite Hlinks in Hin.
        by apply elem_of_nil in Hin.
      * destruct (next_link R (c :: rest)) eqn:Hnext.
        { exfalso. apply Hlast. exists (c :: rest). by rewrite Hlinks. }
        eexists _, []. split_and!; [done | | cbn; lia | done].
        intros u. rewrite add_links_spec, Hone. split.
        -- intros [? | (href & ? & ? & ?)]; [by left | right].
           exists (c :: rest), href. by rewrite Hlinks.
        -- intros [? | (html' & href & Hp & Hin & ? & ?)]; [by left | right].
           rewrite Hpage in Hp. injection Hp as <-. rewrite Hlinks in Hin.
           by exists href.
    + destruct Hhtml as [Hnone Hl]. exists acc, l. split_and!; [done | | done |].
      * intros u. rewrite Hone. split; [by left |].
        intros [? | (? & ? & ? & _)]; [done | congruence].
      * rewrite Hnone. by intros [? ?].
  - destruct (Hcont page) as (html0 & Hp0 & Hl0 & Hn0); [lia |].
    destruct html as [[| c rest] |];
      [destruct Hhtml; congruence | | destruct Hhtml; congruence].
    destruct Hhtml as [Hpage ->]. rewrite Hpage in Hp0. injection Hp0 as <-.
    destruct (singer_links R (c :: rest)) as [| h links] eqn:Hlinks; [done |].
    rewrite Hn0.
    destruct (IH (S page) fuel (add_links R acc (h :: links))
                (Crawl (requested st ++ [page_url page]) (html_log st ++ [])))
      as (acc' & l & -> & Hacc & Hlen & Hlog); [lia | lia | |].
    { intros k Hk. apply Hcont. lia. }
    exists acc', l. cbn [requested html_log].
    split_and!; [| | done | done].
    + by rewrite <- !app_assoc, app_nil_l.
    + intros u. rewrite Hacc, add_links_spec. split.
      * intros [[? | (href & ? & ? & ?)] | (k & html' & href & Hk & ?)].
        -- by left.
        -- right. exists page, (c :: rest), href.
           rewrite Hlinks. split; [lia | done].
        -- right. exists k, html', href. split; [lia | done].
      * intros [? | (k & html' & href & Hk & Hp & Hin & ? & ?)];
          [left; by left |].
        destruct (decide (k = page)) as [-> | Hne].
        -- left. right. rewrite Hpage in Hp. injection Hp as <-.
           rewrite Hlinks in Hin. by exists href.
        -- right. exists k, html', href. split; [lia | done].
Qed.

(** X21.  When the pages 1 to [n - 1] of the list of singers each come
    with status 200, have singer links and a link to the next page, and
    page [n] is the first that does not (it fails, is empty, has no singer
    link or no next link), [get_all_singer_urls] returns, given at least
    [n] rounds; what it returns is sorted by code points, has no
    duplicates, and is exactly the joined URLs of the singer links, other
    than those ending in [/music], of the pages 1 to [n] that were
    served. *)
Theorem singer_urls_exact n fuel :
  1 ≤ n → n ≤ fuel →
  (∀ k, 1 ≤ k < n → continuing R site k) → ¬ continuing R site n →
  ∃ urls st, get_all_singer_urls R site fuel = Some (urls, st)
    ∧ Sorted str_le urls ∧ NoDup urls
    ∧ ∀ u, u ∈ urls ↔ found R site n u.
Proof.
  intros Hn Hfuel Hcont Hlast. unfold get_all_singer_urls.
  destruct (singer_pages_run n Hlast (n - 1) 1 fuel ∅ (Crawl [] []))
    as (acc & l & -> & Hacc & _); [lia | lia | done |].
  eexists _, _. split; [done |]. split_and!.
  - apply Sorted_merge_sort, str_le_total.
  - rewrite merge_sort_Permutation. apply NoDup_elements.
  - intros u. rewrite merge_sort_Permutation, elem_of_elements, Hacc.
    unfold found. split; [| by right].
    intros [Hin | ?]; [| done]. by apply elem_of_empty in Hin.
Qed.

(** *** No page is requested twice *)

Lemma lit_inj (a b : string) : lit a = lit b → a = b.
Proof.
  revert b. induction a as [| x a IH]; intros [| y b] Heq; simplify_eq/=;
    [done |].
  f_equal; [| by apply IH].
  rewrite <- (ascii_N_embedding x), <- (ascii_N_embedding y). congruence.
Qed.

Lemma str_of_nat_inj (n m : nat) : str_of_nat n = str_of_nat m → n = m.
Proof.
  unfold str_of_nat. intros Heq%lit_inj.
  assert (∀ k, Nat.to_uint k ≠ Nil) as Hnil.
  { intros k. rewrite <- (DecimalNat.Unsigned.of_to k) at 1.
    rewrite DecimalNat.Unsigned.to_of. apply DecimalFacts.unorm_nonnil. }
  apply DecimalNat.Unsigned.to_uint_inj.
  pose proof (NilZero.usu _ (Hnil n)) as Hn.
  pose proof (NilZero.usu _ (Hnil m)) as Hm.
  rewrite Heq in Hn. congruence.
Qed.

Lemma page_url_inj (x y : nat) : 1 ≤ x → 1 ≤ y → page_url x = page_url y → x = y.
Proof.
  unfold page_url. intros Hx Hy.
  repeat case_bool_decide; intros Heq.
  - apply app_inv_head in Heq. apply app_inv_head in Heq.
    by apply str_of_nat_inj.
  - apply (f_equal length) in Heq. rewrite !length_app in Heq.
    cbn in Heq. lia.
  - apply (f_equal length) in Heq. rewrite !length_app in Heq.
    cbn in Heq. lia.
  - lia.
Qed.

(** X22.  Under the same conditions [get_all_singer_urls] requests the
    pages 1 to [n] in this order, each once and no URL twice, and nothing
    after page [n]; it logs at most one entry, and none when page [n] was
    served: a page that fails ends the discovery with the singers found so
    far. *)
Theorem discovery_stops_at_first_end n fuel :
  1 ≤ n → n ≤ fuel →
  (∀ k, 1 ≤ k < n → continuing R site k) → ¬ continuing R site n →
  ∃ urls st, get_all_singer_urls R site fuel = Some (urls, st)
    ∧ requested st = page_url <$> seq 1 n
    ∧ NoDup (requested st)
    ∧ length (html_log st) ≤ 1
    ∧ (is_Some (page_of site n) → html_log st = []).
Proof.
  intros Hn Hfuel Hcont Hlast. unfold get_all_singer_urls.
  destruct (singer_pages_run n Hlast (n - 1) 1 fuel ∅ (Crawl [] []))
    as (acc & l & -> & _ & Hlen & Hlog); [lia | lia | done |].
  eexists _, _. split; [done |]. cbn [requested html_log app].
  replace (S (n - 1)) with n by lia. split_and!; [done | | done | done].
  apply NoDup_fmap_2_strong; [| apply NoDup_seq].
  intros x y Hx%elem_of_seq Hy%elem_of_seq. apply page_url_inj; lia.
Qed.

End Discovery.

(** *** The same on sample data *)

Lemma two_pages_continuing : ∀ k, 1 ≤ k < 2 → continuing plain_reader two_pages k.
Proof.
  intros k Hk. assert (k = 1) as -> by lia.
  exists (lit "one"). split_and!; [reflexivity | discriminate | reflexivity].
Defined.

Lemma two_pages_end : ¬ continuing plain_reader two_pages 2.
Proof.
  intros (html & Hp & _ & Hnext). vm_compute in Hp. injection Hp as <-.
  vm_compute in Hnext. discriminate.
Defined.

Lemma singer_urls_exact_witness :
  ∃ urls st, get_all_singer_urls plain_reader two_pages 5 = Some (urls, st)
    ∧ Sorted str_le urls ∧ NoDup urls
    ∧ ∀ u, u ∈ urls ↔ found plain_reader two_pages 2 u.
Proof.
  apply (singer_urls_exact plain_reader two_pages 2 5).
  - lia.
  - lia.
  - exact two_pages_continuing.
  - exact two_pages_end.
Defined.

Lemma discovery_stops_at_first_end_witness :
  ∃ urls st, get_all_singer_urls plain_reader two_pages 5 = Some (urls, st)
    ∧ requested st = page_url <$> seq 1 2
    ∧ NoDup (requested st)
    ∧ length (html_log st) ≤ 1
    ∧ (is_Some (page_of two_pages 2) → html_log st = []).
Proof.
  apply (discovery_stops_at_first_end plain_reader two_pages 2 5).
  - lia.
  - lia.
  - exact two_pages_continuing.
  - exact two_pages_end.
Defined.
